(** * GKP stabilisation environment: a shallow embedding

    The development follows [gkp/gkp_tf_env/gkp_tf_env.py] (class [GKP]) and
    [gkp/gkp_tf_env/oscillator_env.py] (class [OscillatorGKP]).

    Numbers are exact: a [tf.complex64] scalar is a pair of reals, a
    [tf.float32] scalar is a real.  A tensor of shape [[N,N]] is an index
    function read on indices below [N]; the batch axis and the history
    (time) axis are lists.  Sampling is a finite distribution, an exception
    is a tagged result.  The ranks of the tensors are not checked: the
    circuits are those of a truncation [N >= 2], where a state is a vector
    (with [N = 1] the states that [define_stabilizer_code] squeezes are
    scalars). *)

From Stdlib Require Import Reals Lra Lia ZArith Setoid Morphisms.
From stdpp Require Import gmap strings list fin_maps.

Open Scope R_scope.

(* ================================================================== *)
(** * Part I: the model                                                 *)
(* ================================================================== *)

(** ** Complex scalars *)

Record C : Type := mkC { re : R; im : R }.

Declare Scope C_scope.
Delimit Scope C_scope with C.
Bind Scope C_scope with C.

Definition RtoC (x : R) : C := mkC x 0.
Definition Czero : C := RtoC 0.
Definition Cone : C := RtoC 1.
(** The Python literal [1j]. *)
Definition Ci : C := mkC 0 1.
Definition Cadd (a b : C) : C := mkC (re a + re b) (im a + im b).
Definition Copp (a : C) : C := mkC (- re a) (- im a).
Definition Csub (a b : C) : C := mkC (re a - re b) (im a - im b).
Definition Cmul (a b : C) : C :=
  mkC (re a * re b - im a * im b) (re a * im b + im a * re b).
Definition Cconj (a : C) : C := mkC (re a) (- im a).
Definition Cnorm2 (a : C) : R := re a * re a + im a * im a.
Definition Cinv (a : C) : C := mkC (re a / Cnorm2 a) (- im a / Cnorm2 a).
Definition Cdiv (a b : C) : C := Cmul a (Cinv b).
(** The scalar exponential: what [tf.linalg.expm] is on a [1x1] matrix. *)
Definition Cexp (a : C) : C :=
  mkC (exp (re a) * cos (im a)) (exp (re a) * sin (im a)).

Notation "a + b" := (Cadd a b) : C_scope.
Notation "a - b" := (Csub a b) : C_scope.
Notation "a * b" := (Cmul a b) : C_scope.
Notation "a / b" := (Cdiv a b) : C_scope.
Notation "- a" := (Copp a) : C_scope.

(** Finite sums of scalars, the contraction of [matmul] and [batch_dot]. *)
Fixpoint Csum (n : nat) (f : nat -> C) : C :=
  match n with
  | O => Czero
  | S m => Cadd (Csum m f) (f m)
  end.

(** ** Tensors *)

(** Shape [[NH]] and shape [[NH,NH]]. *)
Definition Vec : Type := nat -> C.
Definition Mat : Type := nat -> nat -> C.

Definition madd (A B : Mat) : Mat := fun i j => (A i j + B i j)%C.
Definition msub (A B : Mat) : Mat := fun i j => (A i j - B i j)%C.
Definition mscale (c : C) (A : Mat) : Mat := fun i j => (c * A i j)%C.
Definition mzero : Mat := fun _ _ => Czero.
Definition vadd (u v : Vec) : Vec := fun i => (u i + v i)%C.
Definition vscale (c : C) (v : Vec) : Vec := fun i => (c * v i)%C.
Definition vconj (v : Vec) : Vec := fun i => Cconj (v i).
(** [tf.linalg.adjoint]. *)
Definition adjoint (A : Mat) : Mat := fun i j => Cconj (A j i).

Section Contractions.
Variable NH : nat.

(** [tf.linalg.matmul], and [batch_dot] of two matrices, on one batch
    element. *)
Definition matmul (A B : Mat) : Mat :=
  fun i j => Csum NH (fun k => (A i k * B k j)%C).
(** [batch_dot] of a matrix and a vector on one batch element. *)
Definition matvec (A : Mat) (v : Vec) : Vec :=
  fun i => Csum NH (fun k => (A i k * v k)%C).
(** [batch_dot] of two vectors on one batch element (no conjugation). *)
Definition vdot (u v : Vec) : C := Csum NH (fun k => (u k * v k)%C).

(** Equality of tensors on the indices the shape has. *)
Definition mat_eq (A B : Mat) : Prop :=
  forall i j, (i < NH)%nat -> (j < NH)%nat -> A i j = B i j.
Definition vec_eq (u v : Vec) : Prop :=
  forall i, (i < NH)%nat -> u i = v i.

(** [<psi|psi>], the squared norm that [normalize] and [measurement]
    compute. *)
Definition norm2 (v : Vec) : R := re (vdot (vconj v) v).

End Contractions.

(** ** The oscillator operators ([OscillatorGKP.define_operators]) *)

Record Operators : Type := mkOperators {
  self_I : Mat;
  self_a : Mat;
  self_a_dag : Mat;
  self_q : Mat;
  self_p : Mat;
  self_n : Mat;
  self_Hamiltonian : Mat;
  self_c_ops : list Mat
}.

(** [qt.identity(N)], [qt.destroy(N)], [qt.create(N)], [qt.num(N)]. *)
Definition qt_identity : Mat :=
  fun i j => if (i =? j)%nat then Cone else Czero.
Definition qt_destroy : Mat :=
  fun i j => if (j =? S i)%nat then RtoC (sqrt (INR j)) else Czero.
Definition qt_create : Mat :=
  fun i j => if (i =? S j)%nat then RtoC (sqrt (INR i)) else Czero.
Definition qt_num : Mat :=
  fun i j => if (i =? j)%nat then RtoC (INR i) else Czero.

Section DefineOperators.
Variable N : nat.
(** The constants [K_osc] and [T1_osc] of the configuration module. *)
Variables K_osc T1_osc : R.

Definition define_operators : Operators :=
  let I := qt_identity in
  let a := qt_destroy in
  let a_dag := qt_create in
  let q := mscale (Cinv (RtoC (sqrt 2))) (madd (adjoint a) a) in
  let p := mscale (Cinv (RtoC (sqrt 2)))
                  (mscale Ci (msub (adjoint a) a)) in
  let n := qt_num in
  let Hamiltonian :=
    matmul N (mscale (RtoC (- (1 / 2) * (2 * PI) * K_osc)) n) n in
  let c_ops := [mscale (RtoC (sqrt (1 / T1_osc))) a] in
  mkOperators I a a_dag q p n Hamiltonian c_ops.

End DefineOperators.

(** ** Exceptions and sampling *)

Inductive exn : Type :=
  | ValueError (msg : string)
  | KeyError (key : string)
  | AttributeError (name : string).

Inductive res (A : Type) : Type :=
  | Ok (x : A)
  | Raise (e : exn).
Arguments Ok {A} x.
Arguments Raise {A} e.

(** A finite distribution: the outcomes a sampler can return, each with its
    probability. *)
Definition dist (A : Type) : Type := list (R * A).

Definition dret {A} (x : A) : dist A := [(1, x)].
Definition dscale {A} (p : R) (d : dist A) : dist A :=
  (fun qx => (p * fst qx, snd qx)) <$> d.
Definition dbind {A B} (d : dist A) (f : A -> dist B) : dist B :=
  concat ((fun px => dscale (fst px) (f (snd px))) <$> d).

Notation "'draw' x ':=' d 'in' k" := (dbind d (fun x => k))
  (at level 10, x name, d at level 100, k at level 200, only parsing).

(** The probability of an event, the total mass, the possible outcomes. *)
Definition Pr {A} (d : dist A) (E : A -> bool) : R :=
  foldr (fun px acc => if E (snd px) then fst px + acc else acc) 0 d.
Definition mass {A} (d : dist A) : R := Pr d (fun _ => true).
Definition possible {A} (d : dist A) (x : A) : Prop := exists p, (p, x) ∈ d.

(** [tfp.distributions.Bernoulli(probs=p).sample()] on one entry, and on a
    tensor of probabilities: the entries are drawn independently. *)
Definition Bernoulli (p : R) : dist Z := [(1 - p, 0%Z); (p, 1%Z)].
Fixpoint Bernoulli_sample (probs : list R) : dist (list Z) :=
  match probs with
  | [] => dret []
  | p :: ps =>
      draw o := Bernoulli p in
      draw os := Bernoulli_sample ps in
      dret (o :: os)
  end.

(** A computation that samples and may raise. *)
Definition M (A : Type) : Type := dist (res A).
Definition mret {A} (x : A) : M A := dret (Ok x).
Definition mraise {A} (e : exn) : M A := dret (Raise e).
Definition mbind {A B} (m : M A) (f : A -> M B) : M B :=
  dbind m (fun r => match r with Ok x => f x | Raise e => mraise e end).
Definition sample {A} (d : dist A) : M A :=
  (fun px => (fst px, Ok (snd px))) <$> d.
(** A dictionary access [d[k]]. *)
Definition getitem {A} (d : gmap string A) (k : string) : M A :=
  match d !! k with Some x => mret x | None => mraise (KeyError k) end.

Notation "'call' x ':=' m 'in' k" := (mbind m (fun x => k))
  (at level 10, x name, m at level 100, k at level 200, only parsing).

(** ** Batched tensor operations *)

(** A real tensor of shape [[batch, dim]], and a dictionary of them. *)
Abbreviation Tensor2 := (list (list R)).
Abbreviation Action := (gmap string (list (list R))).

(** The Kraus operators of a two-outcome measurement: the dictionary with
    the keys [0] and [1], each of shape [[b,NH,NH]]. *)
Record Kraus2 : Type := mkKraus2 {
  Kraus_0 : list Mat;
  Kraus_1 : list Mat
}.

(** A trajectory simulator as [init_monte_carlo_sim] constructs it. *)
Record QuantumTrajectorySim : Type := mkQuantumTrajectorySim {
  sim_Kraus : gmap nat (list Mat);
  sim_steps : Z
}.

(** Python's [int(x)] on a float: truncation towards zero.  The argument
    is a real number here: the rounding of a floating-point quotient is
    not modelled. *)
Definition py_int (x : R) : Z :=
  if Rle_dec 0 x then Int_part x else (- Int_part (- x))%Z.

Section Simulation.
(** The truncation [N] of the oscillator and the batch size. *)
Variables N batch_size : nat.
Variable self : Operators.
(** [tf.linalg.expm] on a matrix of shape [[N,N]], in exact arithmetic. *)
Variable expm : Mat -> Mat.
(** [QuantumTrajectorySim.run]. *)
Variable run : QuantumTrajectorySim -> list Vec -> dist (list Vec).
(** The constants of the configuration module. *)
Variables discrete_step_duration t_gate t_read t_delay : R.

Definition batch_dot_mm (x y : list Mat) : list Mat := zip_with (matmul N) x y.
Definition batch_dot_mv (x : list Mat) (y : list Vec) : list Vec :=
  zip_with (matvec N) x y.
Definition batch_dot_vv (x y : list Vec) : list C := zip_with (vdot N) x y.

(** *** [GKP.init_monte_carlo_sim] *)

(** One turn of the loop over [enumerate(self.c_ops)]. *)
Definition Kraus_loop (dt : R) (Kraus : gmap nat Mat) (ic : nat * Mat)
  : gmap nat Mat :=
  let i := ic.1 in
  let c := ic.2 in
  let Kraus := <[S i := mscale (RtoC (sqrt dt)) c]> Kraus in
  alter (fun K0 =>
           msub K0 (mscale (RtoC dt)
                      (mscale (RtoC (1 / 2)) (matmul N (adjoint c) c))))
        O Kraus.

Definition Kraus_ops : gmap nat Mat :=
  let dt := discrete_step_duration in
  let Kraus : gmap nat Mat :=
    {[ O := msub (self_I self)
                 (mscale (RtoC dt) (mscale Ci (self_Hamiltonian self))) ]} in
  foldl (Kraus_loop dt) Kraus
        (zip (seq 0 (length (self_c_ops self))) (self_c_ops self)).

Definition Kraus_tf : gmap nat (list Mat) :=
  (fun op => replicate batch_size op) <$> Kraus_ops.

Definition init_monte_carlo_sim
  : QuantumTrajectorySim * QuantumTrajectorySim :=
  let dt := discrete_step_duration in
  let mc_steps_round := py_int ((t_gate + t_read) / dt) in
  let mc_sim_round := mkQuantumTrajectorySim Kraus_tf mc_steps_round in
  let mc_steps_delay := py_int (t_delay / dt) in
  let mc_sim_delay := mkQuantumTrajectorySim Kraus_tf mc_steps_delay in
  (mc_sim_round, mc_sim_delay).

Definition mc_sim_round : QuantumTrajectorySim := init_monte_carlo_sim.1.
Definition mc_sim_delay : QuantumTrajectorySim := init_monte_carlo_sim.2.

(** *** [GKP.normalize], [GKP.vec_to_complex], [GKP.measurement] *)

Definition normalize (state : list Vec) : list Vec :=
  let norm := re <$> batch_dot_vv (vconj <$> state) state in
  let norm := (fun x => RtoC (sqrt x)) <$> norm in
  zip_with (fun v n => (fun i => v i / n)%C) state norm.

Definition vec_to_complex (a : Tensor2) : list C :=
  (fun row => RtoC (nth 0 row 0) + Ci * RtoC (nth 1 row 0))%C <$> a.

Definition measurement (psi : list Vec) (Kraus : Kraus2)
  : dist (list Vec * Tensor2) :=
  let collapsed0 := batch_dot_mv (Kraus_0 Kraus) psi in
  let p0 := re <$> batch_dot_vv (vconj <$> collapsed0) collapsed0 in
  let collapsed1 := batch_dot_mv (Kraus_1 Kraus) psi in
  let p1 := re <$> batch_dot_vv (vconj <$> collapsed1) collapsed1 in
  draw obs := Bernoulli_sample (zip_with Rdiv p1 (zip_with Rplus p0 p1)) in
  let mask := (fun o : Z => RtoC (IZR o)) <$> obs in
  let psi := zip_with vadd
               (zip_with vscale ((fun m => Cone - m)%C <$> mask) collapsed0)
               (zip_with vscale mask collapsed1) in
  let obs := (fun o : Z => [IZR (1 - 2 * o)]) <$> obs in
  dret (psi, obs).

(** *** The gates ([OscillatorGKP.phase], [OscillatorGKP.translate]) *)

Definition phase (phi : list R) : list C :=
  (fun x => Cexp (Ci * RtoC x)) <$> phi.

(** The generator of one batch element of [translate]. *)
Definition generator (amplitude : C) : Mat :=
  msub (mscale (amplitude / RtoC (sqrt 2)) (self_a_dag self))
       (mscale (Cconj amplitude / RtoC (sqrt 2)) (self_a self)).

Definition translate (amplitude : list C) : list Mat :=
  let a := replicate batch_size (self_a self) in
  let a_dag := replicate batch_size (self_a_dag self) in
  let batch :=
    zip_with msub
      (zip_with mscale ((fun z => z / RtoC (sqrt 2))%C <$> amplitude) a_dag)
      (zip_with mscale ((fun z => Cconj z / RtoC (sqrt 2))%C <$> amplitude) a)
  in
  expm <$> batch.

(** *** The circuits ([OscillatorGKP.quantum_circuit_v1], [_v2], [_v3]) *)

(** The measurement operators that [quantum_circuit_v1] builds. *)
Definition Kraus_v1 (beta : list C) (phi : Tensor2) : Kraus2 :=
  let T_b := translate beta in
  let I := replicate batch_size (self_I self) in
  let ph := phase (concat phi) in
  mkKraus2
    (mscale (RtoC (1 / 2)) <$> zip_with madd I (zip_with mscale ph T_b))
    (mscale (RtoC (1 / 2)) <$> zip_with msub I (zip_with mscale ph T_b)).

Definition quantum_circuit_v1 (psi : list Vec) (action : Action)
  : M (list Vec * list Vec * Tensor2) :=
  call alpha := getitem action "alpha" in
  call beta := getitem action "beta" in
  call phi := getitem action "phi" in
  let alpha := vec_to_complex alpha in
  let beta := vec_to_complex beta in
  let T_a := translate alpha in
  let Kraus := Kraus_v1 beta phi in
  call psi := sample (run mc_sim_delay psi) in
  let psi_cached := batch_dot_mv T_a psi in
  call psi := sample (run mc_sim_round psi_cached) in
  let psi := normalize psi in
  call r := sample (measurement psi Kraus) in
  mret (r.1, psi_cached, r.2).

(** The measurement operators that [quantum_circuit_v2] builds. *)
Definition Kraus_v2 (beta : list C) (phi : Tensor2) : Kraus2 :=
  let T_b := translate ((fun z => z / RtoC 2)%C <$> beta) in
  let ph := phase (concat phi) in
  mkKraus2
    (mscale (RtoC (1 / 2)) <$>
       zip_with madd (adjoint <$> T_b) (zip_with mscale ph T_b))
    (mscale (RtoC (1 / 2)) <$>
       zip_with msub (adjoint <$> T_b) (zip_with mscale ph T_b)).

Definition quantum_circuit_v2 (psi : list Vec) (action : Action)
  : M (list Vec * list Vec * Tensor2) :=
  call alpha := getitem action "alpha" in
  call beta := getitem action "beta" in
  call phi := getitem action "phi" in
  let alpha := vec_to_complex alpha in
  let beta := vec_to_complex beta in
  let T_a := translate alpha in
  let Kraus := Kraus_v2 beta phi in
  call psi := sample (run mc_sim_delay psi) in
  let psi_cached := batch_dot_mv T_a psi in
  call psi := sample (run mc_sim_round psi_cached) in
  let psi := normalize psi in
  call r := sample (measurement psi Kraus) in
  mret (r.1, psi_cached, r.2).

(** The two chunks of [quantum_circuit_v3], from the translations by
    [beta/2] and [epsilon/2] and their adjoints. *)
Definition chunk1 (Tpb Tmb Tpe Tme : list Mat) : list Mat :=
  zip_with madd
    (zip_with madd
       (zip_with msub
          (mscale Ci <$> batch_dot_mm Tmb (batch_dot_mm Tpe Tpb))
          (mscale Ci <$> batch_dot_mm Tmb (batch_dot_mm Tme Tpb)))
       (batch_dot_mm Tmb (batch_dot_mm Tme Tmb)))
    (batch_dot_mm Tmb (batch_dot_mm Tpe Tmb)).

Definition chunk2 (Tpb Tmb Tpe Tme : list Mat) : list Mat :=
  zip_with madd
    (zip_with madd
       (zip_with msub
          (mscale Ci <$> batch_dot_mm Tpb (batch_dot_mm Tme Tmb))
          (mscale Ci <$> batch_dot_mm Tpb (batch_dot_mm Tpe Tmb)))
       (batch_dot_mm Tpb (batch_dot_mm Tme Tpb)))
    (batch_dot_mm Tpb (batch_dot_mm Tpe Tpb)).

(** The measurement operators that [quantum_circuit_v3] builds. *)
Definition Kraus_v3 (beta epsilon : list C) (phi : Tensor2) : Kraus2 :=
  let Tpb := translate ((fun z => z / RtoC 2)%C <$> beta) in
  let Tmb := adjoint <$> Tpb in
  let Tpe := translate ((fun z => z / RtoC 2)%C <$> epsilon) in
  let Tme := adjoint <$> Tpe in
  let ph := phase (concat phi) in
  let chunk1 := chunk1 Tpb Tmb Tpe Tme in
  let chunk2 := chunk2 Tpb Tmb Tpe Tme in
  mkKraus2
    (mscale (RtoC (1 / 4)) <$> zip_with madd chunk1 (zip_with mscale ph chunk2))
    (mscale (RtoC (1 / 4)) <$> zip_with msub chunk1 (zip_with mscale ph chunk2)).

Definition quantum_circuit_v3 (psi : list Vec) (action : Action)
  : M (list Vec * list Vec * Tensor2) :=
  call alpha := getitem action "alpha" in
  call beta := getitem action "beta" in
  call epsilon := getitem action "epsilon" in
  call phi := getitem action "phi" in
  let alpha := vec_to_complex alpha in
  let beta := vec_to_complex beta in
  let epsilon := vec_to_complex epsilon in
  let T_a := translate alpha in
  let Kraus := Kraus_v3 beta epsilon phi in
  call psi := sample (run mc_sim_delay psi) in
  let psi_cached := batch_dot_mv T_a psi in
  call psi := sample (run mc_sim_round psi_cached) in
  let psi := normalize psi in
  call r := sample (measurement psi Kraus) in
  mret (r.1, psi_cached, r.2).

(** *** [OscillatorGKP.phase_estimation] *)

Definition phase_estimation (psi : list Vec) (beta : list C) (angle : list R)
    (sample : bool) : dist (list Vec * Tensor2) :=
  let I := replicate batch_size (self_I self) in
  let T_b := translate beta in
  let Kraus :=
    mkKraus2
      (mscale (RtoC (1 / 2)) <$>
         zip_with madd I (zip_with mscale (phase angle) T_b))
      (mscale (RtoC (1 / 2)) <$>
         zip_with msub I (zip_with mscale (phase angle) T_b)) in
  let psi := normalize psi in
  if sample then measurement psi Kraus
  else
    let collapsed0 := batch_dot_mv (Kraus_0 Kraus) psi in
    let p0 := re <$> batch_dot_vv (vconj <$> collapsed0) collapsed0 in
    let collapsed1 := batch_dot_mv (Kraus_1 Kraus) psi in
    let p1 := re <$> batch_dot_vv (vconj <$> collapsed1) collapsed1 in
    dret (psi, (fun x => [x]) <$> zip_with Rminus p0 p1).

End Simulation.

(** ** The environment object ([GKP], [OscillatorGKP]) *)

(** A Python value handed to a validating property setter. *)
Inductive pyval : Type :=
  | VNone
  | VInt (z : Z)
  | VFloat (x : R)
  | VStr (s : string).

(** The exceptions raised inside a [try] block before the bare [except]
    replaces them. *)
Inductive inner_exn : Type :=
  | AssertionError
  | TypeError
  | Exception (msg : string).

(** The reward methods that [calculate_reward] can be bound to. *)
Inductive reward_fn : Type :=
  | bound_reward_zero
  | bound_reward_stabilizers
  | bound_reward_pauli
  | bound_reward_mixed.

(** The circuit methods that [quantum_circuit] can be bound to. *)
Inductive circuit_fn : Type :=
  | bound_quantum_circuit_v1
  | bound_quantum_circuit_v2
  | bound_quantum_circuit_v3.

(** A real tensor of shape [[batch, time, dim]]. *)
Abbreviation Tensor3 := (list (list (list R))).

Inductive StepType : Type := FIRST | MID | LAST.

(** [tf_agents.trajectories.time_step.TimeStep]. *)
Record TimeStep : Type := mkTimeStep {
  step_type : StepType;
  reward : list R;
  discount : list R;
  observation : gmap string (list (list (list R)))
}.

(** The attributes that [_reset] creates and [_step] updates. *)
Record Episode : Type := mkEpisode {
  _state : list Vec;
  _original : list string;
  _episode_ended : bool;
  _elapsed_steps : Z;
  _episode_return : list R;
  info : gmap string (list Vec);
  history : gmap string (list (list (list (list R))));
  _current_time_step_ : TimeStep
}.

Record GKP : Type := mkGKP {
  _N : Z;
  self_H : Z;
  max_episode_length : option Z;
  episode_length : Z;
  _batch_size : Z;
  _init : string;
  _reward_mode : string;
  calculate_reward : reward_fn;
  quantum_circuit_type : string;
  quantum_circuit : circuit_fn;
  (** The action spec of [create_specs]: the components and their sizes. *)
  action_spec : gmap string nat;
  (** Whether ['code_map' in self.__dir__()]. *)
  has_code_map : bool;
  (** [None] until the first [_reset]. *)
  episode : option Episode
}.

(** The result of a statement on the object: it may raise after it has
    assigned. *)
Inductive outcome : Type :=
  | Done (self : GKP)
  | Raised (e : exn) (self : GKP).

(** *** Attribute assignments *)

Definition with_N (self : GKP) (n : Z) : GKP :=
  mkGKP n (self_H self) (max_episode_length self) (episode_length self)
    (_batch_size self) (_init self) (_reward_mode self)
    (calculate_reward self) (quantum_circuit_type self)
    (quantum_circuit self) (action_spec self) (has_code_map self)
    (episode self).
Definition with_H (self : GKP) (h : Z) : GKP :=
  mkGKP (_N self) h (max_episode_length self) (episode_length self)
    (_batch_size self) (_init self) (_reward_mode self)
    (calculate_reward self) (quantum_circuit_type self)
    (quantum_circuit self) (action_spec self) (has_code_map self)
    (episode self).
Definition with_max_episode_length (self : GKP) (m : option Z) : GKP :=
  mkGKP (_N self) (self_H self) m (episode_length self)
    (_batch_size self) (_init self) (_reward_mode self)
    (calculate_reward self) (quantum_circuit_type self)
    (quantum_circuit self) (action_spec self) (has_code_map self)
    (episode self).
Definition with_episode_length (self : GKP) (T : Z) : GKP :=
  mkGKP (_N self) (self_H self) (max_episode_length self) T
    (_batch_size self) (_init self) (_reward_mode self)
    (calculate_reward self) (quantum_circuit_type self)
    (quantum_circuit self) (action_spec self) (has_code_map self)
    (episode self).
Definition with_batch_size (self : GKP) (b : Z) : GKP :=
  mkGKP (_N self) (self_H self) (max_episode_length self)
    (episode_length self) b (_init self) (_reward_mode self)
    (calculate_reward self) (quantum_circuit_type self)
    (quantum_circuit self) (action_spec self) (has_code_map self)
    (episode self).
Definition with_init (self : GKP) (v : string) : GKP :=
  mkGKP (_N self) (self_H self) (max_episode_length self)
    (episode_length self) (_batch_size self) v (_reward_mode self)
    (calculate_reward self) (quantum_circuit_type self)
    (quantum_circuit self) (action_spec self) (has_code_map self)
    (episode self).
Definition with_reward_mode (self : GKP) (m : string) : GKP :=
  mkGKP (_N self) (self_H self) (max_episode_length self)
    (episode_length self) (_batch_size self) (_init self) m
    (calculate_reward self) (quantum_circuit_type self)
    (quantum_circuit self) (action_spec self) (has_code_map self)
    (episode self).
Definition with_calculate_reward (self : GKP) (f : reward_fn) : GKP :=
  mkGKP (_N self) (self_H self) (max_episode_length self)
    (episode_length self) (_batch_size self) (_init self)
    (_reward_mode self) f (quantum_circuit_type self)
    (quantum_circuit self) (action_spec self) (has_code_map self)
    (episode self).
Definition with_quantum_circuit_type (self : GKP) (t : string) : GKP :=
  mkGKP (_N self) (self_H self) (max_episode_length self)
    (episode_length self) (_batch_size self) (_init self)
    (_reward_mode self) (calculate_reward self) t
    (quantum_circuit self) (action_spec self) (has_code_map self)
    (episode self).
Definition with_specs (self : GKP) (c : circuit_fn) (spec : gmap string nat)
  : GKP :=
  mkGKP (_N self) (self_H self) (max_episode_length self)
    (episode_length self) (_batch_size self) (_init self)
    (_reward_mode self) (calculate_reward self) (quantum_circuit_type self)
    c spec (has_code_map self) (episode self).
Definition with_code_map (self : GKP) : GKP :=
  mkGKP (_N self) (self_H self) (max_episode_length self)
    (episode_length self) (_batch_size self) (_init self)
    (_reward_mode self) (calculate_reward self) (quantum_circuit_type self)
    (quantum_circuit self) (action_spec self) true (episode self).
Definition with_episode (self : GKP) (e : Episode) : GKP :=
  mkGKP (_N self) (self_H self) (max_episode_length self)
    (episode_length self) (_batch_size self) (_init self)
    (_reward_mode self) (calculate_reward self) (quantum_circuit_type self)
    (quantum_circuit self) (action_spec self) (has_code_map self) (Some e).

(** *** The property setters *)

(** A [try: ... except: raise ValueError(msg)] block: whatever the body
    raises, the caller sees the [ValueError]. *)
Definition try_except (body : GKP + inner_exn * GKP) (msg : string)
  : outcome :=
  match body with
  | inl self => Done self
  | inr (_, self) => Raised (ValueError msg) self
  end.

(** [mode in ['zero', 'pauli', 'stabilizers', 'mixed']]. *)
Definition reward_modes : list string :=
  ["zero"; "pauli"; "stabilizers"; "mixed"].

Definition set_reward_mode (self : GKP) (mode : pyval) : outcome :=
  try_except
    match mode with
    | VStr m =>
        if bool_decide (m ∈ reward_modes) then
          let self := with_reward_mode self m in
          let self :=
            if String.eqb m "zero"
            then with_calculate_reward self bound_reward_zero else self in
          let self :=
            if String.eqb m "stabilizers"
            then with_calculate_reward self bound_reward_stabilizers
            else self in
          if String.eqb m "pauli" then
            if String.eqb (_init self) "vac"
            then inr (Exception "Pauli reward not supported for vac", self)
            else inl (with_calculate_reward self bound_reward_pauli)
          else
            inl (if String.eqb m "mixed"
                 then with_calculate_reward self bound_reward_mixed
                 else self)
        else inr (AssertionError, self)
    | _ => inr (AssertionError, self)
    end
    "Reward mode not supported.".

(** [val in ['vac','random','X+','X-','Y+','Y-','Z+','Z-']]. *)
Definition init_modes : list string :=
  ["vac"; "random"; "X+"; "X-"; "Y+"; "Y-"; "Z+"; "Z-"].

Definition set_init (self : GKP) (val : pyval) : outcome :=
  try_except
    match val with
    | VStr v =>
        if bool_decide (v ∈ init_modes) then inl (with_init self v)
        else inr (AssertionError, self)
    | _ => inr (AssertionError, self)
    end
    "Initial state not supported.".

Definition set_batch_size (self : GKP) (size : pyval) : outcome :=
  if has_code_map self then
    Raised (ValueError "Cannot change batch_size after initialization.") self
  else
    try_except
      match size with
      | VInt z =>
          if (0 <? z)%Z then inl (with_batch_size self z)
          else inr (AssertionError, self)
      | VFloat _ => inr (AssertionError, self)
      | VNone | VStr _ => inr (TypeError, self)
      end
      "Batch size should be positive integer.".

Definition set_N (self : GKP) (n : Z) : outcome :=
  if has_code_map self then
    Raised (ValueError "Cannot change N after initialization.") self
  else Done (with_N self n).

(** *** The constructor ([GKP.__init__], [GKP.create_specs]) *)

(** A keyword argument of the constructor.  The attributes without a
    validating setter are given with the type the code uses them at. *)
Inductive kwarg : Type :=
  | kw_N (n : Z)
  | kw_H (h : Z)
  | kw_max_episode_length (m : option Z)
  | kw_episode_length (T : Z)
  | kw_batch_size (size : pyval)
  | kw_init (val : pyval)
  | kw_reward_mode (mode : pyval)
  | kw_quantum_circuit_type (t : string).

Definition setattr (self : GKP) (kw : kwarg) : outcome :=
  match kw with
  | kw_N n => set_N self n
  | kw_H h => Done (with_H self h)
  | kw_max_episode_length m => Done (with_max_episode_length self m)
  | kw_episode_length T => Done (with_episode_length self T)
  | kw_batch_size size => set_batch_size self size
  | kw_init val => set_init self val
  | kw_reward_mode mode => set_reward_mode self mode
  | kw_quantum_circuit_type t => Done (with_quantum_circuit_type self t)
  end.

(** [for key, val in kwargs.items(): setattr(self, key, val)]. *)
Fixpoint setattrs (self : GKP) (kwargs : list kwarg) : outcome :=
  match kwargs with
  | [] => Done self
  | kw :: rest =>
      match setattr self kw with
      | Done self => setattrs self rest
      | Raised e self => Raised e self
      end
  end.

(** The object before [__init__] has assigned anything. *)
Definition blank : GKP :=
  mkGKP 0 0 None 0 0 "" "" bound_reward_zero "" bound_quantum_circuit_v1
        ∅ false None.

(** The default simulation parameters, in the order of assignment. *)
Definition defaults : list kwarg :=
  [kw_N 100; kw_H 1; kw_max_episode_length None; kw_episode_length 20;
   kw_batch_size (VInt 50); kw_init (VStr "vac");
   kw_reward_mode (VStr "stabilizers"); kw_quantum_circuit_type "v1"].

(** [create_specs] looks the circuit up by name among the methods
    [quantum_circuit_v1], [_v2], [_v3] of [OscillatorGKP].  The tensor
    specs are kept as sizes only: that [TensorSpec] rejects a negative
    horizon [H], and that the name [quantum_circuit_type] is itself an
    attribute, is left to the hypotheses of the properties. *)
Definition create_specs (self : GKP) : outcome :=
  let action_spec : gmap string nat :=
    <["phi" := 1%nat]> (<["beta" := 2%nat]> {["alpha" := 2%nat]}) in
  let action_spec :=
    if String.eqb (quantum_circuit_type self) "v3"
    then <["epsilon" := 2%nat]> action_spec else action_spec in
  if String.eqb (quantum_circuit_type self) "v1"
  then Done (with_specs self bound_quantum_circuit_v1 action_spec)
  else if String.eqb (quantum_circuit_type self) "v2"
  then Done (with_specs self bound_quantum_circuit_v2 action_spec)
  else if String.eqb (quantum_circuit_type self) "v3"
  then Done (with_specs self bound_quantum_circuit_v3 action_spec)
  else Raised (AttributeError
                 ("quantum_circuit_" +:+ quantum_circuit_type self)) self.

(** The constructor of [OscillatorGKP]: the defaults, the keyword arguments, the
    specs, then the tensors, of which [define_stabilizer_code] creates
    [code_map] last.  The tensors are modelled on their own
    ([define_operators], [init_monte_carlo_sim]) or are parameters
    ([states], [code_map]): a truncation [N] for which their construction
    raises is left to the hypotheses of the properties. *)
Definition __init__ (kwargs : list kwarg) : res GKP :=
  match setattrs blank defaults with
  | Raised e _ => Raise e
  | Done self =>
      match setattrs self kwargs with
      | Raised e _ => Raise e
      | Done self =>
          match create_specs self with
          | Raised e _ => Raise e
          | Done self => Ok (with_code_map self)
          end
      end
  end.

(** ** Episodes ([GKP._reset], [GKP._step]) *)

(** [[x]*n] on a Python list. *)
Definition py_repeat {A} (l : list A) (n : Z) : list A :=
  concat (replicate (Z.to_nat n) l).

(** The slice [l[-n:]]: the last [n] items when [n] is positive, all of
    [l] when [n] is [0], and [l[|n|:]] when [n] is negative. *)
Definition py_last {A} (n : Z) (l : list A) : list A :=
  if (0 <? n)%Z then drop (length l - Z.to_nat n) l
  else drop (Z.to_nat (- n)) l.

(** [tf.expand_dims(x, axis=1)] from [[batch, dim]] to [[batch, 1, dim]]. *)
Definition expand_dims1 (x : Tensor2) : Tensor3 := (fun row => [row]) <$> x.

(** [tf.concat(values, axis=1)]: it needs a tensor, and tensors that agree
    on the batch axis. *)
Definition tf_concat1 (values : list Tensor3) : option Tensor3 :=
  match values with
  | [] => None
  | v :: vs =>
      if forallb (fun w : Tensor3 => (length w =? length v)%nat) vs
      then Some (foldl (zip_with app) v vs)
      else None
  end.

(** The observation of horizon [H]:
    [{key : tf.concat(val[-self.H:], axis=1) for key, val in history.items()}]. *)
Definition make_observation (H : Z)
    (history : gmap string (list Tensor3)) : M (gmap string Tensor3) :=
  if decide (map_Forall
               (fun _ val => is_Some (tf_concat1 (py_last H val))) history)
  then mret (omap (fun val => tf_concat1 (py_last H val)) history)
  else mraise (ValueError "concat").

(** [for a in action.keys(): self.history[a].append(...)]. *)
Definition append_actions (history : gmap string (list Tensor3))
    (action : Action) : res (gmap string (list Tensor3)) :=
  map_fold
    (fun a x acc =>
       match acc with
       | Ok h =>
           match h !! a with
           | Some l => Ok (<[a := l ++ [expand_dims1 x]]> h)
           | None => Raise (KeyError a)
           end
       | Raise e => Raise e
       end)
    (Ok history) action.

Definition of_res {A} (r : res A) : M A := dret r.

(** [np.random.randint(low, high)]: uniform on [low .. high-1]. *)
Definition uniform {A} (l : list A) : dist A :=
  (fun x => (1 / INR (length l), x)) <$> l.
Definition np_random_randint (low high : Z) : M Z :=
  if (low <? high)%Z
  then sample (uniform ((fun k => (low + Z.of_nat k)%Z)
                          <$> seq 0 (Z.to_nat (high - low))))
  else mraise (ValueError "low >= high").

(** [np.random.choice(options, size=size)]: independent uniform draws. *)
Fixpoint np_random_choice {A} (options : list A) (size : nat)
  : dist (list A) :=
  match size with
  | O => dret []
  | S n =>
      draw x := uniform options in
      draw xs := np_random_choice options n in
      dret (x :: xs)
  end.

(** [[d[k] for k in ks]]. *)
Fixpoint getitems {A} (d : gmap string A) (ks : list string) : M (list A) :=
  match ks with
  | [] => mret []
  | k :: ks =>
      call x := getitem d k in
      call xs := getitems d ks in
      mret (x :: xs)
  end.

(** [ts.restart], [ts.transition], [ts.termination]. *)
Definition restart (observation : gmap string Tensor3) (batch_size : nat)
  : TimeStep :=
  mkTimeStep FIRST (replicate batch_size 0) (replicate batch_size 1)
             observation.
Definition transition (observation : gmap string Tensor3) (reward : list R)
  : TimeStep :=
  mkTimeStep MID reward ((fun _ => 1) <$> reward) observation.
Definition termination (observation : gmap string Tensor3) (reward : list R)
  : TimeStep :=
  mkTimeStep LAST reward ((fun _ => 0) <$> reward) observation.

Section Environment.
(** [tf.linalg.expm] and [QuantumTrajectorySim.run] at each truncation. *)
Variable expm : nat -> Mat -> Mat.
Variable run : nat -> QuantumTrajectorySim -> list Vec -> dist (list Vec).
(** The constants of the configuration module. *)
Variables K_osc T1_osc discrete_step_duration t_gate t_read t_delay : R.
(** The tables that [define_stabilizer_code] stores: [self.states] and
    [self.code_map]. *)
Variable states : gmap string Vec.
Variable code_map : gmap string C.

Definition self_N (self : GKP) : nat := Z.to_nat (_N self).
Definition batch_size (self : GKP) : nat := Z.to_nat (_batch_size self).
Definition operators (self : GKP) : Operators :=
  define_operators (self_N self) K_osc T1_osc.

(** [self.quantum_circuit(psi, action)]. *)
Definition call_quantum_circuit (self : GKP) (psi : list Vec)
    (action : Action) : M (list Vec * list Vec * Tensor2) :=
  match quantum_circuit self with
  | bound_quantum_circuit_v1 =>
      quantum_circuit_v1 (self_N self) (batch_size self) (operators self)
        (expm (self_N self)) (run (self_N self))
        discrete_step_duration t_gate t_read t_delay psi action
  | bound_quantum_circuit_v2 =>
      quantum_circuit_v2 (self_N self) (batch_size self) (operators self)
        (expm (self_N self)) (run (self_N self))
        discrete_step_duration t_gate t_read t_delay psi action
  | bound_quantum_circuit_v3 =>
      quantum_circuit_v3 (self_N self) (batch_size self) (operators self)
        (expm (self_N self)) (run (self_N self))
        discrete_step_duration t_gate t_read t_delay psi action
  end.

(** *** The reward functions *)

Definition reward_zero (self : GKP) (obs : Tensor2) (act : Action)
  : M (list R) :=
  mret (replicate (batch_size self) 0).

Definition reward_stabilizers (self : GKP) (obs : Tensor2) (act : Action)
  : M (list R) :=
  call phi := getitem act "phi" in
  let mask :=
    (fun row : list R => if Req_dec_T (nth 0 row 0) 0 then 1 else 0)
      <$> phi in
  mret (zip_with Rmult (concat obs) mask).

Definition reward_pauli (self : GKP) (ep : Episode) (obs : Tensor2)
    (act : Action) : M (list R) :=
  if (_elapsed_steps ep <? episode_length self)%Z then
    mret (replicate (batch_size self) 0)
  else
    call pauli :=
      getitems code_map
        ((fun label => String.substring 0 1 label)
           <$> take (batch_size self) (_original ep)) in
    let phi := replicate (batch_size self) 0 in
    call psi_cached := getitem (info ep) "psi_cached" in
    call r :=
      sample (phase_estimation (self_N self) (batch_size self)
                (operators self) (expm (self_N self)) psi_cached pauli phi
                true) in
    mret (concat r.2).

Definition reward_mixed (self : GKP) (ep : Episode) (obs : Tensor2)
    (act : Action) : M (list R) :=
  if (_elapsed_steps ep <? episode_length self)%Z then
    mret (replicate (batch_size self) 0)
  else
    call mask :=
      sample (Bernoulli_sample (replicate (batch_size self) (1 / 2))) in
    call S_q := getitem code_map "S_q" in
    call S_p := getitem code_map "S_p" in
    let beta :=
      (fun m : Z => S_q * RtoC (IZR m) + S_p * RtoC (1 - IZR m))%C
        <$> mask in
    let phi := replicate (batch_size self) 0 in
    call psi_cached := getitem (info ep) "psi_cached" in
    call r :=
      sample (phase_estimation (self_N self) (batch_size self)
                (operators self) (expm (self_N self)) psi_cached beta phi
                true) in
    mret (concat r.2).

(** [self.calculate_reward(obs, action)]. *)
Definition call_calculate_reward (self : GKP) (ep : Episode) (obs : Tensor2)
    (act : Action) : M (list R) :=
  match calculate_reward self with
  | bound_reward_zero => reward_zero self obs act
  | bound_reward_stabilizers => reward_stabilizers self obs act
  | bound_reward_pauli => reward_pauli self ep obs act
  | bound_reward_mixed => reward_mixed self ep obs act
  end.

(** *** [GKP._reset] *)

Definition cardinal_modes : list string :=
  ["vac"; "X+"; "X-"; "Y+"; "Y-"; "Z+"; "Z-"].

(** The batch of initial states and their labels. *)
Definition initial_states (self : GKP) : M (list Vec * list string) :=
  if bool_decide (_init self ∈ cardinal_modes) then
    call psi := getitem states (_init self) in
    mret (replicate (batch_size self) psi,
          replicate (batch_size self) (_init self))
  else if String.eqb (_init self) "random" then
    call original :=
      sample (np_random_choice ["X+"; "Y+"; "Z+"] (batch_size self)) in
    call psi_batch := getitems states original in
    mret (psi_batch, original)
  else
    match episode self with
    | Some ep => mret (_state ep, _original ep)
    | None => mret ([], [])
    end.

(** [if self.max_episode_length: self.episode_length = randint(...)]: the
    test is Python truthiness, which [None] and [0] fail. *)
Definition resample_episode_length (self : GKP) : M Z :=
  match max_episode_length self with
  | None => mret (episode_length self)
  | Some m =>
      if (m =? 0)%Z then mret (episode_length self)
      else np_random_randint 1 m
  end.

(** The history of horizon [H] with actions [0] and measurements [1]. *)
Definition initial_history (self : GKP) : gmap string (list Tensor3) :=
  let history : gmap string Tensor3 :=
    (fun d : nat => replicate (batch_size self) [replicate d 0])
      <$> action_spec self in
  let history := <["msmt" := replicate (batch_size self) [[1]]]> history in
  (fun t => py_repeat [t] (self_H self)) <$> history.

Definition _reset (self : GKP) : M (GKP * TimeStep) :=
  call init := initial_states self in
  call T := resample_episode_length self in
  let self := with_episode_length self T in
  let history := initial_history self in
  call observation := make_observation (self_H self) history in
  let step := restart observation (batch_size self) in
  let ep :=
    mkEpisode init.1 init.2 false 0 (replicate (batch_size self) 0) ∅
              history step in
  mret (with_episode self ep, step).

(** *** [GKP._step] *)

Definition with_step (ep : Episode) (state : list Vec) (psi_cached : list Vec)
    (elapsed : Z) (ended : bool) : Episode :=
  mkEpisode state (_original ep) ended elapsed (_episode_return ep)
    (<["psi_cached" := psi_cached]> (info ep)) (history ep)
    (_current_time_step_ ep).

Definition _step (self : GKP) (action : Action) : M (GKP * TimeStep) :=
  match episode self with
  | None => mraise (AttributeError "_state")
  | Some ep =>
      call r := call_quantum_circuit self (_state ep) action in
      let obs := r.2 in
      let elapsed := (_elapsed_steps ep + 1)%Z in
      let ended := (elapsed =? episode_length self)%Z in
      let ep := with_step ep r.1.1 r.1.2 elapsed ended in
      call history := of_res (append_actions (history ep) action) in
      call msmt := getitem history "msmt" in
      let history := <["msmt" := msmt ++ [expand_dims1 obs]]> history in
      call observation := make_observation (self_H self) history in
      call reward := call_calculate_reward self ep obs action in
      let ret := zip_with Rplus (_episode_return ep) reward in
      let step :=
        if ended then termination observation reward
        else transition observation reward in
      let ep :=
        mkEpisode (_state ep) (_original ep) ended elapsed ret (info ep)
                  history step in
      mret (with_episode self ep, step)
  end.

(** [_reset] followed by one [_step] per action of a list. *)
Fixpoint steps (self : GKP) (actions : list Action) : M (GKP * list TimeStep) :=
  match actions with
  | [] => mret (self, [])
  | action :: rest =>
      call r := _step self action in
      call rs := steps r.1 rest in
      mret (rs.1, r.2 :: rs.2)
  end.

Definition reset_then_steps (self : GKP) (actions : list Action)
  : M (GKP * TimeStep * list TimeStep) :=
  call r := _reset self in
  call rs := steps r.1 actions in
  mret (rs.1, r.2, rs.2).

End Environment.

(* ================================================================== *)
(** * Part II: the vocabulary of the properties                         *)
(* ================================================================== *)

(** ** Unitary operators and complete two-outcome sets *)

Section CompleteSets.
Variable NH : nat.

Local Notation "A == B" := (mat_eq NH A B) (at level 70, no associativity).
Local Notation "A × B" := (matmul NH A B) (at level 40, left associativity).
Local Notation "A †" := (adjoint A) (at level 1, format "A †").
Local Abbreviation Id := qt_identity.

Definition unitary (U : Mat) : Prop := U† × U == Id /\ U × U† == Id.

(** [Kraus[0]† Kraus[0] + Kraus[1]† Kraus[1] = I] on one batch element. *)
Definition complete (K0 K1 : Mat) : Prop :=
  madd (K0† × K0) (K1† × K1) == Id.

(** The two chunks of [quantum_circuit_v3] on one batch element. *)
Definition chunk1_at (B E : Mat) : Mat :=
  madd (madd (msub (mscale Ci (B† × (E × B))) (mscale Ci (B† × (E† × B))))
             (B† × (E† × B†)))
       (B† × (E × B†)).
Definition chunk2_at (B E : Mat) : Mat :=
  madd (madd (msub (mscale Ci (B × (E† × B†))) (mscale Ci (B × (E × B†))))
             (B × (E† × B)))
       (B × (E × B)).

End CompleteSets.

(** ** The matrix exponential *)

(** What [tf.linalg.expm] satisfies on matrices of shape [[N,N]] in exact
    arithmetic: it depends on the entries of its argument only, sends [0]
    to the identity, commutes with the adjoint and turns the sum of two
    commuting matrices into a product. *)
Record expm_laws (N : nat) (expm : Mat -> Mat) : Prop := mk_expm_laws {
  expm_proper : forall A B, mat_eq N A B -> mat_eq N (expm A) (expm B);
  expm_zero : mat_eq N (expm mzero) qt_identity;
  expm_adjoint : forall A, mat_eq N (adjoint (expm A)) (expm (adjoint A));
  expm_add : forall A B,
    mat_eq N (matmul N A B) (matmul N B A) ->
    mat_eq N (expm (madd A B)) (matmul N (expm A) (expm B))
}.

(** The matrix exponential at truncation [1]: the scalar exponential of the
    only entry. *)
Definition expm_1x1 (A : Mat) : Mat := fun _ _ => Cexp (A O O).

(** ** The Kraus map of one time slice *)

(** The operator set in the words of the specification:
    [K0 = I - i H dt - 1/2 sum_k (c_k† c_k) dt] and
    [K_(k+1) = sqrt dt c_k]. *)
Definition sum_cdag_c (N : nat) (c_ops : list Mat) : Mat :=
  foldr (fun c acc => madd (matmul N (adjoint c) c) acc) mzero c_ops.

Definition K0_spec (N : nat) (I H : Mat) (c_ops : list Mat) (dt : R) : Mat :=
  fun i j =>
    (I i j - Ci * H i j * RtoC dt
     - RtoC (1 / 2) * sum_cdag_c N c_ops i j * RtoC dt)%C.

Definition Kk_spec (c : Mat) (dt : R) : Mat :=
  fun i j => (RtoC (sqrt dt) * c i j)%C.

(** ** Bernoulli sampling *)

#[export] Instance R_eq_dec : EqDecision R := Req_dec_T.

(** The probability of a whole vector of outcomes is the product of the
    probabilities of its entries: the entries are independent. *)
Fixpoint outcome_product (probs : list R) (os : list Z) : R :=
  match probs, os with
  | p :: ps, o :: os' =>
      (if (o =? 1)%Z then p else 1 - p) * outcome_product ps os'
  | _, _ => 1
  end.

(** ** The measurement *)

(** The weight [p_i] of a branch: the squared norm of [Kraus[i] psi]. *)
Definition branch_weight (N : nat) (K : Mat) (psi : Vec) : R :=
  norm2 N (matvec N K psi).

(** The probability of outcome [1] on each batch element, [p1/(p0+p1)]. *)
Fixpoint outcome1_probs (N : nat) (K0s K1s : list Mat) (psis : list Vec)
  : list R :=
  match K0s, K1s, psis with
  | K0 :: K0s', K1 :: K1s', psi :: psis' =>
      branch_weight N K1 psi
      / (branch_weight N K0 psi + branch_weight N K1 psi)
      :: outcome1_probs N K0s' K1s' psis'
  | _, _, _ => []
  end.

(** The outcomes as [measurement] returns them: [1 - 2*obs] as a float, of
    shape [[b,1]]. *)
Definition remap (os : list Z) : Tensor2 :=
  (fun o : Z => [IZR (1 - 2 * o)]) <$> os.

(** The state that [measurement] returns for sampled outcomes [os]. *)
Definition collapse (N : nat) (psi : list Vec) (Kraus : Kraus2)
    (os : list Z) : list Vec :=
  let mask := (fun o : Z => RtoC (IZR o)) <$> os in
  zip_with vadd
    (zip_with vscale ((fun m => Cone - m)%C <$> mask)
       (batch_dot_mv N (Kraus_0 Kraus) psi))
    (zip_with vscale mask (batch_dot_mv N (Kraus_1 Kraus) psi)).

(** The claim that [measurement] returns states of unit norm, within a
    tolerance. *)
Definition measurement_unit_norm (N : nat) (psi : list Vec) (Kraus : Kraus2)
    (tol : R) : Prop :=
  forall r, possible (measurement N psi Kraus) r ->
    Forall (fun v => Rabs (sqrt (norm2 N v) - 1) <= tol) r.1.

(** A state of unit norm at truncation [1], and a complete pair of
    measurement operators with two branches of weight [1/2]. *)
Definition cex_psi : list Vec := [fun _ => Cone].

Definition cex_Kraus : Kraus2 :=
  mkKraus2 [fun _ _ => mkC (1 / 2) (1 / 2)] [fun _ _ => mkC (1 / 2) (- (1 / 2))].

(** ** The composition of two translations *)

(** The modulus of the difference of two scalars. *)
Definition Cdist (x y : C) : R := sqrt (Cnorm2 (x - y)).

(** The two sides of the composition law on a batch:
    [translate(a) translate(b)] and
    [translate(a+b) exp(i Im(a conj(b)))]. *)
Definition composition_lhs (N batch_size : nat) (self : Operators)
    (expm : Mat -> Mat) (a b : list C) : list Mat :=
  batch_dot_mm N (translate batch_size self expm a)
                 (translate batch_size self expm b).

Definition composition_rhs (batch_size : nat) (self : Operators)
    (expm : Mat -> Mat) (a b : list C) : list Mat :=
  zip_with mscale
    (zip_with (fun x y => Cexp (Ci * RtoC (im (x * Cconj y)))) a b)
    (translate batch_size self expm (zip_with Cadd a b)).

(** The law within a tolerance on every entry of every batch element. *)
Definition composition_law (N batch_size : nat) (self : Operators)
    (expm : Mat -> Mat) (a b : list C) (tol : R) : Prop :=
  Forall2 (fun L Rh => forall i j, (i < N)%nat -> (j < N)%nat ->
                         Cdist (L i j) (Rh i j) <= tol)
    (composition_lhs N batch_size self expm a b)
    (composition_rhs batch_size self expm a b).

(** ** Configuration *)

(** A batch size that the setter accepts: an [int] that is positive. *)
Definition positive_int (size : pyval) : Prop :=
  exists z, size = VInt z /\ (0 < z)%Z.

(** ** Shapes through a circuit *)

Section CircuitParts.
Variables N b : nat.
Variable run : QuantumTrajectorySim -> list Vec -> dist (list Vec).

(** The part the three circuits share, after the operators are built. *)
Definition circuit_tail (sim_delay sim_round : QuantumTrajectorySim)
    (T_a : list Mat) (Kraus : Kraus2) (psi : list Vec)
  : M (list Vec * list Vec * Tensor2) :=
  call psi := sample (run sim_delay psi) in
  let psi_cached := batch_dot_mv N T_a psi in
  call psi := sample (run sim_round psi_cached) in
  let psi := normalize N psi in
  call r := sample (measurement N psi Kraus) in
  mret (r.1, psi_cached, r.2).

(** The keys a circuit reads, with the sizes of their rows. *)
Definition reads (action : Action) (k : string) (d : nat) : Prop :=
  exists t, action !! k = Some t /\ length t = b
            /\ Forall (fun row => length row = d) t.

(** The result of a circuit on a well-shaped batch and action. *)
Definition circuit_result (r : res (list Vec * list Vec * Tensor2)) : Prop :=
  exists psi_final psi_cached obs,
    r = Ok (psi_final, psi_cached, obs)
    /\ length psi_final = b /\ length psi_cached = b /\ length obs = b
    /\ Forall (fun row => length row = 1%nat) obs.

End CircuitParts.

(** ** The history and the observation *)

(** The entries of one batch element of a tensor of shape
    [[batch, time, dim]], and the row of one batch element of a tensor of
    shape [[batch, dim]]. *)
Definition slice (bi : nat) (t : Tensor3) : list (list R) :=
  default [] (t !! bi).

Definition row_at (bi : nat) (x : Tensor2) : list R := default [] (x !! bi).

(** The last [h] items of a history that was pre-filled with [h] copies of
    [prefill] and then received [entries], oldest first. *)
Definition window {A} (h : nat) (prefill : A) (entries : list A) : list A :=
  drop (length entries) (replicate h prefill ++ entries).

(** ** Well-formed environments and actions *)

(** The action spec that [create_specs] stores for a circuit. *)
Definition circuit_spec (c : circuit_fn) : gmap string nat :=
  let spec : gmap string nat :=
    <["phi" := 1%nat]> (<["beta" := 2%nat]> {["alpha" := 2%nat]}) in
  match c with
  | bound_quantum_circuit_v3 => <["epsilon" := 2%nat]> spec
  | _ => spec
  end.

(** The tables hold what the bound reward function looks up. *)
Definition reward_ready (code_map : gmap string C) (self : GKP) : Prop :=
  match calculate_reward self with
  | bound_reward_zero | bound_reward_stabilizers => True
  | bound_reward_pauli =>
      _init self <> "vac"
      /\ forall k, k ∈ ["X"; "Y"; "Z"] -> is_Some (code_map !! k)
  | bound_reward_mixed =>
      is_Some (code_map !! "S_q") /\ is_Some (code_map !! "S_p")
  end.

Record wf_env (states : gmap string Vec) (code_map : gmap string C)
    (self : GKP) : Prop := mk_wf_env {
  wf_H : (0 < self_H self)%Z;
  wf_init : _init self ∈ init_modes;
  wf_states : forall k, k ∈ cardinal_modes -> is_Some (states !! k);
  wf_max :
    match max_episode_length self with
    | None => True
    | Some m => m = 0%Z \/ (2 <= m)%Z
    end;
  wf_spec : action_spec self = circuit_spec (quantum_circuit self);
  wf_reward : reward_ready code_map self;
  (** The truncation has at least two levels: with one level the states
      that [define_stabilizer_code] squeezes are scalars, and the circuit's
      [batch_dot] raises on the batch of them. *)
  wf_N : (2 <= _N self)%Z
}.

(** An action has the components of the action spec, each with one row per
    batch element, of the size the spec gives. *)
Definition wf_action (self : GKP) (action : Action) : Prop :=
  (forall k, is_Some (action !! k) <-> is_Some (action_spec self !! k))
  /\ forall k t d,
       action !! k = Some t -> action_spec self !! k = Some d ->
       length t = batch_size self /\ Forall (fun row => length row = d) t.

(** The row a component is pre-filled with at reset, and what it has
    received since: the actions, or the measurement outcomes. *)
Definition prefill (self : GKP) (key : string) : option (list R) :=
  if decide (key = "msmt") then Some [1]
  else (fun d : nat => replicate d 0) <$> action_spec self !! key.

Definition entries (key : string) (acts : list Action) (ms : list Tensor2)
  : list Tensor2 :=
  if decide (key = "msmt") then ms
  else (fun a : Action => default [] (a !! key)) <$> acts.

(** The history, and the observation of horizon [H], after the actions
    [acts] with measurement outcomes [ms]. *)
Definition history_of (self : GKP) (acts : list Action) (ms : list Tensor2)
    (key : string) : option (list Tensor3) :=
  (fun p => py_repeat [replicate (batch_size self) [p]] (self_H self)
            ++ (expand_dims1 <$> entries key acts ms))
    <$> prefill self key.

Definition observation_of (self : GKP) (acts : list Action)
    (ms : list Tensor2) (obs : gmap string Tensor3) : Prop :=
  forall key,
    match prefill self key with
    | Some p =>
        exists t, obs !! key = Some t
          /\ length t = batch_size self
          /\ forall bi, (bi < batch_size self)%nat ->
               slice bi t
               = window (Z.to_nat (self_H self)) p
                        (row_at bi <$> entries key acts ms)
    | None => obs !! key = None
    end.

(** Measurement outcomes of a batch: one row [+1] or [-1] per element. *)
Definition outcomes (b : nat) (m : Tensor2) : Prop :=
  length m = b /\ Forall (fun row => length row = 1%nat) m.

(** ** Episodes *)

(** What holds of the episode attributes after [_reset] and one [_step]
    for each of the actions [acts], with measurement outcomes [ms]. *)
Record episode_inv (self : GKP) (acts : list Action) (ms : list Tensor2)
    (ep : Episode) : Prop := mk_episode_inv {
  inv_history : forall key, history ep !! key = history_of self acts ms key;
  inv_elapsed : _elapsed_steps ep = Z.of_nat (length acts);
  inv_ended :
    _episode_ended ep
    = if decide (acts = []) then false
      else (Z.of_nat (length acts) =? episode_length self)%Z;
  inv_state : length (_state ep) = batch_size self;
  inv_original :
    _init self <> "vac" ->
    Forall (fun l => String.substring 0 1 l ∈ ["X"; "Y"; "Z"]) (_original ep);
  inv_outcomes : Forall (outcomes (batch_size self)) ms;
  inv_outcomes_length : length ms = length acts;
  inv_observation :
    observation_of self acts ms (observation (_current_time_step_ ep));
  inv_step_type :
    step_type (_current_time_step_ ep)
    = if decide (acts = []) then FIRST
      else if (Z.of_nat (length acts) =? episode_length self)%Z then LAST
      else MID
}.

(** The time steps of a run: the [j]-th one is the current time step of an
    episode state that satisfies the invariant for the first [j+1]
    actions. *)
Definition run_of (self : GKP) (acts actions : list Action)
    (ms ms' : list Tensor2) (tss : list TimeStep) : Prop :=
  length ms' = length actions /\ length tss = length actions
  /\ forall j ts, tss !! j = Some ts ->
       exists epj,
         ts = _current_time_step_ epj
         /\ episode_inv self (acts ++ take (S j) actions)
                        (ms ++ take (S j) ms') epj.

(** ** The resampled episode length *)

(** The event that a reset returns with a given episode length. *)
Definition reset_length_is (L : Z) (r : res (GKP * TimeStep)) : bool :=
  match r with
  | Ok x => (episode_length x.1 =? L)%Z
  | Raise _ => false
  end.

(** The claim that, whenever [max_episode_length] is not [None], a reset
    leaves an episode length between [1] and [max_episode_length - 1]. *)
Definition resampled_below_max (states : gmap string Vec) (self : GKP)
  : Prop :=
  forall m, max_episode_length self = Some m ->
  forall r, possible (_reset states self) r ->
    exists env ts, r = Ok (env, ts) /\ (1 <= episode_length env <= m - 1)%Z.

(** ** Small environments *)

(** The matrix exponential on diagonal matrices: the exponential of each
    diagonal entry.  It meets [expm_laws] at every truncation. *)
Definition expm_diag (A : Mat) : Mat :=
  fun i j => if (i =? j)%nat then Cexp (A i i) else Czero.

(** The environment of
    [OscillatorGKP(N=2, H=2, batch_size=2, episode_length=3)], with the
    vacuum [qt.basis(N, 0)] as the state of each cardinal label, a
    simulator of zero time steps and, for the exponential, the one of
    diagonal matrices: with the action [0] every generator is [0]. *)
Definition demo_env : GKP :=
  mkGKP 2 2 None 3 2 "vac" "stabilizers" bound_reward_stabilizers "v1"
        bound_quantum_circuit_v1 (circuit_spec bound_quantum_circuit_v1)
        true None.

Definition demo_states : gmap string Vec :=
  list_to_map
    ((fun k => (k, (fun i : nat => if (i =? 0)%nat then Cone else Czero)))
       <$> cardinal_modes).

Definition demo_run (N : nat) (sim : QuantumTrajectorySim) (psi : list Vec)
  : dist (list Vec) := dret psi.

Definition demo_expm (N : nat) : Mat -> Mat := expm_diag.

Definition demo_action : Action :=
  <["phi" := [[0]; [0]]]>
    (<["beta" := [[0; 0]; [0; 0]]]> {["alpha" := [[0; 0]; [0; 0]]]}).

(** The environments of
    [OscillatorGKP(N=2, H=2, batch_size=2, episode_length=3,
    max_episode_length=m)] for [m = 4], [m = 0] and [m = 1]. *)
Definition resampling_env : GKP :=
  mkGKP 2 2 (Some 4%Z) 3 2 "vac" "stabilizers" bound_reward_stabilizers "v1"
        bound_quantum_circuit_v1 (circuit_spec bound_quantum_circuit_v1)
        true None.

Definition zero_max_env : GKP :=
  mkGKP 2 2 (Some 0%Z) 3 2 "vac" "stabilizers" bound_reward_stabilizers "v1"
        bound_quantum_circuit_v1 (circuit_spec bound_quantum_circuit_v1)
        true None.

Definition one_max_env : GKP :=
  mkGKP 2 2 (Some 1%Z) 3 2 "vac" "stabilizers" bound_reward_stabilizers "v1"
        bound_quantum_circuit_v1 (circuit_spec bound_quantum_circuit_v1)
        true None.

(** ** Configuration *)

(** The name a keyword argument is passed under: the keys of [kwargs] are
    distinct. *)
Definition kwarg_key (kw : kwarg) : string :=
  match kw with
  | kw_N _ => "N"
  | kw_H _ => "H"
  | kw_max_episode_length _ => "max_episode_length"
  | kw_episode_length _ => "episode_length"
  | kw_batch_size _ => "batch_size"
  | kw_init _ => "init"
  | kw_reward_mode _ => "reward_mode"
  | kw_quantum_circuit_type _ => "quantum_circuit_type"
  end.

#[export] Instance circuit_fn_eq_dec : EqDecision circuit_fn.
Proof. solve_decision. Defined.

(** The reward method a mode names. *)
Definition reward_of_mode (mode : string) : option reward_fn :=
  if String.eqb mode "zero" then Some bound_reward_zero
  else if String.eqb mode "stabilizers" then Some bound_reward_stabilizers
  else if String.eqb mode "pauli" then Some bound_reward_pauli
  else if String.eqb mode "mixed" then Some bound_reward_mixed
  else None.

(** The reward mode and the reward method agree, and the Pauli reward is
    not combined with the vacuum. *)
Definition reward_consistent (self : GKP) : Prop :=
  reward_of_mode (_reward_mode self) = Some (calculate_reward self)
  /\ (_reward_mode self = "pauli" -> _init self <> "vac").

(** The environment of [OscillatorGKP(init='X+', reward_mode='pauli')]. *)
Definition pauli_env : GKP :=
  mkGKP 100 1 None 20 50 "X+" "pauli" bound_reward_pauli "v1"
        bound_quantum_circuit_v1 (circuit_spec bound_quantum_circuit_v1)
        true None.

(** ** The operators *)

(** [A† = A] on a matrix of shape [[N,N]]. *)
Definition hermitian (N : nat) (A : Mat) : Prop := mat_eq N (adjoint A) A.

(** [A B - B A]. *)
Definition commutator (N : nat) (A B : Mat) : Mat :=
  msub (matmul N A B) (matmul N B A).

(** ** States *)

(** The expectation [<psi| A |psi>] of an operator. *)
Definition expectation (N : nat) (A : Mat) (psi : Vec) : C :=
  vdot N (vconj psi) (matvec N A psi).

(** ** Steps *)

(** The components of the action in the order a circuit reads them. *)
Definition circuit_keys (c : circuit_fn) : list string :=
  match c with
  | bound_quantum_circuit_v3 => ["alpha"; "beta"; "epsilon"; "phi"]
  | _ => ["alpha"; "beta"; "phi"]
  end.

(** The first of the keys that an action does not have. *)
Fixpoint first_missing (keys : list string) (action : Action)
  : option string :=
  match keys with
  | [] => None
  | k :: ks =>
      match action !! k with
      | None => Some k
      | Some _ => first_missing ks action
      end
  end.

(** The environment of
    [OscillatorGKP(N=2, batch_size=2, episode_length=3, init='X+',
    reward_mode='pauli')] and a table of the code's Pauli translations. *)
Definition pauli_run_env : GKP :=
  mkGKP 2 1 None 3 2 "X+" "pauli" bound_reward_pauli "v1"
        bound_quantum_circuit_v1 (circuit_spec bound_quantum_circuit_v1)
        true None.

Definition pauli_code_map : gmap string C :=
  list_to_map ((fun k : string => (k, Cone)) <$> ["X"; "Y"; "Z"]).

(* ================================================================== *)
(** * Part III: properties                                              *)
(* ================================================================== *)

(** ** Complex arithmetic *)

Lemma C_eq (a b : C) : re a = re b -> im a = im b -> a = b.
Proof. destruct a, b; simpl; intros -> ->; reflexivity. Qed.

Ltac Ceq := intros; apply C_eq; simpl; try ring; try lra.

Lemma C_ring : ring_theory Czero Cone Cadd Cmul Csub Copp eq.
Proof. constructor; Ceq. Qed.

Add Ring C_ring_inst : C_ring.

Lemma Cconj_add (a b : C) : Cconj (a + b) = (Cconj a + Cconj b)%C.
Proof. Ceq. Qed.
Lemma Cconj_sub (a b : C) : Cconj (a - b) = (Cconj a - Cconj b)%C.
Proof. Ceq. Qed.
Lemma Cconj_mul (a b : C) : Cconj (a * b) = (Cconj a * Cconj b)%C.
Proof. Ceq. Qed.
Lemma Cconj_conj (a : C) : Cconj (Cconj a) = a.
Proof. Ceq. Qed.
Lemma Cconj_RtoC (x : R) : Cconj (RtoC x) = RtoC x.
Proof. Ceq. Qed.
Lemma Cconj_zero : Cconj Czero = Czero.
Proof. Ceq. Qed.
Lemma Cconj_mul_self (a : C) : (Cconj a * a)%C = RtoC (Cnorm2 a).
Proof. unfold Cnorm2; Ceq. Qed.
Lemma Cnorm2_nonneg (a : C) : 0 <= Cnorm2 a.
Proof. unfold Cnorm2; nra. Qed.
Lemma Cnorm2_mul (a b : C) : Cnorm2 (a * b) = Cnorm2 a * Cnorm2 b.
Proof. unfold Cnorm2; simpl; ring. Qed.

(** A phase factor has modulus one. *)
Lemma Cnorm2_Cexp_Ci (x : R) : Cnorm2 (Cexp (Ci * RtoC x)) = 1.
Proof.
  unfold Cnorm2, Cexp; simpl.
  replace (0 * x - 1 * 0) with 0 by ring.
  replace (0 * 0 + 1 * x) with x by ring.
  rewrite exp_0.
  pose proof (sin2_cos2 x) as E; unfold Rsqr in E. lra.
Qed.

(** ** Finite sums *)

Lemma Csum_ext (n : nat) (f g : nat -> C) :
  (forall k, (k < n)%nat -> f k = g k) -> Csum n f = Csum n g.
Proof.
  induction n as [|n IH]; intros E; simpl; [reflexivity|].
  rewrite IH by (intros; apply E; lia). rewrite E by lia. reflexivity.
Qed.

Lemma Csum_zero (n : nat) : Csum n (fun _ => Czero) = Czero.
Proof. induction n as [|n IH]; simpl; [reflexivity|]. rewrite IH. ring. Qed.

Lemma Csum_add (n : nat) (f g : nat -> C) :
  Csum n (fun k => f k + g k)%C = (Csum n f + Csum n g)%C.
Proof. induction n as [|n IH]; simpl; [ring|]. rewrite IH. ring. Qed.

Lemma Csum_sub (n : nat) (f g : nat -> C) :
  Csum n (fun k => f k - g k)%C = (Csum n f - Csum n g)%C.
Proof. induction n as [|n IH]; simpl; [ring|]. rewrite IH. ring. Qed.

Lemma Csum_scale_l (n : nat) (c : C) (f : nat -> C) :
  Csum n (fun k => c * f k)%C = (c * Csum n f)%C.
Proof. induction n as [|n IH]; simpl; [ring|]. rewrite IH. ring. Qed.

Lemma Csum_scale_r (n : nat) (c : C) (f : nat -> C) :
  Csum n (fun k => f k * c)%C = (Csum n f * c)%C.
Proof. induction n as [|n IH]; simpl; [ring|]. rewrite IH. ring. Qed.

Lemma Csum_conj (n : nat) (f : nat -> C) :
  Cconj (Csum n f) = Csum n (fun k => Cconj (f k)).
Proof.
  induction n as [|n IH]; simpl; [apply Cconj_zero|].
  rewrite Cconj_add, IH. reflexivity.
Qed.

(** Exchange of two finite sums. *)
Lemma Csum_swap (n m : nat) (f : nat -> nat -> C) :
  Csum n (fun i => Csum m (fun j => f i j))
  = Csum m (fun j => Csum n (fun i => f i j)).
Proof.
  induction n as [|n IH]; simpl.
  - rewrite Csum_zero. reflexivity.
  - rewrite IH, <- Csum_add. reflexivity.
Qed.

(** A sum against a Kronecker delta picks one term. *)
Lemma Csum_delta_l (n i : nat) (f : nat -> C) :
  (i < n)%nat ->
  Csum n (fun k => (if (i =? k)%nat then Cone else Czero) * f k)%C = f i.
Proof.
  induction n as [|n IH]; intros Hi; [lia|]. simpl.
  destruct (Nat.eq_dec i n) as [->|Hne].
  - rewrite Nat.eqb_refl.
    rewrite (Csum_ext n _ (fun _ => Czero)).
    + rewrite Csum_zero. ring.
    + intros k Hk. replace (n =? k)%nat with false; [ring|].
      symmetry; apply Nat.eqb_neq; lia.
  - rewrite IH by lia.
    replace (i =? n)%nat with false; [ring|].
    symmetry; apply Nat.eqb_neq; lia.
Qed.

Lemma Csum_delta_r (n j : nat) (f : nat -> C) :
  (j < n)%nat ->
  Csum n (fun k => f k * (if (k =? j)%nat then Cone else Czero))%C = f j.
Proof.
  intros Hj. transitivity
    (Csum n (fun k => (if (j =? k)%nat then Cone else Czero) * f k)%C).
  - apply Csum_ext; intros k _. rewrite (Nat.eqb_sym k j). ring.
  - apply Csum_delta_l, Hj.
Qed.

(** ** Matrix algebra at a fixed shape *)

Section MatrixAlgebra.
Variable NH : nat.

Local Notation "A == B" := (mat_eq NH A B) (at level 70, no associativity).
Local Notation "A × B" := (matmul NH A B) (at level 40, left associativity).
Local Notation "A †" := (adjoint A) (at level 1, format "A †").
Local Abbreviation Id := qt_identity.

#[export] Instance mat_eq_equiv : Equivalence (mat_eq NH).
Proof.
  split.
  - intros A i j _ _; reflexivity.
  - intros A B E i j Hi Hj; symmetry; apply E; assumption.
  - intros A B D E1 E2 i j Hi Hj. rewrite E1, E2 by assumption. reflexivity.
Qed.

#[export] Instance madd_proper :
  Proper (mat_eq NH ==> mat_eq NH ==> mat_eq NH) madd.
Proof.
  intros A A' EA B B' EB i j Hi Hj. unfold madd.
  rewrite EA, EB by assumption. reflexivity.
Qed.

#[export] Instance msub_proper :
  Proper (mat_eq NH ==> mat_eq NH ==> mat_eq NH) msub.
Proof.
  intros A A' EA B B' EB i j Hi Hj. unfold msub.
  rewrite EA, EB by assumption. reflexivity.
Qed.

#[export] Instance mscale_proper :
  Proper (eq ==> mat_eq NH ==> mat_eq NH) mscale.
Proof.
  intros c c' -> A A' EA i j Hi Hj. unfold mscale.
  rewrite EA by assumption. reflexivity.
Qed.

#[export] Instance adjoint_proper : Proper (mat_eq NH ==> mat_eq NH) adjoint.
Proof.
  intros A A' EA i j Hi Hj. unfold adjoint.
  rewrite EA by assumption. reflexivity.
Qed.

#[export] Instance matmul_proper :
  Proper (mat_eq NH ==> mat_eq NH ==> mat_eq NH) (matmul NH).
Proof.
  intros A A' EA B B' EB i j Hi Hj. unfold matmul.
  apply Csum_ext; intros k Hk. rewrite EA, EB by assumption. reflexivity.
Qed.

Lemma matmul_assoc (A B D : Mat) : (A × B) × D == A × (B × D).
Proof.
  intros i j _ _. unfold matmul.
  transitivity
    (Csum NH (fun k => Csum NH (fun l => A i l * B l k * D k j)%C)).
  { apply Csum_ext; intros k _. rewrite <- Csum_scale_r. reflexivity. }
  rewrite Csum_swap. apply Csum_ext; intros l _.
  rewrite <- Csum_scale_l. apply Csum_ext; intros k _. ring.
Qed.

Lemma matmul_Id_l (A : Mat) : Id × A == A.
Proof.
  intros i j Hi _. unfold matmul, qt_identity.
  apply (Csum_delta_l NH i (fun k => A k j)), Hi.
Qed.

Lemma matmul_Id_r (A : Mat) : A × Id == A.
Proof.
  intros i j _ Hj. unfold matmul, qt_identity.
  apply (Csum_delta_r NH j (fun k => A i k)), Hj.
Qed.

Lemma matmul_madd_l (A B D : Mat) : A × madd B D == madd (A × B) (A × D).
Proof.
  intros i j _ _. unfold matmul, madd. rewrite <- Csum_add.
  apply Csum_ext; intros k _. ring.
Qed.

Lemma matmul_madd_r (A B D : Mat) : madd A B × D == madd (A × D) (B × D).
Proof.
  intros i j _ _. unfold matmul, madd. rewrite <- Csum_add.
  apply Csum_ext; intros k _. ring.
Qed.

Lemma matmul_msub_l (A B D : Mat) : A × msub B D == msub (A × B) (A × D).
Proof.
  intros i j _ _. unfold matmul, msub. rewrite <- Csum_sub.
  apply Csum_ext; intros k _. ring.
Qed.

Lemma matmul_msub_r (A B D : Mat) : msub A B × D == msub (A × D) (B × D).
Proof.
  intros i j _ _. unfold matmul, msub. rewrite <- Csum_sub.
  apply Csum_ext; intros k _. ring.
Qed.

Lemma matmul_mscale_l (c : C) (A B : Mat) :
  mscale c A × B == mscale c (A × B).
Proof.
  intros i j _ _. unfold matmul, mscale. rewrite <- Csum_scale_l.
  apply Csum_ext; intros k _. ring.
Qed.

Lemma matmul_mscale_r (c : C) (A B : Mat) :
  A × mscale c B == mscale c (A × B).
Proof.
  intros i j _ _. unfold matmul, mscale. rewrite <- Csum_scale_l.
  apply Csum_ext; intros k _. ring.
Qed.

Lemma adjoint_matmul (A B : Mat) : (A × B)† == B† × A†.
Proof.
  intros i j _ _. unfold adjoint, matmul. rewrite Csum_conj.
  apply Csum_ext; intros k _. rewrite Cconj_mul. ring.
Qed.

Lemma adjoint_madd (A B : Mat) : (madd A B)† == madd A† B†.
Proof. intros i j _ _. unfold adjoint, madd. apply Cconj_add. Qed.

Lemma adjoint_msub (A B : Mat) : (msub A B)† == msub A† B†.
Proof. intros i j _ _. unfold adjoint, msub. apply Cconj_sub. Qed.

Lemma adjoint_mscale (c : C) (A : Mat) : (mscale c A)† == mscale (Cconj c) A†.
Proof. intros i j _ _. unfold adjoint, mscale. apply Cconj_mul. Qed.

Lemma adjoint_adjoint (A : Mat) : A†† == A.
Proof. intros i j _ _. unfold adjoint. apply Cconj_conj. Qed.

Lemma adjoint_Id : Id† == Id.
Proof.
  intros i j _ _. unfold adjoint, qt_identity. rewrite (Nat.eqb_sym j i).
  destruct (i =? j)%nat; Ceq.
Qed.

End MatrixAlgebra.

(** ** Unitary operators and the completeness of a two-outcome set *)

Section Completeness.
Variable NH : nat.

Local Notation "A == B" := (mat_eq NH A B) (at level 70, no associativity).
Local Notation "A × B" := (matmul NH A B) (at level 40, left associativity).
Local Notation "A †" := (adjoint A) (at level 1, format "A †").
Local Abbreviation Id := qt_identity.
Local Abbreviation unitary := (unitary NH).
Local Abbreviation complete := (complete NH).
Local Abbreviation chunk1_at := (chunk1_at NH).
Local Abbreviation chunk2_at := (chunk2_at NH).

Lemma cancel_assoc (U V Z : Mat) : U × V == Id -> U × (V × Z) == Z.
Proof.
  intros E. rewrite <- matmul_assoc, E. apply matmul_Id_l.
Qed.

Lemma mscale_madd (c : C) (A B : Mat) :
  mscale c (madd A B) == madd (mscale c A) (mscale c B).
Proof. intros i j _ _. unfold mscale, madd. ring. Qed.

Lemma mscale_mscale (c d : C) (A : Mat) :
  mscale c (mscale d A) == mscale (c * d)%C A.
Proof. intros i j _ _. unfold mscale. ring. Qed.

Lemma mscale_one (A : Mat) : mscale Cone A == A.
Proof. intros i j _ _. unfold mscale. ring. Qed.

(** Push adjoints to the leaves, products below sums and scalars, and
    reassociate products to the right. *)
Ltac mexpand :=
  repeat first
    [ rewrite adjoint_matmul | rewrite adjoint_madd | rewrite adjoint_msub
    | rewrite adjoint_mscale | rewrite adjoint_adjoint
    | rewrite matmul_madd_l | rewrite matmul_madd_r
    | rewrite matmul_msub_l | rewrite matmul_msub_r
    | rewrite matmul_mscale_l | rewrite matmul_mscale_r
    | rewrite matmul_assoc ].

(** Compare two sums of scaled products entry by entry. *)
Ltac mentries :=
  let i := fresh "i" in
  let j := fresh "j" in
  intros i j ? ?; unfold madd, msub, mscale; apply C_eq; simpl; ring.

Arguments matmul : simpl never.
Arguments adjoint : simpl never.
Arguments qt_identity : simpl never.

(** The sum over the two outcomes of a pair [s (A ± p B)]. *)
Lemma plus_minus_sum (s p : C) (A B : Mat) :
  (Cconj p * p)%C = Cone ->
  madd ((mscale s (madd A (mscale p B)))† × mscale s (madd A (mscale p B)))
       ((mscale s (msub A (mscale p B)))† × mscale s (msub A (mscale p B)))
  == mscale (RtoC 2 * (Cconj s * s))%C (madd (A† × A) (B† × B)).
Proof.
  intros Hp. mexpand.
  intros i j _ _. unfold madd, msub, mscale.
  set (aa := (A† × A) i j). set (ab := (A† × B) i j).
  set (ba := (B† × A) i j). set (bb := (B† × B) i j).
  replace (RtoC 2 * (Cconj s * s) * (aa + bb))%C
    with (RtoC 2 * (Cconj s * s) * (aa + (Cconj p * p) * bb))%C
    by (rewrite Hp; ring).
  replace (RtoC 2) with (Cone + Cone)%C by (apply C_eq; simpl; lra).
  ring.
Qed.

Lemma complete_v1 (p : C) (T : Mat) :
  (Cconj p * p)%C = Cone -> unitary T ->
  complete (mscale (RtoC (1 / 2)) (madd Id (mscale p T)))
           (mscale (RtoC (1 / 2)) (msub Id (mscale p T))).
Proof.
  intros Hp [HT _]. unfold complete.
  rewrite plus_minus_sum by exact Hp.
  rewrite HT, adjoint_Id, matmul_Id_l.
  intros i j _ _. unfold madd, mscale. apply C_eq; simpl; lra.
Qed.

Lemma complete_v2 (p : C) (T : Mat) :
  (Cconj p * p)%C = Cone -> unitary T ->
  complete (mscale (RtoC (1 / 2)) (madd T† (mscale p T)))
           (mscale (RtoC (1 / 2)) (msub T† (mscale p T))).
Proof.
  intros Hp [HT1 HT2]. unfold complete.
  rewrite plus_minus_sum by exact Hp.
  rewrite adjoint_adjoint, HT1, HT2.
  intros i j _ _. unfold madd, mscale. apply C_eq; simpl; lra.
Qed.

Lemma chunks_sum (B E : Mat) :
  unitary B -> unitary E ->
  madd ((chunk1_at B E)† × chunk1_at B E) ((chunk2_at B E)† × chunk2_at B E)
  == mscale (RtoC 8) Id.
Proof.
  intros [HB1 HB2] [HE1 HE2]. unfold chunk1_at, chunk2_at.
  pose proof (fun Z => cancel_assoc _ _ Z HB1) as HB1'.
  pose proof (fun Z => cancel_assoc _ _ Z HB2) as HB2'.
  pose proof (fun Z => cancel_assoc _ _ Z HE1) as HE1'.
  pose proof (fun Z => cancel_assoc _ _ Z HE2) as HE2'.
  mexpand.
  repeat first
    [ rewrite HB1' | rewrite HB2' | rewrite HE1' | rewrite HE2'
    | rewrite HB1 | rewrite HB2 | rewrite HE1 | rewrite HE2 ].
  intros i j _ _. unfold madd, msub, mscale.
  apply C_eq; simpl; ring.
Qed.

Lemma complete_v3 (p : C) (B E : Mat) :
  (Cconj p * p)%C = Cone -> unitary B -> unitary E ->
  complete
    (mscale (RtoC (1 / 4)) (madd (chunk1_at B E) (mscale p (chunk2_at B E))))
    (mscale (RtoC (1 / 4)) (msub (chunk1_at B E) (mscale p (chunk2_at B E)))).
Proof.
  intros Hp HB HE. unfold complete.
  rewrite plus_minus_sum by exact Hp.
  rewrite chunks_sum by assumption.
  intros i j _ _. unfold madd, mscale. apply C_eq; simpl; lra.
Qed.

End Completeness.

(** ** The gates *)

(** Read an entry of a batched expression off the entries of its parts. *)
Ltac batch_entries :=
  repeat match goal with
  | H : (_ <$> _) !! _ = Some _ |- _ =>
      apply list_lookup_fmap_Some in H as (? & -> & H)
  | H : zip_with _ _ _ !! _ = Some _ |- _ =>
      let H' := fresh H in
      apply lookup_zip_with_Some in H as (? & ? & -> & H & H')
  | H : replicate _ _ !! _ = Some _ |- _ =>
      apply lookup_replicate in H as [-> ?]
  | H1 : ?l !! ?i = Some ?x, H2 : ?l !! ?i = Some ?y |- _ =>
      rewrite H1 in H2; injection H2 as <-
  end.

Section Gates.
Variables N batch_size : nat.
Variables K_osc T1_osc : R.
Variable expm : Mat -> Mat.
Hypothesis expm_exact : expm_laws N expm.

Local Notation "A == B" := (mat_eq N A B) (at level 70, no associativity).
Local Notation "A × B" := (matmul N A B) (at level 40, left associativity).
Local Notation "A †" := (adjoint A) (at level 1, format "A †").
Local Abbreviation self := (define_operators N K_osc T1_osc).

#[local] Instance expm_proper_inst : Proper (mat_eq N ==> mat_eq N) expm.
Proof using expm_exact. intros A B E. apply expm_exact, E. Qed.

(** [qt.create(N)] is the adjoint of [qt.destroy(N)]. *)
Lemma create_adjoint_destroy i j : qt_create i j = (qt_destroy†) i j.
Proof.
  unfold adjoint, qt_create, qt_destroy.
  destruct (i =? S j)%nat; Ceq.
Qed.

Lemma destroy_adjoint_create i j : qt_destroy i j = (qt_create†) i j.
Proof.
  unfold adjoint, qt_create, qt_destroy.
  destruct (j =? S i)%nat; Ceq.
Qed.

Lemma Cconj_div_real (z : C) (r : R) :
  Cconj (z / RtoC r) = (Cconj z / RtoC r)%C.
Proof. unfold Cdiv, Cinv. Ceq. Qed.

(** The generator of a translation is anti-Hermitian. *)
Lemma generator_antihermitian (z : C) :
  (generator self z)† == mscale (RtoC (-1)) (generator self z).
Proof.
  intros i j _ _. unfold generator, adjoint, msub, mscale; simpl.
  rewrite Cconj_sub, !Cconj_mul, !Cconj_div_real, Cconj_conj.
  rewrite (create_adjoint_destroy i j), (destroy_adjoint_create i j).
  unfold adjoint.
  replace (Cconj (qt_create j i)) with (qt_create j i)
    by (unfold qt_create; destruct (j =? S i)%nat; Ceq).
  replace (Cconj (qt_destroy j i)) with (qt_destroy j i)
    by (unfold qt_destroy; destruct (i =? S j)%nat; Ceq).
  apply C_eq; simpl; ring.
Qed.

(** The exponential of an anti-Hermitian matrix is unitary. *)
Lemma expm_unitary (G : Mat) :
  G† == mscale (RtoC (-1)) G -> unitary N (expm G).
Proof using expm_exact.
  intros HG.
  assert (Hz : madd (mscale (RtoC (-1)) G) G == mzero).
  { intros i j _ _. unfold madd, mscale, mzero. apply C_eq; simpl; ring. }
  assert (Hz' : madd G (mscale (RtoC (-1)) G) == mzero).
  { intros i j _ _. unfold madd, mscale, mzero. apply C_eq; simpl; ring. }
  assert (Hc : mscale (RtoC (-1)) G × G == G × mscale (RtoC (-1)) G).
  { rewrite matmul_mscale_l, matmul_mscale_r. reflexivity. }
  split.
  - rewrite (expm_adjoint N expm expm_exact), HG.
    rewrite <- (expm_add N expm expm_exact) by exact Hc.
    rewrite Hz. apply expm_exact.
  - rewrite (expm_adjoint N expm expm_exact), HG.
    rewrite <- (expm_add N expm expm_exact) by (symmetry; exact Hc).
    rewrite Hz'. apply expm_exact.
Qed.

Lemma translate_lookup (amplitude : list C) (i : nat) (T : Mat) :
  translate batch_size self expm amplitude !! i = Some T ->
  exists z, amplitude !! i = Some z /\ T = expm (generator self z).
Proof.
  unfold translate. intros HT.
  apply list_lookup_fmap_Some in HT as (G & -> & HG).
  apply lookup_zip_with_Some in HG as (G1 & G2 & -> & H1 & H2).
  apply lookup_zip_with_Some in H1 as (z1 & A1 & -> & Hz1 & HA1).
  apply lookup_zip_with_Some in H2 as (z2 & A2 & -> & Hz2 & HA2).
  apply list_lookup_fmap_Some in Hz1 as (z & -> & Hz).
  apply list_lookup_fmap_Some in Hz2 as (z' & -> & Hz').
  rewrite Hz in Hz'. injection Hz' as <-.
  apply lookup_replicate in HA1 as [-> _].
  apply lookup_replicate in HA2 as [-> _].
  exists z. split; [exact Hz | reflexivity].
Qed.

Lemma translate_length (amplitude : list C) :
  length amplitude = batch_size ->
  length (translate batch_size self expm amplitude) = batch_size.
Proof.
  intros E. unfold translate.
  rewrite length_fmap, !length_zip_with, !length_fmap, !length_replicate, E.
  lia.
Qed.

Lemma translate_unitary (amplitude : list C) (i : nat) (T : Mat) :
  translate batch_size self expm amplitude !! i = Some T -> unitary N T.
Proof using expm_exact.
  intros HT. apply translate_lookup in HT as (z & _ & ->).
  apply expm_unitary, generator_antihermitian.
Qed.

Lemma phase_lookup (phi : list R) (i : nat) (p : C) :
  phase phi !! i = Some p -> (Cconj p * p)%C = Cone.
Proof.
  unfold phase. intros Hp.
  apply list_lookup_fmap_Some in Hp as (x & -> & _).
  rewrite Cconj_mul_self, Cnorm2_Cexp_Ci. reflexivity.
Qed.

Lemma Kraus_v1_complete (beta : list C) (phi : Tensor2) :
  Forall2 (complete N)
    (Kraus_0 (Kraus_v1 batch_size self expm beta phi))
    (Kraus_1 (Kraus_v1 batch_size self expm beta phi)).
Proof using expm_exact.
  apply Forall2_same_length_lookup. split.
  - simpl. rewrite !length_fmap, !length_zip_with. reflexivity.
  - simpl. intros i K0 K1 H0 H1. batch_entries.
    apply complete_v1.
    + eapply phase_lookup; eassumption.
    + eapply translate_unitary; eassumption.
Qed.

Lemma Kraus_v2_complete (beta : list C) (phi : Tensor2) :
  Forall2 (complete N)
    (Kraus_0 (Kraus_v2 batch_size self expm beta phi))
    (Kraus_1 (Kraus_v2 batch_size self expm beta phi)).
Proof using expm_exact.
  apply Forall2_same_length_lookup. split.
  - simpl. rewrite !length_fmap, !length_zip_with. reflexivity.
  - simpl. intros i K0 K1 H0 H1. batch_entries.
    apply complete_v2.
    + eapply phase_lookup; eassumption.
    + eapply translate_unitary; eassumption.
Qed.

Lemma chunk1_lookup (Tpb Tpe : list Mat) (i : nat) (c : Mat) :
  chunk1 N Tpb (adjoint <$> Tpb) Tpe (adjoint <$> Tpe) !! i = Some c ->
  exists B E, Tpb !! i = Some B /\ Tpe !! i = Some E /\ c = chunk1_at N B E.
Proof.
  unfold chunk1, batch_dot_mm. intros H. batch_entries.
  eexists _, _. split; [eassumption|]. split; [eassumption|]. reflexivity.
Qed.

Lemma chunk2_lookup (Tpb Tpe : list Mat) (i : nat) (c : Mat) :
  chunk2 N Tpb (adjoint <$> Tpb) Tpe (adjoint <$> Tpe) !! i = Some c ->
  exists B E, Tpb !! i = Some B /\ Tpe !! i = Some E /\ c = chunk2_at N B E.
Proof.
  unfold chunk2, batch_dot_mm. intros H. batch_entries.
  eexists _, _. split; [eassumption|]. split; [eassumption|]. reflexivity.
Qed.

Lemma Kraus_v3_complete (beta epsilon : list C) (phi : Tensor2) :
  Forall2 (complete N)
    (Kraus_0 (Kraus_v3 N batch_size self expm beta epsilon phi))
    (Kraus_1 (Kraus_v3 N batch_size self expm beta epsilon phi)).
Proof using expm_exact.
  apply Forall2_same_length_lookup. split.
  - simpl. rewrite !length_fmap, !length_zip_with. reflexivity.
  - simpl. intros i K0 K1 H0 H1.
    apply list_lookup_fmap_Some in H0 as (? & -> & H0).
    apply list_lookup_fmap_Some in H1 as (? & -> & H1).
    apply lookup_zip_with_Some in H0 as (c1 & ? & -> & Hc1 & H0).
    apply lookup_zip_with_Some in H0 as (p & c2 & -> & Hp & Hc2).
    apply lookup_zip_with_Some in H1 as (c1' & ? & -> & Hc1' & H1).
    apply lookup_zip_with_Some in H1 as (p' & c2' & -> & Hp' & Hc2').
    rewrite Hc1 in Hc1'; injection Hc1' as <-.
    rewrite Hc2 in Hc2'; injection Hc2' as <-.
    rewrite Hp in Hp'; injection Hp' as <-.
    apply chunk1_lookup in Hc1 as (B & E & HB & HE & ->).
    apply chunk2_lookup in Hc2 as (B' & E' & HB' & HE' & ->).
    rewrite HB in HB'; injection HB' as <-.
    rewrite HE in HE'; injection HE' as <-.
    apply complete_v3.
    + eapply phase_lookup; eassumption.
    + eapply translate_unitary; eassumption.
    + eapply translate_unitary; eassumption.
Qed.

Lemma Kraus_v1_length (beta : list C) (phi : Tensor2) :
  length beta = batch_size -> length (concat phi) = batch_size ->
  length (Kraus_0 (Kraus_v1 batch_size self expm beta phi)) = batch_size
  /\ length (Kraus_1 (Kraus_v1 batch_size self expm beta phi)) = batch_size.
Proof.
  intros Hb Hp. simpl. unfold phase.
  rewrite !length_fmap, !length_zip_with, length_fmap, length_replicate.
  rewrite translate_length, Hp by exact Hb. lia.
Qed.

Lemma Kraus_v2_length (beta : list C) (phi : Tensor2) :
  length beta = batch_size -> length (concat phi) = batch_size ->
  length (Kraus_0 (Kraus_v2 batch_size self expm beta phi)) = batch_size
  /\ length (Kraus_1 (Kraus_v2 batch_size self expm beta phi)) = batch_size.
Proof.
  intros Hb Hp. simpl. unfold phase.
  rewrite !length_fmap, !length_zip_with, !length_fmap.
  rewrite translate_length, Hp by (rewrite length_fmap; exact Hb). lia.
Qed.

Lemma Kraus_v3_length (beta epsilon : list C) (phi : Tensor2) :
  length beta = batch_size -> length epsilon = batch_size ->
  length (concat phi) = batch_size ->
  length (Kraus_0 (Kraus_v3 N batch_size self expm beta epsilon phi))
  = batch_size
  /\ length (Kraus_1 (Kraus_v3 N batch_size self expm beta epsilon phi))
     = batch_size.
Proof.
  intros Hb He Hp. simpl. unfold phase, chunk1, chunk2, batch_dot_mm.
  rewrite !length_fmap, !length_zip_with, !length_fmap.
  repeat rewrite ?length_zip_with, ?length_fmap.
  rewrite !translate_length, Hp by (rewrite length_fmap; assumption). lia.
Qed.

End Gates.

Lemma Cexp_add (a b : C) : Cexp (a + b) = (Cexp a * Cexp b)%C.
Proof.
  unfold Cexp. apply C_eq; simpl; rewrite exp_plus, ?cos_plus, ?sin_plus; ring.
Qed.

Lemma Cexp_conj (a : C) : Cconj (Cexp a) = Cexp (Cconj a).
Proof. unfold Cexp. apply C_eq; simpl; rewrite ?cos_neg, ?sin_neg; ring. Qed.

Lemma Cexp_zero : Cexp Czero = Cone.
Proof. unfold Cexp. apply C_eq; simpl; rewrite exp_0, ?cos_0, ?sin_0; ring. Qed.

Lemma expm_1x1_laws : expm_laws 1 expm_1x1.
Proof.
  split.
  - intros A B E i j _ _. unfold expm_1x1. rewrite E by lia. reflexivity.
  - intros i j Hi Hj. unfold expm_1x1, mzero, qt_identity.
    replace i with O by lia. replace j with O by lia. apply Cexp_zero.
  - intros A i j _ _. unfold expm_1x1, adjoint. apply Cexp_conj.
  - intros A B _ i j _ _. unfold expm_1x1, matmul, madd. simpl.
    rewrite Cexp_add. ring.
Qed.

(** C2.  For each circuit variant and every batch of action parameters
    [beta], [phi] (and [epsilon]), the two measurement operators the variant
    builds satisfy [Kraus[0]† Kraus[0] + Kraus[1]† Kraus[1] = I] on every
    batch element, exactly so when the matrix exponential is exact. *)
Theorem Kraus_completeness (N batch_size : nat) (K_osc T1_osc : R)
    (expm : Mat -> Mat) (beta epsilon phi : Tensor2) :
  expm_laws N expm ->
  length beta = batch_size ->
  length epsilon = batch_size ->
  length (concat phi) = batch_size ->
  let self := define_operators N K_osc T1_osc in
  forall K : Kraus2,
    K ∈ [Kraus_v1 batch_size self expm (vec_to_complex beta) phi;
         Kraus_v2 batch_size self expm (vec_to_complex beta) phi;
         Kraus_v3 N batch_size self expm (vec_to_complex beta)
                  (vec_to_complex epsilon) phi] ->
    length (Kraus_0 K) = batch_size
    /\ length (Kraus_1 K) = batch_size
    /\ Forall2 (complete N) (Kraus_0 K) (Kraus_1 K).
Proof.
  intros Hexp Hb He Hp self K HK.
  assert (Hb' : length (vec_to_complex beta) = batch_size)
    by (unfold vec_to_complex; rewrite length_fmap; exact Hb).
  assert (He' : length (vec_to_complex epsilon) = batch_size)
    by (unfold vec_to_complex; rewrite length_fmap; exact He).
  apply elem_of_cons in HK as [->|HK];
    [|apply elem_of_cons in HK as [->|HK];
      [|apply elem_of_cons in HK as [->|HK];
        [|apply elem_of_nil in HK; destruct HK]]].
  - destruct (Kraus_v1_length N batch_size K_osc T1_osc expm _ phi Hb' Hp).
    repeat split; try assumption. apply Kraus_v1_complete, Hexp.
  - destruct (Kraus_v2_length N batch_size K_osc T1_osc expm _ phi Hb' Hp).
    repeat split; try assumption. apply Kraus_v2_complete, Hexp.
  - destruct (Kraus_v3_length N batch_size K_osc T1_osc expm _ _ phi
                Hb' He' Hp).
    repeat split; try assumption. apply Kraus_v3_complete, Hexp.
Qed.

Lemma Kraus_completeness_witness :
  let self := define_operators 1 1 1 in
  let beta := [[1; 2]; [0; -1]] in
  let epsilon := [[0; 1]; [3; 0]] in
  let phi := [[0]; [PI / 2]] in
  expm_laws 1 expm_1x1
  /\ forall K : Kraus2,
       K ∈ [Kraus_v1 2 self expm_1x1 (vec_to_complex beta) phi;
            Kraus_v2 2 self expm_1x1 (vec_to_complex beta) phi;
            Kraus_v3 1 2 self expm_1x1 (vec_to_complex beta)
                     (vec_to_complex epsilon) phi] ->
       length (Kraus_0 K) = 2%nat
       /\ length (Kraus_1 K) = 2%nat
       /\ Forall2 (complete 1) (Kraus_0 K) (Kraus_1 K).
Proof.
  intros self beta epsilon phi. split; [exact expm_1x1_laws|].
  apply (Kraus_completeness 1 2 1 1 expm_1x1 beta epsilon phi);
    [exact expm_1x1_laws | reflexivity | reflexivity | reflexivity].
Defined.

(** ** The Kraus map of one time slice *)

Lemma Kraus_loop_foldl (N : nat) (dt : R) (cs : list Mat) :
  forall (s : nat) (Kr : gmap nat Mat) (A : Mat),
    Kr !! O = Some A ->
    let Rs := foldl (Kraus_loop N dt) Kr (zip (seq s (length cs)) cs) in
    (exists A', Rs !! O = Some A'
       /\ forall i j,
            A' i j
            = (A i j - RtoC (1 / 2) * sum_cdag_c N cs i j * RtoC dt)%C)
    /\ (forall k c, cs !! k = Some c ->
          Rs !! S (s + k) = Some (mscale (RtoC (sqrt dt)) c))
    /\ (forall j, j <> O -> (j <= s)%nat \/ (s + length cs < j)%nat ->
          Rs !! j = Kr !! j).
Proof.
  induction cs as [|c cs IH]; intros s Kr A HA; simpl.
  - split; [|split].
    + exists A. split; [exact HA|]. intros i j. unfold mzero. ring.
    + intros k c' Hk. discriminate.
    + reflexivity.
  - set (Kr1 := Kraus_loop N dt Kr (s, c)).
    assert (HA1 : Kr1 !! O
                  = Some (msub A (mscale (RtoC dt)
                            (mscale (RtoC (1 / 2))
                               (matmul N (adjoint c) c))))).
    { unfold Kr1, Kraus_loop. simpl.
      rewrite lookup_alter_eq, lookup_insert_ne by lia.
      rewrite HA. reflexivity. }
    destruct (IH (S s) Kr1 _ HA1) as ((A' & HA' & EA') & Hk & Hother).
    split; [|split].
    + exists A'. split; [exact HA'|].
      intros i j. rewrite EA'. unfold msub, mscale, madd. ring.
    + intros [|k] c' Hc'; simpl in Hc'.
      * injection Hc' as <-. replace (s + 0)%nat with s by lia.
        rewrite Hother by lia.
        unfold Kr1, Kraus_loop. simpl.
        rewrite lookup_alter_ne, lookup_insert_eq by lia. reflexivity.
      * replace (s + S k)%nat with (S s + k)%nat by lia. apply Hk, Hc'.
    + intros j Hj0 Hj. rewrite Hother by lia.
      unfold Kr1, Kraus_loop. simpl.
      rewrite lookup_alter_ne, lookup_insert_ne by lia. reflexivity.
Qed.

(** C3.  [init_monte_carlo_sim] builds exactly
    [K0 = I - i H dt - 1/2 sum_k (c_k† c_k) dt] under the key [0] and
    [sqrt dt c_k] under the key [k+1] for each collapse operator, nothing
    else, each replicated [batch_size] times along the batch axis, and hands
    that dictionary to both trajectory simulators. *)
Theorem init_monte_carlo_sim_Kraus (N batch_size : nat) (self : Operators)
    (dt t_gate t_read t_delay : R) :
  let sims := init_monte_carlo_sim N batch_size self dt t_gate t_read t_delay in
  let Kraus := sim_Kraus sims.1 in
  sim_Kraus sims.2 = Kraus
  /\ (exists K0,
        Kraus !! O = Some (replicate batch_size K0)
        /\ forall i j,
             K0 i j
             = K0_spec N (self_I self) (self_Hamiltonian self)
                       (self_c_ops self) dt i j)
  /\ (forall k c, self_c_ops self !! k = Some c ->
        exists Kk,
          Kraus !! S k = Some (replicate batch_size Kk)
          /\ forall i j, Kk i j = Kk_spec c dt i j)
  /\ (forall k, (length (self_c_ops self) < k)%nat -> Kraus !! k = None).
Proof.
  intros sims Kraus. subst sims Kraus.
  unfold init_monte_carlo_sim, Kraus_tf, Kraus_ops. cbn [fst snd sim_Kraus].
  set (Kr := ({[ O := msub (self_I self)
                       (mscale (RtoC dt) (mscale Ci (self_Hamiltonian self))) ]}
              : gmap nat Mat)).
  assert (HKr : Kr !! O = Some (msub (self_I self)
                  (mscale (RtoC dt) (mscale Ci (self_Hamiltonian self)))))
    by apply lookup_singleton_eq.
  destruct (Kraus_loop_foldl N dt (self_c_ops self) O Kr _ HKr)
    as ((A' & HA' & EA') & Hk & Hother).
  unfold Mat in *.
  split; [reflexivity|]. split; [|split].
  - exists A'. rewrite lookup_fmap, HA'. split; [reflexivity|].
    intros i j. rewrite EA'. unfold K0_spec, msub, mscale. ring.
  - intros k c Hc. exists (mscale (RtoC (sqrt dt)) c).
    specialize (Hk k c Hc). rewrite Nat.add_0_l in Hk.
    rewrite lookup_fmap, Hk. split; reflexivity.
  - intros k Hlt. rewrite lookup_fmap, Hother by lia.
    unfold Kr. rewrite lookup_singleton_ne by lia. reflexivity.
Qed.

(** ** Distributions *)

Lemma dbind_cons {A B} (p : R) (x : A) (d : dist A) (f : A -> dist B) :
  dbind ((p, x) :: d) f = dscale p (f x) ++ dbind d f.
Proof. reflexivity. Qed.

Lemma possible_dret {A} (x y : A) : possible (dret x) y <-> y = x.
Proof.
  unfold possible, dret. split.
  - intros (p & Hp). apply elem_of_cons in Hp as [Hp|Hp].
    + injection Hp; auto.
    + apply elem_of_nil in Hp. destruct Hp.
  - intros ->. exists 1. apply elem_of_cons. left. reflexivity.
Qed.

Lemma possible_app {A} (d1 d2 : dist A) (y : A) :
  possible (d1 ++ d2) y <-> possible d1 y \/ possible d2 y.
Proof.
  unfold possible. split.
  - intros (p & Hp). apply elem_of_app in Hp as [Hp|Hp]; eauto.
  - intros [(p & Hp)|(p & Hp)]; exists p; apply elem_of_app; auto.
Qed.

Lemma possible_cons {A} (p : R) (x : A) (d : dist A) (y : A) :
  possible ((p, x) :: d) y <-> y = x \/ possible d y.
Proof.
  unfold possible. split.
  - intros (q & Hq). apply elem_of_cons in Hq as [Hq|Hq].
    + left. injection Hq; auto.
    + right. eauto.
  - intros [->|(q & Hq)].
    + exists p. apply elem_of_cons. left. reflexivity.
    + exists q. apply elem_of_cons. right. exact Hq.
Qed.

Lemma possible_nil {A} (y : A) : ~ possible ([] : dist A) y.
Proof. intros (p & Hp). apply elem_of_nil in Hp. exact Hp. Qed.

Lemma possible_dscale {A} (p : R) (d : dist A) (y : A) :
  possible (dscale p d) y <-> possible d y.
Proof.
  unfold possible, dscale. split.
  - intros (q & Hq). apply list_elem_of_fmap in Hq as ([q' y'] & E & Hq).
    simpl in E. injection E as -> ->. eauto.
  - intros (q & Hq). exists (p * q).
    apply list_elem_of_fmap. exists (q, y). split; [reflexivity|exact Hq].
Qed.

Lemma possible_dbind {A B} (d : dist A) (f : A -> dist B) (y : B) :
  possible (dbind d f) y <-> exists x, possible d x /\ possible (f x) y.
Proof.
  induction d as [|[p x] d IH].
  - split.
    + intros H. apply possible_nil in H. destruct H.
    + intros (x & H & _). apply possible_nil in H. destruct H.
  - rewrite dbind_cons, possible_app, possible_dscale, IH. split.
    + intros [H|(x' & H1 & H2)].
      * exists x. split; [apply possible_cons; auto | exact H].
      * exists x'. split; [apply possible_cons; auto | exact H2].
    + intros (x' & H1 & H2). apply possible_cons in H1 as [->|H1]; eauto.
Qed.

Lemma Pr_nil {A} (E : A -> bool) : Pr [] E = 0.
Proof. reflexivity. Qed.

Lemma Pr_cons {A} (p : R) (x : A) (d : dist A) (E : A -> bool) :
  Pr ((p, x) :: d) E = (if E x then p else 0) + Pr d E.
Proof. unfold Pr; simpl. destruct (E x); ring. Qed.

Lemma Pr_app {A} (d1 d2 : dist A) (E : A -> bool) :
  Pr (d1 ++ d2) E = Pr d1 E + Pr d2 E.
Proof.
  induction d1 as [|[p x] d1 IH]; cbn [app].
  - rewrite Pr_nil. ring.
  - rewrite !Pr_cons, IH. ring.
Qed.

Lemma Pr_dscale {A} (p : R) (d : dist A) (E : A -> bool) :
  Pr (dscale p d) E = p * Pr d E.
Proof.
  induction d as [|[q x] d IH].
  - unfold dscale. rewrite fmap_nil, Pr_nil. ring.
  - unfold dscale in *. rewrite fmap_cons, !Pr_cons, IH. cbn [fst snd].
    destruct (E x); ring.
Qed.

Lemma Pr_dret {A} (x : A) (E : A -> bool) :
  Pr (dret x) E = if E x then 1 else 0.
Proof. unfold dret. rewrite Pr_cons, Pr_nil. destruct (E x); ring. Qed.

Lemma Pr_dbind_cons {A B} (p : R) (x : A) (d : dist A) (f : A -> dist B)
    (E : B -> bool) :
  Pr (dbind ((p, x) :: d) f) E = p * Pr (f x) E + Pr (dbind d f) E.
Proof. rewrite dbind_cons, Pr_app, Pr_dscale. reflexivity. Qed.

Lemma Pr_dbind_nil {A B} (f : A -> dist B) (E : B -> bool) :
  Pr (dbind [] f) E = 0.
Proof. reflexivity. Qed.

(** Events that agree on the possible outcomes have the same probability. *)
Lemma Pr_ext {A} (d : dist A) (E E' : A -> bool) :
  (forall x, possible d x -> E x = E' x) -> Pr d E = Pr d E'.
Proof.
  induction d as [|[p x] d IH]; intros HE; [reflexivity|].
  rewrite !Pr_cons, IH.
  - rewrite (HE x) by (apply possible_cons; auto). reflexivity.
  - intros y Hy. apply HE, possible_cons. auto.
Qed.

Lemma Pr_false {A} (d : dist A) : Pr d (fun _ => false) = 0.
Proof.
  induction d as [|[p x] d IH]; [reflexivity|]. rewrite Pr_cons, IH. ring.
Qed.

Lemma Pr_dbind_ext {A B} (d : dist A) (f g : A -> dist B) (E E' : B -> bool) :
  (forall x, possible d x -> Pr (f x) E = Pr (g x) E') ->
  Pr (dbind d f) E = Pr (dbind d g) E'.
Proof.
  induction d as [|[p x] d IH]; intros H; [reflexivity|].
  rewrite !Pr_dbind_cons, IH.
  - rewrite (H x) by (apply possible_cons; auto). reflexivity.
  - intros y Hy. apply H, possible_cons. auto.
Qed.

(** The probability of an event of a bound computation that does not depend
    on the first draw. *)
Lemma Pr_dbind_const {A B} (d : dist A) (f : A -> dist B) (E : B -> bool)
    (q : R) :
  (forall x, possible d x -> Pr (f x) E = q) ->
  Pr (dbind d f) E = mass d * q.
Proof.
  induction d as [|[p x] d IH]; intros H.
  - unfold mass. rewrite Pr_dbind_nil, Pr_nil. ring.
  - unfold mass in *. rewrite Pr_dbind_cons, Pr_cons, IH.
    + rewrite (H x) by (apply possible_cons; auto). ring.
    + intros y Hy. apply H, possible_cons. auto.
Qed.

Lemma mass_dret {A} (x : A) : mass (dret x) = 1.
Proof. unfold mass. apply Pr_dret. Qed.

Lemma mass_dbind {A B} (d : dist A) (f : A -> dist B) :
  (forall x, possible d x -> mass (f x) = 1) ->
  mass (dbind d f) = mass d.
Proof.
  intros H. unfold mass at 1. rewrite (Pr_dbind_const d f _ 1).
  - ring.
  - exact H.
Qed.

(** ** Computations that may raise *)

Lemma possible_mret {A} (x : A) (r : res A) :
  possible (mret x) r <-> r = Ok x.
Proof. apply possible_dret. Qed.

Lemma possible_mraise {A} (e : exn) (r : res A) :
  possible (mraise e) r <-> r = Raise e.
Proof. apply possible_dret. Qed.

Lemma possible_mbind {A B} (m : M A) (f : A -> M B) (r : res B) :
  possible (mbind m f) r
  <-> (exists x, possible m (Ok x) /\ possible (f x) r)
      \/ (exists e, possible m (Raise e) /\ r = Raise e).
Proof.
  unfold mbind. rewrite possible_dbind. split.
  - intros ([x|e] & H1 & H2).
    + left. eauto.
    + right. exists e. split; [exact H1|]. apply possible_mraise, H2.
  - intros [(x & H1 & H2)|(e & H1 & ->)].
    + exists (Ok x). auto.
    + exists (Raise e). split; [exact H1|]. apply possible_mraise. reflexivity.
Qed.

Lemma possible_sample {A} (d : dist A) (r : res A) :
  possible (sample d) r <-> exists x, r = Ok x /\ possible d x.
Proof.
  unfold possible, sample. split.
  - intros (p & Hp). apply list_elem_of_fmap in Hp as ([q x] & E & Hq).
    simpl in E. injection E as -> ->. eauto.
  - intros (x & -> & (p & Hp)). exists p.
    apply list_elem_of_fmap. exists (p, x). split; [reflexivity|exact Hp].
Qed.

Lemma possible_getitem {A} (d : gmap string A) (k : string) (r : res A) :
  possible (getitem d k) r
  <-> match d !! k with Some x => r = Ok x | None => r = Raise (KeyError k) end.
Proof.
  unfold getitem. destruct (d !! k).
  - apply possible_mret.
  - apply possible_mraise.
Qed.

Lemma possible_of_res {A} (r r' : res A) : possible (of_res r) r' <-> r' = r.
Proof. apply possible_dret. Qed.

(** ** Bernoulli sampling *)

Lemma Pr_dbind_dret {A B} (d : dist A) (g : A -> B) (E : B -> bool) :
  Pr (dbind d (fun x => dret (g x))) E = Pr d (fun x => E (g x)).
Proof.
  induction d as [|[p x] d IH]; [reflexivity|].
  rewrite Pr_dbind_cons, Pr_cons, IH, Pr_dret. destruct (E (g x)); ring.
Qed.

Lemma Pr_Bernoulli (p : R) (E : Z -> bool) :
  Pr (Bernoulli p) E
  = (if E 0%Z then 1 - p else 0) + (if E 1%Z then p else 0).
Proof. unfold Bernoulli. rewrite !Pr_cons, Pr_nil. ring. Qed.

Lemma Pr_Bernoulli_sample_cons (p : R) (ps : list R) (E : list Z -> bool) :
  Pr (Bernoulli_sample (p :: ps)) E
  = (1 - p) * Pr (Bernoulli_sample ps) (fun os => E (0%Z :: os))
    + p * Pr (Bernoulli_sample ps) (fun os => E (1%Z :: os)).
Proof.
  cbn [Bernoulli_sample]. unfold Bernoulli.
  rewrite !Pr_dbind_cons, Pr_dbind_nil, !Pr_dbind_dret. ring.
Qed.

Lemma mass_Bernoulli_sample (probs : list R) :
  mass (Bernoulli_sample probs) = 1.
Proof.
  induction probs as [|p ps IH].
  - apply mass_dret.
  - unfold mass in *. rewrite Pr_Bernoulli_sample_cons, IH. ring.
Qed.

Lemma possible_Bernoulli_sample (probs : list R) (os : list Z) :
  possible (Bernoulli_sample probs) os
  <-> Forall2 (fun _ o => o = 0%Z \/ o = 1%Z) probs os.
Proof.
  revert os. induction probs as [|p ps IH]; intros os; cbn [Bernoulli_sample].
  - rewrite possible_dret. split.
    + intros ->. constructor.
    + intros H. inversion H. reflexivity.
  - rewrite possible_dbind. split.
    + intros (o & Ho & H). apply possible_dbind in H as (os' & Hos' & H).
      apply possible_dret in H as ->. constructor.
      * unfold Bernoulli in Ho.
        apply possible_cons in Ho as [->|Ho]; [auto|].
        apply possible_cons in Ho as [->|Ho]; [auto|].
        apply possible_nil in Ho. destruct Ho.
      * apply IH, Hos'.
    + intros H. inversion H as [|p' o ps' os' Ho Hos']; subst.
      exists o. split.
      * unfold Bernoulli. destruct Ho as [->| ->].
        -- apply possible_cons. auto.
        -- apply possible_cons. right. apply possible_cons. auto.
      * apply possible_dbind. exists os'. split; [apply IH, Hos'|].
        apply possible_dret. reflexivity.
Qed.

(** Each entry is [1] with the probability given for it. *)
Lemma Pr_Bernoulli_sample_entry (probs : list R) (b : nat) (q : R) :
  probs !! b = Some q ->
  Pr (Bernoulli_sample probs) (fun os => bool_decide (os !! b = Some 1%Z)) = q
  /\ Pr (Bernoulli_sample probs) (fun os => bool_decide (os !! b = Some 0%Z))
     = 1 - q.
Proof.
  revert b. induction probs as [|p ps IH]; intros b Hb; [discriminate|].
  rewrite !Pr_Bernoulli_sample_cons. destruct b as [|b]; simpl in Hb.
  - injection Hb as ->. cbn [lookup list_lookup].
    rewrite !(bool_decide_eq_false_2 (Some 0%Z = Some 1%Z)) by discriminate.
    rewrite !(bool_decide_eq_false_2 (Some 1%Z = Some 0%Z)) by discriminate.
    rewrite !(bool_decide_eq_true_2 (Some 1%Z = Some 1%Z)) by reflexivity.
    rewrite !(bool_decide_eq_true_2 (Some 0%Z = Some 0%Z)) by reflexivity.
    rewrite Pr_false. fold (mass (Bernoulli_sample ps)).
    rewrite mass_Bernoulli_sample. split; ring.
  - destruct (IH b Hb) as [E1 E0].
    change (fun os : list Z => bool_decide ((0%Z :: os) !! S b = Some 1%Z))
      with (fun os : list Z => bool_decide (os !! b = Some 1%Z)).
    change (fun os : list Z => bool_decide ((1%Z :: os) !! S b = Some 1%Z))
      with (fun os : list Z => bool_decide (os !! b = Some 1%Z)).
    change (fun os : list Z => bool_decide ((0%Z :: os) !! S b = Some 0%Z))
      with (fun os : list Z => bool_decide (os !! b = Some 0%Z)).
    change (fun os : list Z => bool_decide ((1%Z :: os) !! S b = Some 0%Z))
      with (fun os : list Z => bool_decide (os !! b = Some 0%Z)).
    rewrite E1, E0. split; ring.
Qed.

Lemma Pr_Bernoulli_sample_joint (probs : list R) (os : list Z) :
  Forall2 (fun _ o => o = 0%Z \/ o = 1%Z) probs os ->
  Pr (Bernoulli_sample probs) (fun os' => bool_decide (os' = os))
  = outcome_product probs os.
Proof.
  intros H. induction H as [|p o ps os Ho Hos IH].
  - cbn [Bernoulli_sample outcome_product]. rewrite Pr_dret.
    rewrite bool_decide_eq_true_2 by reflexivity. reflexivity.
  - rewrite Pr_Bernoulli_sample_cons. cbn [outcome_product].
    destruct Ho as [->| ->]; cbn [Z.eqb Pos.eqb].
    + rewrite (Pr_ext _ (fun os' => bool_decide (1%Z :: os' = 0%Z :: os))
                 (fun _ => false)).
      2:{ intros x _. apply bool_decide_eq_false_2. discriminate. }
      rewrite (Pr_ext _ (fun os' => bool_decide (0%Z :: os' = 0%Z :: os))
                 (fun os' => bool_decide (os' = os))).
      2:{ intros x _. apply bool_decide_ext. split; [|congruence].
          intros E; injection E; auto. }
      rewrite Pr_false, IH. ring.
    + rewrite (Pr_ext _ (fun os' => bool_decide (0%Z :: os' = 1%Z :: os))
                 (fun _ => false)).
      2:{ intros x _. apply bool_decide_eq_false_2. discriminate. }
      rewrite (Pr_ext _ (fun os' => bool_decide (1%Z :: os' = 1%Z :: os))
                 (fun os' => bool_decide (os' = os))).
      2:{ intros x _. apply bool_decide_ext. split; [|congruence].
          intros E; injection E; auto. }
      rewrite Pr_false, IH. ring.
Qed.

(** ** The measurement *)

Lemma measurement_probs (N : nat) (K0s K1s : list Mat) (psi : list Vec) :
  let collapsed0 := batch_dot_mv N K0s psi in
  let p0 := re <$> batch_dot_vv N (vconj <$> collapsed0) collapsed0 in
  let collapsed1 := batch_dot_mv N K1s psi in
  let p1 := re <$> batch_dot_vv N (vconj <$> collapsed1) collapsed1 in
  zip_with Rdiv p1 (zip_with Rplus p0 p1) = outcome1_probs N K0s K1s psi.
Proof.
  cbv zeta. unfold batch_dot_mv, batch_dot_vv.
  revert K1s psi. induction K0s as [|K0 K0s IH]; intros K1s psi.
  - cbn. destruct (re <$> _); reflexivity.
  - destruct psi as [|v psi].
    + destruct K1s; reflexivity.
    + destruct K1s as [|K1 K1s].
      * reflexivity.
      * cbn [outcome1_probs]. rewrite <- IH. reflexivity.
Qed.

Lemma measurement_unfold (N : nat) (psi : list Vec) (Kraus : Kraus2) :
  measurement N psi Kraus
  = dbind (Bernoulli_sample
             (outcome1_probs N (Kraus_0 Kraus) (Kraus_1 Kraus) psi))
          (fun os => dret (collapse N psi Kraus os, remap os)).
Proof.
  unfold measurement. rewrite measurement_probs. reflexivity.
Qed.

Lemma possible_measurement (N : nat) (psi : list Vec) (Kraus : Kraus2)
    (r : list Vec * Tensor2) :
  possible (measurement N psi Kraus) r
  <-> exists os,
        Forall2 (fun _ o => o = 0%Z \/ o = 1%Z)
                (outcome1_probs N (Kraus_0 Kraus) (Kraus_1 Kraus) psi) os
        /\ r = (collapse N psi Kraus os, remap os).
Proof.
  rewrite measurement_unfold, possible_dbind. split.
  - intros (os & Hos & Hr). exists os. split.
    + apply possible_Bernoulli_sample, Hos.
    + apply possible_dret, Hr.
  - intros (os & Hos & ->). exists os. split.
    + apply possible_Bernoulli_sample, Hos.
    + apply possible_dret. reflexivity.
Qed.

Lemma outcome1_probs_lookup (N : nat) (K0s K1s : list Mat) (psis : list Vec)
    (b : nat) (K0 K1 : Mat) (psi : Vec) :
  K0s !! b = Some K0 -> K1s !! b = Some K1 -> psis !! b = Some psi ->
  outcome1_probs N K0s K1s psis !! b
  = Some (branch_weight N K1 psi
          / (branch_weight N K0 psi + branch_weight N K1 psi)).
Proof.
  revert K0s K1s psis. induction b as [|b IH]; intros K0s K1s psis H0 H1 Hp;
    destruct K0s, K1s, psis; try discriminate; simpl in *.
  - injection H0 as ->. injection H1 as ->. injection Hp as ->. reflexivity.
  - apply IH; assumption.
Qed.

Lemma norm2_ext (N : nat) (u v : Vec) :
  (forall i, (i < N)%nat -> u i = v i) -> norm2 N u = norm2 N v.
Proof.
  intros E. unfold norm2, vdot, vconj. f_equal.
  apply Csum_ext. intros k Hk. rewrite E by exact Hk. reflexivity.
Qed.

(** An entry of the returned batch is the candidate of the sampled branch. *)
Lemma collapse_lookup (N : nat) (psi : list Vec) (Kraus : Kraus2)
    (os : list Z) (b : nat) (v : Vec) :
  collapse N psi Kraus os !! b = Some v ->
  exists K0 K1 ψ o,
    Kraus_0 Kraus !! b = Some K0 /\ Kraus_1 Kraus !! b = Some K1
    /\ psi !! b = Some ψ /\ os !! b = Some o
    /\ v = vadd (vscale (Cone - RtoC (IZR o)) (matvec N K0 ψ))
                (vscale (RtoC (IZR o)) (matvec N K1 ψ)).
Proof.
  unfold collapse, batch_dot_mv. intros H. batch_entries.
  eexists _, _, _, _. repeat (split; [eassumption|]). reflexivity.
Qed.

(** C1, as the code has it.  [measurement] returns, on each batch element,
    the candidate [Kraus[o] psi] of the sampled branch [o] as it is: its
    squared norm is the weight [p_o] of that branch, and the outcome
    returned with it is [+1] for branch [0] and [-1] for branch [1]. *)
Theorem measurement_returns_candidate (N : nat) (psi : list Vec)
    (Kraus : Kraus2) (r : list Vec * Tensor2) (b : nat) (v : Vec) :
  possible (measurement N psi Kraus) r ->
  r.1 !! b = Some v ->
  exists K0 K1 ψ,
    Kraus_0 Kraus !! b = Some K0 /\ Kraus_1 Kraus !! b = Some K1
    /\ psi !! b = Some ψ
    /\ ((r.2 !! b = Some [1]
         /\ (forall i, v i = matvec N K0 ψ i)
         /\ norm2 N v = branch_weight N K0 ψ)
        \/ (r.2 !! b = Some [-1]
            /\ (forall i, v i = matvec N K1 ψ i)
            /\ norm2 N v = branch_weight N K1 ψ)).
Proof.
  intros Hr Hv. apply possible_measurement in Hr as (os & Hos & ->).
  cbn [fst snd] in *.
  apply collapse_lookup in Hv as (K0 & K1 & ψ & o & H0 & H1 & Hψ & Ho & ->).
  exists K0, K1, ψ. repeat (split; [assumption|]).
  destruct (Forall2_lookup_r _ _ _ _ _ Hos Ho) as (q & _ & [->| ->]).
  - left.
    assert (E : forall i,
               vadd (vscale (Cone - RtoC (IZR 0)) (matvec N K0 ψ))
                    (vscale (RtoC (IZR 0)) (matvec N K1 ψ)) i
               = matvec N K0 ψ i).
    { intros i. unfold vadd, vscale. apply C_eq; simpl; ring. }
    split; [|split].
    + unfold remap. rewrite list_lookup_fmap, Ho. reflexivity.
    + exact E.
    + apply norm2_ext. intros i _. apply E.
  - right.
    assert (E : forall i,
               vadd (vscale (Cone - RtoC (IZR 1)) (matvec N K0 ψ))
                    (vscale (RtoC (IZR 1)) (matvec N K1 ψ)) i
               = matvec N K1 ψ i).
    { intros i. unfold vadd, vscale. apply C_eq; simpl; ring. }
    split; [|split].
    + unfold remap. rewrite list_lookup_fmap, Ho. reflexivity.
    + exact E.
    + apply norm2_ext. intros i _. apply E.
Qed.

Lemma cex_possible :
  possible (measurement 1 cex_psi cex_Kraus)
           (collapse 1 cex_psi cex_Kraus [0%Z], remap [0%Z]).
Proof.
  apply possible_measurement. exists [0%Z]. split; [|reflexivity].
  repeat constructor.
Qed.

Lemma measurement_returns_candidate_witness :
  exists K0 K1 ψ,
    Kraus_0 cex_Kraus !! O = Some K0 /\ Kraus_1 cex_Kraus !! O = Some K1
    /\ cex_psi !! O = Some ψ
    /\ ((remap [0%Z] !! O = Some [1]
         /\ (forall i,
               vadd (vscale (Cone - RtoC (IZR 0)) (matvec 1 K0 ψ))
                    (vscale (RtoC (IZR 0)) (matvec 1 K1 ψ)) i
               = matvec 1 K0 ψ i)
         /\ norm2 1 (vadd (vscale (Cone - RtoC (IZR 0)) (matvec 1 K0 ψ))
                          (vscale (RtoC (IZR 0)) (matvec 1 K1 ψ)))
            = branch_weight 1 K0 ψ)
        \/ (remap [0%Z] !! O = Some [-1]
            /\ (forall i,
                  vadd (vscale (Cone - RtoC (IZR 0)) (matvec 1 K0 ψ))
                       (vscale (RtoC (IZR 0)) (matvec 1 K1 ψ)) i
                  = matvec 1 K1 ψ i)
            /\ norm2 1 (vadd (vscale (Cone - RtoC (IZR 0)) (matvec 1 K0 ψ))
                             (vscale (RtoC (IZR 0)) (matvec 1 K1 ψ)))
               = branch_weight 1 K1 ψ)).
Proof.
  destruct (measurement_returns_candidate 1 cex_psi cex_Kraus
              (collapse 1 cex_psi cex_Kraus [0%Z], remap [0%Z]) O
              (vadd (vscale (Cone - RtoC (IZR 0))
                       (matvec 1 (fun _ _ => mkC (1 / 2) (1 / 2))
                          (fun _ => Cone)))
                    (vscale (RtoC (IZR 0))
                       (matvec 1 (fun _ _ => mkC (1 / 2) (- (1 / 2)))
                          (fun _ => Cone))))
              cex_possible eq_refl)
    as (K0 & K1 & ψ & H0 & H1 & Hψ & H).
  injection H0 as <-. injection H1 as <-. injection Hψ as <-.
  eexists _, _, _. repeat (split; [reflexivity|]). exact H.
Defined.

(** C1, the claim as stated, fails: on a state of unit norm and a complete
    pair of operators, the state that [measurement] returns has norm
    [sqrt (1/2)]. *)
Lemma measurement_not_unit_norm :
  Forall (fun v => norm2 1 v = 1) cex_psi
  /\ Forall2 (complete 1) (Kraus_0 cex_Kraus) (Kraus_1 cex_Kraus)
  /\ ~ measurement_unit_norm 1 cex_psi cex_Kraus (1 / 1000000).
Proof.
  split; [|split].
  - repeat constructor. unfold norm2, vdot, vconj, Cone. simpl. lra.
  - repeat constructor. intros i j Hi Hj.
    unfold madd, matmul, adjoint, qt_identity. simpl.
    replace i with O by lia. replace j with O by lia. simpl.
    apply C_eq; simpl; lra.
  - intros H. specialize (H _ cex_possible). cbn [fst] in H.
    apply Forall_cons in H as [H _].
    assert (E : norm2 1
                  (vadd (vscale (Cone - RtoC (IZR 0))
                           (matvec 1 (fun _ _ => mkC (1 / 2) (1 / 2))
                              (fun _ => Cone)))
                        (vscale (RtoC (IZR 0))
                           (matvec 1 (fun _ _ => mkC (1 / 2) (- (1 / 2)))
                              (fun _ => Cone)))) = 1 / 2).
    { unfold norm2, vdot, vconj, vadd, vscale, matvec, Cone. simpl. lra. }
    rewrite E in H.
    assert (Hs : sqrt (1 / 2) < 9 / 10).
    { replace (9 / 10) with (sqrt ((9 / 10) * (9 / 10)))
        by (apply sqrt_square; lra).
      apply sqrt_lt_1; lra. }
    unfold Rabs in H. destruct (Rcase_abs (sqrt (1 / 2) - 1)); lra.
Qed.

Lemma remap_inj (os os' : list Z) : remap os' = remap os -> os' = os.
Proof.
  unfold remap. revert os. induction os' as [|o' os' IH]; intros [|o os] E;
    try discriminate; [reflexivity|].
  rewrite !fmap_cons in E. injection E as Eo E.
  apply eq_IZR in Eo. f_equal; [lia | apply IH, E].
Qed.

Lemma remap_lookup_minus (os : list Z) (b : nat) :
  remap os !! b = Some [-1] <-> os !! b = Some 1%Z.
Proof.
  unfold remap. rewrite list_lookup_fmap. destruct (os !! b) as [o|]; simpl.
  - split.
    + intros E. injection E as E. apply eq_IZR in E. f_equal. lia.
    + intros E. injection E as ->. reflexivity.
  - split; discriminate.
Qed.

Lemma remap_lookup_plus (os : list Z) (b : nat) :
  remap os !! b = Some [1] <-> os !! b = Some 0%Z.
Proof.
  unfold remap. rewrite list_lookup_fmap. destruct (os !! b) as [o|]; simpl.
  - split.
    + intros E. injection E as E. apply eq_IZR in E. f_equal. lia.
    + intros E. injection E as ->. reflexivity.
  - split; discriminate.
Qed.

(** C4.  On each batch element [measurement] samples outcome [1] with
    probability [p1/(p0+p1)], where [p_i] is the squared norm of
    [Kraus[i] psi], and returns it as the float [-1], and outcome [0] as
    [+1]; the probability of a whole vector of outcomes is the product of
    the probabilities of its entries, and nothing but [+1] and [-1] is
    returned. *)
Theorem measurement_outcome_distribution (N : nat) (psi : list Vec)
    (Kraus : Kraus2) (b : nat) (K0 K1 : Mat) (ψ : Vec) (os : list Z) :
  Kraus_0 Kraus !! b = Some K0 ->
  Kraus_1 Kraus !! b = Some K1 ->
  psi !! b = Some ψ ->
  Forall2 (fun _ o => o = 0%Z \/ o = 1%Z)
          (outcome1_probs N (Kraus_0 Kraus) (Kraus_1 Kraus) psi) os ->
  let p0 := branch_weight N K0 ψ in
  let p1 := branch_weight N K1 ψ in
  Pr (measurement N psi Kraus) (fun r => bool_decide (r.2 !! b = Some [-1]))
  = p1 / (p0 + p1)
  /\ Pr (measurement N psi Kraus) (fun r => bool_decide (r.2 !! b = Some [1]))
     = 1 - p1 / (p0 + p1)
  /\ Pr (measurement N psi Kraus) (fun r => bool_decide (r.2 = remap os))
     = outcome_product
         (outcome1_probs N (Kraus_0 Kraus) (Kraus_1 Kraus) psi) os
  /\ mass (measurement N psi Kraus) = 1
  /\ forall r, possible (measurement N psi Kraus) r ->
       Forall (fun o => o = [1] \/ o = [-1]) r.2.
Proof.
  intros H0 H1 Hψ Hos p0 p1. subst p0 p1.
  pose proof (outcome1_probs_lookup N _ _ _ b K0 K1 ψ H0 H1 Hψ) as Hq.
  destruct (Pr_Bernoulli_sample_entry _ b _ Hq) as [E1 E0].
  rewrite measurement_unfold. split; [|split; [|split; [|split]]].
  - rewrite Pr_dbind_dret. cbn [snd]. rewrite <- E1.
    apply Pr_ext. intros x _. apply bool_decide_ext, remap_lookup_minus.
  - rewrite Pr_dbind_dret. cbn [snd]. rewrite <- E0.
    apply Pr_ext. intros x _. apply bool_decide_ext, remap_lookup_plus.
  - rewrite Pr_dbind_dret. cbn [snd].
    rewrite <- (Pr_Bernoulli_sample_joint _ os Hos).
    apply Pr_ext. intros x _. apply bool_decide_ext. split.
    + apply remap_inj.
    + intros ->. reflexivity.
  - rewrite mass_dbind; [apply mass_Bernoulli_sample|].
    intros x _. apply mass_dret.
  - intros r Hr. rewrite <- measurement_unfold in Hr.
    apply possible_measurement in Hr as (os' & Hos' & ->). cbn [snd].
    unfold remap. apply Forall_fmap.
    apply (Forall2_Forall_r _ _ _ _ Hos'). apply Forall_forall.
    intros q _ o [->| ->]; simpl; auto.
Qed.

Lemma measurement_outcome_distribution_witness :
  let K0 : Mat := fun _ _ => mkC (1 / 2) (1 / 2) in
  let K1 : Mat := fun _ _ => mkC (1 / 2) (- (1 / 2)) in
  let ψ : Vec := fun _ => Cone in
  let p0 := branch_weight 1 K0 ψ in
  let p1 := branch_weight 1 K1 ψ in
  Pr (measurement 1 cex_psi cex_Kraus)
     (fun r => bool_decide (r.2 !! O = Some [-1]))
  = p1 / (p0 + p1)
  /\ Pr (measurement 1 cex_psi cex_Kraus)
        (fun r => bool_decide (r.2 !! O = Some [1]))
     = 1 - p1 / (p0 + p1)
  /\ Pr (measurement 1 cex_psi cex_Kraus)
        (fun r => bool_decide (r.2 = remap [1%Z]))
     = outcome_product
         (outcome1_probs 1 (Kraus_0 cex_Kraus) (Kraus_1 cex_Kraus) cex_psi)
         [1%Z]
  /\ mass (measurement 1 cex_psi cex_Kraus) = 1
  /\ forall r, possible (measurement 1 cex_psi cex_Kraus) r ->
       Forall (fun o => o = [1] \/ o = [-1]) r.2.
Proof.
  intros K0 K1 ψ.
  apply (measurement_outcome_distribution 1 cex_psi cex_Kraus O K0 K1 ψ
           [1%Z]); [reflexivity | reflexivity | reflexivity |].
  simpl. constructor; [right; reflexivity | constructor].
Defined.

(** ** The composition of two translations *)

Section Composition.
Variables N batch_size : nat.
Variables K_osc T1_osc : R.
Variable expm : Mat -> Mat.
Hypothesis expm_exact : expm_laws N expm.

Local Notation "A == B" := (mat_eq N A B) (at level 70, no associativity).
Local Notation "A × B" := (matmul N A B) (at level 40, left associativity).
Local Abbreviation self := (define_operators N K_osc T1_osc).

Lemma generator_real_multiple (t : R) (a : C) :
  generator self (RtoC t * a) == mscale (RtoC t) (generator self a).
Proof.
  intros i j _ _. unfold generator, msub, mscale, Cdiv, Cinv.
  apply C_eq; simpl; ring.
Qed.

Lemma generator_add (a b : C) :
  generator self (a + b) == madd (generator self a) (generator self b).
Proof.
  intros i j _ _. unfold generator, msub, mscale, madd, Cdiv, Cinv.
  apply C_eq; simpl; ring.
Qed.

Lemma phase_real_multiple (t : R) (a : C) :
  Cexp (Ci * RtoC (im (a * Cconj (RtoC t * a)))) = Cone.
Proof.
  replace (im (a * Cconj (RtoC t * a))) with 0 by (simpl; ring).
  replace (Ci * RtoC 0)%C with Czero by (apply C_eq; simpl; ring).
  apply Cexp_zero.
Qed.

Lemma translate_collinear_at (t : R) (a : C) :
  expm (generator self a) × expm (generator self (RtoC t * a))
  == mscale (Cexp (Ci * RtoC (im (a * Cconj (RtoC t * a)))))
            (expm (generator self (a + RtoC t * a))).
Proof using expm_exact.
  rewrite phase_real_multiple, mscale_one.
  rewrite (expm_proper N expm expm_exact _ _ (generator_add a (RtoC t * a))).
  rewrite (expm_add N expm expm_exact).
  - reflexivity.
  - rewrite (generator_real_multiple t a).
    rewrite matmul_mscale_l, matmul_mscale_r. reflexivity.
Qed.

End Composition.


(** ** Configuration *)

Lemma setattrs_app (self : GKP) (l1 l2 : list kwarg) :
  setattrs self (l1 ++ l2)
  = match setattrs self l1 with
    | Done self' => setattrs self' l2
    | Raised e self' => Raised e self'
    end.
Proof.
  revert self. induction l1 as [|kw l1 IH]; intros self; [reflexivity|].
  cbn [app setattrs]. destruct (setattr self kw); [apply IH | reflexivity].
Qed.

Lemma try_except_Done (body : GKP + inner_exn * GKP) (msg : string)
    (self' : GKP) :
  try_except body msg = Done self' -> body = inl self'.
Proof. destruct body as [s|[e s]]; simpl; [congruence | discriminate]. Qed.

(** What an assignment that returns leaves of the initialization mode and
    of the code tables. *)
Lemma setattr_Done (self self' : GKP) (kw : kwarg) :
  setattr self kw = Done self' ->
  has_code_map self' = has_code_map self
  /\ (_init self' = _init self
      \/ exists v, kw = kw_init (VStr v) /\ _init self' = v).
Proof.
  assert (Hsame : forall s : GKP,
            has_code_map s = has_code_map self -> _init s = _init self ->
            Done s = Done self' ->
            has_code_map self' = has_code_map self
            /\ (_init self' = _init self
                \/ exists v, kw = kw_init (VStr v) /\ _init self' = v)).
  { intros s H1 H2 E. injection E as <-. auto. }
  destruct kw as [n|h|m|T|size|val|mode|t]; simpl; intros E.
  - unfold set_N in E. destruct (has_code_map self) eqn:Hc; [discriminate|].
    refine (Hsame _ _ _ E); [exact Hc | reflexivity].
  - refine (Hsame _ _ _ E); reflexivity.
  - refine (Hsame _ _ _ E); reflexivity.
  - refine (Hsame _ _ _ E); reflexivity.
  - unfold set_batch_size in E.
    destruct (has_code_map self) eqn:Hc; [discriminate|].
    apply try_except_Done in E.
    destruct size as [|z|x|s]; try discriminate.
    destruct (0 <? z)%Z; [|discriminate]. injection E as <-.
    split; [exact Hc | left; reflexivity].
  - unfold set_init in E. apply try_except_Done in E.
    destruct val as [|z|x|v]; try discriminate.
    destruct (bool_decide (v ∈ init_modes)); [|discriminate].
    injection E as <-. split; [reflexivity|]. right. eauto.
  - unfold set_reward_mode in E. apply try_except_Done in E.
    destruct mode as [|z|x|m]; try discriminate.
    destruct (bool_decide (m ∈ reward_modes)); [|discriminate].
    destruct (String.eqb m "zero"), (String.eqb m "stabilizers"),
      (String.eqb m "pauli"), (String.eqb m "mixed"); simpl in E;
      try (destruct (String.eqb (_init self) "vac"); try discriminate);
      injection E as <-; split; try reflexivity; left; reflexivity.
  - refine (Hsame _ _ _ E); reflexivity.
Qed.

Lemma setattrs_Done (kwargs : list kwarg) :
  forall self self',
    setattrs self kwargs = Done self' ->
    has_code_map self' = has_code_map self
    /\ ((forall v, kw_init v ∈ kwargs -> v = VStr (_init self)) ->
        _init self' = _init self).
Proof.
  induction kwargs as [|kw kwargs IH]; intros self self' E.
  - injection E as <-. auto.
  - cbn [setattrs] in E. destruct (setattr self kw) as [s1|] eqn:E1;
      [|discriminate].
    destruct (setattr_Done _ _ _ E1) as [Hc Hi].
    destruct (IH _ _ E) as [Hc' Hi']. split; [congruence|].
    intros Hvac.
    assert (E0 : _init s1 = _init self).
    { destruct Hi as [Hi|(v & -> & Hv)]; [exact Hi|].
      assert (Hin : kw_init (VStr v) ∈ kw_init (VStr v) :: kwargs)
        by (apply elem_of_cons; left; reflexivity).
      specialize (Hvac (VStr v) Hin).
      injection Hvac as Hvac. congruence. }
    rewrite Hi', E0; [reflexivity|].
    intros v Hv. rewrite E0. apply Hvac. apply elem_of_cons. right. exact Hv.
Qed.

Lemma defaults_Done :
  exists s0, setattrs blank defaults = Done s0
             /\ _init s0 = "vac" /\ has_code_map s0 = false.
Proof. eexists. split; [reflexivity|]. split; reflexivity. Qed.

Lemma set_reward_mode_pauli_vac (self : GKP) :
  _init self = "vac" ->
  set_reward_mode self (VStr "pauli")
  = Raised (ValueError "Reward mode not supported.")
           (with_reward_mode self "pauli").
Proof.
  intros E. unfold set_reward_mode.
  rewrite bool_decide_eq_true_2 by (unfold reward_modes; set_solver).
  cbn. rewrite E. reflexivity.
Qed.

(** C6.  Constructing the environment with [reward_mode='pauli'] while the
    initialization mode is ['vac'] (by default, or assigned before) fails:
    the constructor returns no object.  When the assignments before it
    succeed, it is the assignment of the reward mode that raises, with the
    initialization mode ['vac'] at that point and whatever arguments
    follow.  What it raises is [ValueError('Reward mode not supported.')],
    the error of a mode that is not supported: the setter's own
    [Exception('Pauli reward not supported for vac')] is caught by its
    [except] clause and does not reach the caller. *)
Theorem pauli_with_vac_rejected (pre post : list kwarg) :
  (forall v, kw_init v ∈ pre -> v = VStr "vac") ->
  (exists e,
     __init__ (pre ++ kw_reward_mode (VStr "pauli") :: post) = Raise e)
  /\ (forall s0 s,
        setattrs blank defaults = Done s0 ->
        setattrs s0 pre = Done s ->
        _init s = "vac"
        /\ setattr s (kw_reward_mode (VStr "pauli"))
           = Raised (ValueError "Reward mode not supported.")
                    (with_reward_mode s "pauli")
        /\ __init__ (pre ++ kw_reward_mode (VStr "pauli") :: post)
           = Raise (ValueError "Reward mode not supported."))
  /\ (forall (s : GKP) (m : string),
        m ∉ reward_modes ->
        setattr s (kw_reward_mode (VStr m))
        = Raised (ValueError "Reward mode not supported.") s).
Proof.
  intros Hvac.
  destruct defaults_Done as (s0 & E0 & Hinit0 & _).
  assert (Hmain : forall s, setattrs s0 pre = Done s ->
            _init s = "vac"
            /\ setattr s (kw_reward_mode (VStr "pauli"))
               = Raised (ValueError "Reward mode not supported.")
                        (with_reward_mode s "pauli")
            /\ __init__ (pre ++ kw_reward_mode (VStr "pauli") :: post)
               = Raise (ValueError "Reward mode not supported.")).
  { intros s Es.
    assert (Hs : _init s = "vac").
    { destruct (setattrs_Done pre s0 s Es) as [_ Hi].
      rewrite Hi, Hinit0; [reflexivity|]. rewrite Hinit0. exact Hvac. }
    split; [exact Hs|]. split.
    - apply set_reward_mode_pauli_vac, Hs.
    - unfold __init__. rewrite E0, setattrs_app, Es. cbn [setattrs setattr].
      rewrite set_reward_mode_pauli_vac by exact Hs. reflexivity. }
  split; [|split].
  - destruct (setattrs s0 pre) as [s|e s] eqn:Es.
    + eexists. apply (Hmain s eq_refl).
    + exists e. unfold __init__. rewrite E0, setattrs_app, Es. reflexivity.
  - intros s0' s E0' Es. rewrite E0 in E0'. injection E0' as <-.
    apply Hmain, Es.
  - intros s m Hm. cbn [setattr]. unfold set_reward_mode.
    rewrite bool_decide_eq_false_2 by exact Hm. reflexivity.
Qed.

Lemma pauli_with_vac_rejected_witness :
  (exists e,
     __init__ ([kw_N 20; kw_init (VStr "vac")]
               ++ kw_reward_mode (VStr "pauli") :: [kw_batch_size (VInt 2)])
     = Raise e)
  /\ (forall s0 s,
        setattrs blank defaults = Done s0 ->
        setattrs s0 [kw_N 20; kw_init (VStr "vac")] = Done s ->
        _init s = "vac"
        /\ setattr s (kw_reward_mode (VStr "pauli"))
           = Raised (ValueError "Reward mode not supported.")
                    (with_reward_mode s "pauli")
        /\ __init__ ([kw_N 20; kw_init (VStr "vac")]
                     ++ kw_reward_mode (VStr "pauli")
                          :: [kw_batch_size (VInt 2)])
           = Raise (ValueError "Reward mode not supported."))
  /\ (forall (s : GKP) (m : string),
        m ∉ reward_modes ->
        setattr s (kw_reward_mode (VStr m))
        = Raised (ValueError "Reward mode not supported.") s).
Proof.
  apply (pauli_with_vac_rejected [kw_N 20; kw_init (VStr "vac")]
           [kw_batch_size (VInt 2)]).
  intros v Hv. apply elem_of_cons in Hv as [Hv|Hv]; [discriminate|].
  apply elem_of_cons in Hv as [Hv|Hv]; [injection Hv; auto|].
  apply elem_of_nil in Hv. destruct Hv.
Defined.

Lemma set_batch_size_rejects (self : GKP) (size : pyval) :
  ~ positive_int size ->
  exists msg, set_batch_size self size = Raised (ValueError msg) self.
Proof.
  intros Hbad. unfold set_batch_size.
  destruct (has_code_map self); [eauto|].
  destruct size as [|z|x|s]; simpl; eauto.
  destruct (0 <? z)%Z eqn:Hz; simpl; eauto.
  exfalso. apply Hbad. exists z. split; [reflexivity|].
  apply Z.ltb_lt, Hz.
Qed.

Lemma init_Ok_code_map (kwargs : list kwarg) (env : GKP) :
  __init__ kwargs = Ok env -> has_code_map env = true.
Proof.
  unfold __init__. destruct (setattrs blank defaults); [|discriminate].
  destruct (setattrs self kwargs) as [s|]; [|discriminate].
  destruct (create_specs s) as [s'|]; [|discriminate].
  intros E. injection E as <-. reflexivity.
Qed.

(** C9.  A batch size that is not a positive [int] is rejected with a
    [ValueError] by the setter and by the constructor; once the code tables
    exist, as they do on every constructed environment, an assignment to
    [batch_size] or to [N] raises a [ValueError]; a rejected assignment
    leaves the object as it was, and an accepted one stores the value that
    was given, never another. *)
Theorem batch_size_and_N_guarded (self : GKP) (size : pyval) (n : Z)
    (pre post : list kwarg) :
  (~ positive_int size ->
     (exists msg, set_batch_size self size = Raised (ValueError msg) self)
     /\ exists e, __init__ (pre ++ kw_batch_size size :: post) = Raise e)
  /\ (has_code_map self = true ->
        set_batch_size self size
        = Raised (ValueError "Cannot change batch_size after initialization.")
                 self
        /\ set_N self n
           = Raised (ValueError "Cannot change N after initialization.") self)
  /\ (forall env, __init__ pre = Ok env -> has_code_map env = true)
  /\ (forall self', set_batch_size self size = Done self' ->
        positive_int size /\ size = VInt (_batch_size self'))
  /\ (forall self', set_N self n = Done self' -> _N self' = n).
Proof.
  split; [|split; [|split; [|split]]].
  - intros Hbad. split; [apply set_batch_size_rejects, Hbad|].
    destruct defaults_Done as (s0 & E0 & _ & Hc0).
    unfold __init__. rewrite E0, setattrs_app.
    destruct (setattrs s0 pre) as [s|e s] eqn:Es; [|eauto].
    cbn [setattrs setattr].
    destruct (set_batch_size_rejects s size Hbad) as (msg & ->). eauto.
  - intros Hc. unfold set_batch_size, set_N. rewrite Hc. auto.
  - intros env. apply init_Ok_code_map.
  - intros self' E. unfold set_batch_size in E.
    destruct (has_code_map self); [discriminate|].
    apply try_except_Done in E. destruct size as [|z|x|s]; try discriminate.
    destruct (0 <? z)%Z eqn:Hz; [|discriminate]. injection E as <-.
    split; [|reflexivity]. exists z. split; [reflexivity|].
    apply Z.ltb_lt, Hz.
  - intros self' E. unfold set_N in E.
    destruct (has_code_map self); [discriminate|]. injection E as <-.
    reflexivity.
Qed.

Lemma batch_size_and_N_guarded_witness :
  (exists msg, set_batch_size blank (VInt 0) = Raised (ValueError msg) blank)
  /\ exists e, __init__ ([kw_N 20] ++ kw_batch_size (VInt 0) :: []) = Raise e.
Proof.
  apply (batch_size_and_N_guarded blank (VInt 0) 0 [kw_N 20] []).
  intros (z & E & Hz). injection E as <-. lia.
Defined.

(** ** Shapes through a circuit *)

Lemma outcome1_probs_length (N b : nat) (K0s K1s : list Mat)
    (psis : list Vec) :
  length K0s = b -> length K1s = b -> length psis = b ->
  length (outcome1_probs N K0s K1s psis) = b.
Proof.
  revert K0s K1s psis. induction b as [|b IH]; intros K0s K1s psis H0 H1 Hp;
    destruct K0s, K1s, psis; try discriminate; simpl in *; [reflexivity|].
  f_equal. apply IH; lia.
Qed.

Lemma normalize_length (N : nat) (state : list Vec) :
  length (normalize N state) = length state.
Proof.
  unfold normalize, batch_dot_vv.
  rewrite length_zip_with, !length_fmap, length_zip_with, length_fmap.
  unfold Vec. lia.
Qed.

Lemma collapse_length (N b : nat) (psi : list Vec) (Kraus : Kraus2)
    (os : list Z) :
  length (Kraus_0 Kraus) = b -> length (Kraus_1 Kraus) = b ->
  length psi = b -> length os = b ->
  length (collapse N psi Kraus os) = b.
Proof.
  intros H0 H1 Hp Ho. unfold collapse, batch_dot_mv.
  rewrite !length_zip_with, !length_fmap. lia.
Qed.

(** What a measurement of a well-shaped batch returns. *)
Lemma measurement_shape (N b : nat) (psi : list Vec) (Kraus : Kraus2)
    (r : list Vec * Tensor2) :
  length (Kraus_0 Kraus) = b -> length (Kraus_1 Kraus) = b ->
  length psi = b ->
  possible (measurement N psi Kraus) r ->
  length r.1 = b /\ length r.2 = b
  /\ Forall (fun row => length row = 1%nat) r.2.
Proof.
  intros H0 H1 Hp Hr. apply possible_measurement in Hr as (os & Hos & ->).
  assert (Ho : length os = b).
  { rewrite <- (Forall2_length _ _ _ Hos).
    apply outcome1_probs_length; assumption. }
  cbn [fst snd]. split; [|split].
  - apply collapse_length; assumption.
  - unfold remap. rewrite length_fmap. exact Ho.
  - unfold remap. apply Forall_fmap, Forall_forall. intros o _. reflexivity.
Qed.

Lemma dist_nonempty_dbind {A B} (d : dist A) (f : A -> dist B) :
  (exists x, possible d x) -> (forall x, exists y, possible (f x) y) ->
  exists y, possible (dbind d f) y.
Proof.
  intros (x & Hx) Hf. destruct (Hf x) as (y & Hy).
  exists y. apply possible_dbind. eauto.
Qed.

Lemma Bernoulli_sample_nonempty (probs : list R) :
  exists os, possible (Bernoulli_sample probs) os.
Proof.
  exists ((fun _ => 0%Z) <$> probs). apply possible_Bernoulli_sample.
  induction probs; constructor; auto.
Qed.

Lemma measurement_nonempty (N : nat) (psi : list Vec) (Kraus : Kraus2) :
  exists r, possible (measurement N psi Kraus) r.
Proof.
  rewrite measurement_unfold. apply dist_nonempty_dbind.
  - apply Bernoulli_sample_nonempty.
  - intros os. eexists. apply possible_dret. reflexivity.
Qed.

Lemma M_nonempty_mbind {A B} (m : M A) (f : A -> M B) :
  (exists r, possible m r) -> (forall x, exists r, possible (f x) r) ->
  exists r, possible (mbind m f) r.
Proof.
  intros ([x|e] & Hr) Hf.
  - destruct (Hf x) as (r & Hx). exists r. apply possible_mbind. eauto.
  - exists (Raise e). apply possible_mbind. eauto.
Qed.

Lemma sample_nonempty {A} (d : dist A) :
  (exists x, possible d x) -> exists r, possible (sample d) r.
Proof. intros (x & Hx). exists (Ok x). apply possible_sample. eauto. Qed.

Lemma getitem_nonempty {A} (d : gmap string A) (k : string) :
  exists r, possible (getitem d k) r.
Proof.
  unfold getitem. destruct (d !! k); eexists; apply possible_dret; reflexivity.
Qed.

Lemma mret_nonempty {A} (x : A) : exists r, possible (mret x) r.
Proof. eexists. apply possible_mret. reflexivity. Qed.

Section CircuitShapes.
Variables N b : nat.
Variable run : QuantumTrajectorySim -> list Vec -> dist (list Vec).
(** The simulator returns a batch as large as the one it is given, and
    returns one. *)
Hypothesis run_length : forall sim psi psi',
  possible (run sim psi) psi' -> length psi' = length psi.
Hypothesis run_total : forall sim psi, exists psi', possible (run sim psi) psi'.

Local Abbreviation circuit_tail := (circuit_tail N run).

Lemma circuit_tail_shape sim_delay sim_round T_a Kraus psi r :
  length T_a = b -> length (Kraus_0 Kraus) = b ->
  length (Kraus_1 Kraus) = b -> length psi = b ->
  possible (circuit_tail sim_delay sim_round T_a Kraus psi) r ->
  exists psi_final psi_cached obs,
    r = Ok (psi_final, psi_cached, obs)
    /\ length psi_final = b /\ length psi_cached = b /\ length obs = b
    /\ Forall (fun row => length row = 1%nat) obs.
Proof using run_length.
  intros HT H0 H1 Hp Hr. unfold circuit_tail in Hr.
  apply possible_mbind in Hr as [(psi1 & Hpsi1 & Hr)|(e & He & _)].
  2:{ apply possible_sample in He as (? & ? & _). discriminate. }
  apply possible_sample in Hpsi1 as (? & E & Hpsi1). injection E as <-.
  apply run_length in Hpsi1.
  apply possible_mbind in Hr as [(psi2 & Hpsi2 & Hr)|(e & He & _)].
  2:{ apply possible_sample in He as (? & ? & _). discriminate. }
  apply possible_sample in Hpsi2 as (? & E & Hpsi2). injection E as <-.
  apply run_length in Hpsi2.
  assert (Hc : length (batch_dot_mv N T_a psi1) = b).
  { unfold batch_dot_mv. rewrite length_zip_with. lia. }
  apply possible_mbind in Hr as [(m & Hm & Hr)|(e & He & _)].
  2:{ apply possible_sample in He as (? & ? & _). discriminate. }
  apply possible_sample in Hm as (? & E & Hm). injection E as <-.
  apply (measurement_shape N b) in Hm as (Hm1 & Hm2 & Hm3);
    [|assumption|assumption|rewrite normalize_length; lia].
  apply possible_mret in Hr as ->.
  eexists _, _, _. split; [reflexivity|]. auto.
Qed.

Lemma circuit_tail_nonempty sim_delay sim_round T_a Kraus psi :
  exists r, possible (circuit_tail sim_delay sim_round T_a Kraus psi) r.
Proof using run_total.
  unfold circuit_tail. apply M_nonempty_mbind.
  - apply sample_nonempty, run_total.
  - intros psi1. apply M_nonempty_mbind.
    + apply sample_nonempty, run_total.
    + intros psi2. apply M_nonempty_mbind.
      * apply sample_nonempty, measurement_nonempty.
      * intros m. apply mret_nonempty.
Qed.

End CircuitShapes.

Lemma concat_singletons_length {A} (l : list (list A)) :
  Forall (fun row => length row = 1%nat) l -> length (concat l) = length l.
Proof.
  induction 1 as [|row l Hrow _ IH]; [reflexivity|].
  cbn [concat]. rewrite length_app, Hrow, IH. reflexivity.
Qed.

Lemma possible_getitem_Ok {A} (d : gmap string A) (k : string) (x : A) :
  possible (getitem d k) (Ok x) <-> d !! k = Some x.
Proof.
  rewrite possible_getitem. destruct (d !! k); split; congruence.
Qed.

Lemma possible_getitem_Raise {A} (d : gmap string A) (k : string) (e : exn) :
  possible (getitem d k) (Raise e) -> d !! k = None.
Proof.
  rewrite possible_getitem. destruct (d !! k); [discriminate|reflexivity].
Qed.

Lemma vec_to_complex_length (a : Tensor2) :
  length (vec_to_complex a) = length a.
Proof. unfold vec_to_complex. apply length_fmap. Qed.

Lemma translate_length_any (b : nat) (self : Operators) (expm : Mat -> Mat)
    (amplitude : list C) :
  length amplitude = b -> length (translate b self expm amplitude) = b.
Proof.
  intros E. unfold translate.
  rewrite length_fmap, !length_zip_with, !length_fmap, !length_replicate, E.
  lia.
Qed.

Section Circuits.
Variables N b : nat.
Variable self : Operators.
Variable expm : Mat -> Mat.
Variable run : QuantumTrajectorySim -> list Vec -> dist (list Vec).
Variables dt t_gate t_read t_delay : R.
Hypothesis run_length : forall sim psi psi',
  possible (run sim psi) psi' -> length psi' = length psi.
Hypothesis run_total : forall sim psi, exists psi', possible (run sim psi) psi'.

Local Abbreviation reads := (reads b).
Local Abbreviation circuit_result := (circuit_result b).

Lemma Kraus_v1_shape (beta : list C) (phi : Tensor2) :
  length beta = b -> length (concat phi) = b ->
  length (Kraus_0 (Kraus_v1 b self expm beta phi)) = b
  /\ length (Kraus_1 (Kraus_v1 b self expm beta phi)) = b.
Proof.
  intros Hb Hp. simpl. unfold phase.
  rewrite !length_fmap, !length_zip_with, length_fmap, length_replicate.
  rewrite translate_length_any, Hp by exact Hb. lia.
Qed.

Lemma Kraus_v2_shape (beta : list C) (phi : Tensor2) :
  length beta = b -> length (concat phi) = b ->
  length (Kraus_0 (Kraus_v2 b self expm beta phi)) = b
  /\ length (Kraus_1 (Kraus_v2 b self expm beta phi)) = b.
Proof.
  intros Hb Hp. simpl. unfold phase.
  rewrite !length_fmap, !length_zip_with, !length_fmap.
  rewrite translate_length_any, Hp by (rewrite length_fmap; exact Hb). lia.
Qed.

Lemma Kraus_v3_shape (beta epsilon : list C) (phi : Tensor2) :
  length beta = b -> length epsilon = b -> length (concat phi) = b ->
  length (Kraus_0 (Kraus_v3 N b self expm beta epsilon phi)) = b
  /\ length (Kraus_1 (Kraus_v3 N b self expm beta epsilon phi)) = b.
Proof.
  intros Hb He Hp. simpl. unfold phase, chunk1, chunk2, batch_dot_mm.
  rewrite !length_fmap, !length_zip_with, !length_fmap.
  repeat rewrite ?length_zip_with, ?length_fmap.
  rewrite !translate_length_any, Hp by (rewrite length_fmap; assumption).
  lia.
Qed.

Lemma quantum_circuit_v1_shape (psi : list Vec) (action : Action) r :
  reads action "alpha" 2 -> reads action "beta" 2 -> reads action "phi" 1 ->
  length psi = b ->
  possible (quantum_circuit_v1 N b self expm run dt t_gate t_read t_delay
              psi action) r ->
  circuit_result r.
Proof using run_length.
  intros (a & Ha & Hla & _) (be & Hbe & Hlb & _) (phi & Hphi & Hlp & Hrows)
    Hpsi Hr.
  unfold quantum_circuit_v1 in Hr.
  apply possible_mbind in Hr as [(? & E & Hr)|(e & He & _)];
    [apply possible_getitem_Ok in E; rewrite Ha in E; injection E as <-
    |apply possible_getitem_Raise in He; congruence].
  apply possible_mbind in Hr as [(? & E & Hr)|(e & He & _)];
    [apply possible_getitem_Ok in E; rewrite Hbe in E; injection E as <-
    |apply possible_getitem_Raise in He; congruence].
  apply possible_mbind in Hr as [(? & E & Hr)|(e & He & _)];
    [apply possible_getitem_Ok in E; rewrite Hphi in E; injection E as <-
    |apply possible_getitem_Raise in He; congruence].
  destruct (Kraus_v1_shape (vec_to_complex be) phi) as [H0 H1].
  { rewrite vec_to_complex_length. exact Hlb. }
  { rewrite concat_singletons_length by exact Hrows. exact Hlp. }
  eapply (circuit_tail_shape N b run run_length); [| | | |exact Hr];
    try assumption.
  apply translate_length_any. rewrite vec_to_complex_length. exact Hla.
Qed.

Lemma quantum_circuit_v2_shape (psi : list Vec) (action : Action) r :
  reads action "alpha" 2 -> reads action "beta" 2 -> reads action "phi" 1 ->
  length psi = b ->
  possible (quantum_circuit_v2 N b self expm run dt t_gate t_read t_delay
              psi action) r ->
  circuit_result r.
Proof using run_length.
  intros (a & Ha & Hla & _) (be & Hbe & Hlb & _) (phi & Hphi & Hlp & Hrows)
    Hpsi Hr.
  unfold quantum_circuit_v2 in Hr.
  apply possible_mbind in Hr as [(? & E & Hr)|(e & He & _)];
    [apply possible_getitem_Ok in E; rewrite Ha in E; injection E as <-
    |apply possible_getitem_Raise in He; congruence].
  apply possible_mbind in Hr as [(? & E & Hr)|(e & He & _)];
    [apply possible_getitem_Ok in E; rewrite Hbe in E; injection E as <-
    |apply possible_getitem_Raise in He; congruence].
  apply possible_mbind in Hr as [(? & E & Hr)|(e & He & _)];
    [apply possible_getitem_Ok in E; rewrite Hphi in E; injection E as <-
    |apply possible_getitem_Raise in He; congruence].
  destruct (Kraus_v2_shape (vec_to_complex be) phi) as [H0 H1].
  { rewrite vec_to_complex_length. exact Hlb. }
  { rewrite concat_singletons_length by exact Hrows. exact Hlp. }
  eapply (circuit_tail_shape N b run run_length); [| | | |exact Hr];
    try assumption.
  apply translate_length_any. rewrite vec_to_complex_length. exact Hla.
Qed.

Lemma quantum_circuit_v3_shape (psi : list Vec) (action : Action) r :
  reads action "alpha" 2 -> reads action "beta" 2 ->
  reads action "epsilon" 2 -> reads action "phi" 1 ->
  length psi = b ->
  possible (quantum_circuit_v3 N b self expm run dt t_gate t_read t_delay
              psi action) r ->
  circuit_result r.
Proof using run_length.
  intros (a & Ha & Hla & _) (be & Hbe & Hlb & _) (ep & Hep & Hle & _)
    (phi & Hphi & Hlp & Hrows) Hpsi Hr.
  unfold quantum_circuit_v3 in Hr.
  apply possible_mbind in Hr as [(? & E & Hr)|(e & He & _)];
    [apply possible_getitem_Ok in E; rewrite Ha in E; injection E as <-
    |apply possible_getitem_Raise in He; congruence].
  apply possible_mbind in Hr as [(? & E & Hr)|(e & He & _)];
    [apply possible_getitem_Ok in E; rewrite Hbe in E; injection E as <-
    |apply possible_getitem_Raise in He; congruence].
  apply possible_mbind in Hr as [(? & E & Hr)|(e & He & _)];
    [apply possible_getitem_Ok in E; rewrite Hep in E; injection E as <-
    |apply possible_getitem_Raise in He; congruence].
  apply possible_mbind in Hr as [(? & E & Hr)|(e & He & _)];
    [apply possible_getitem_Ok in E; rewrite Hphi in E; injection E as <-
    |apply possible_getitem_Raise in He; congruence].
  destruct (Kraus_v3_shape (vec_to_complex be) (vec_to_complex ep) phi)
    as [H0 H1].
  { rewrite vec_to_complex_length. exact Hlb. }
  { rewrite vec_to_complex_length. exact Hle. }
  { rewrite concat_singletons_length by exact Hrows. exact Hlp. }
  eapply (circuit_tail_shape N b run run_length); [| | | |exact Hr];
    try assumption.
  apply translate_length_any. rewrite vec_to_complex_length. exact Hla.
Qed.

Lemma quantum_circuit_nonempty (psi : list Vec) (action : Action) :
  (exists r, possible (quantum_circuit_v1 N b self expm run dt t_gate t_read
                         t_delay psi action) r)
  /\ (exists r, possible (quantum_circuit_v2 N b self expm run dt t_gate
                            t_read t_delay psi action) r)
  /\ (exists r, possible (quantum_circuit_v3 N b self expm run dt t_gate
                            t_read t_delay psi action) r).
Proof using run_total.
  unfold quantum_circuit_v1, quantum_circuit_v2, quantum_circuit_v3.
  repeat split;
    repeat (apply M_nonempty_mbind; [apply getitem_nonempty|intros ?]);
    apply (circuit_tail_nonempty N run run_total).
Qed.

End Circuits.

(** ** The history and the observation *)

Lemma window_length {A} (h : nat) (prefill : A) (entries : list A) :
  length (window h prefill entries) = h.
Proof.
  unfold window. rewrite length_drop, length_app, length_replicate. lia.
Qed.

Lemma py_repeat_singleton {A} (x : A) (n : Z) :
  py_repeat [x] n = replicate (Z.to_nat n) x.
Proof.
  unfold py_repeat. induction (Z.to_nat n) as [|k IH]; [reflexivity|].
  cbn. rewrite IH. reflexivity.
Qed.

Lemma py_last_prefilled {A} (H : Z) (x : A) (es : list A) :
  (0 < H)%Z ->
  py_last H (replicate (Z.to_nat H) x ++ es)
  = drop (length es) (replicate (Z.to_nat H) x ++ es).
Proof.
  intros HH. unfold py_last.
  replace (0 <? H)%Z with true by (symmetry; apply Z.ltb_lt, HH).
  rewrite length_app, length_replicate. f_equal. lia.
Qed.

Lemma foldl_zip_app (b : nat) (vs : list Tensor3) :
  forall v : Tensor3,
    length v = b -> Forall (fun w : Tensor3 => length w = b) vs ->
    length (foldl (zip_with app) v vs) = b
    /\ forall bi, (bi < b)%nat ->
         slice bi (foldl (zip_with app) v vs)
         = slice bi v ++ concat (slice bi <$> vs).
Proof.
  induction vs as [|w vs IH]; intros v Hv Hvs.
  - split; [exact Hv|]. intros bi _. cbn. rewrite app_nil_r. reflexivity.
  - apply Forall_cons in Hvs as [Hw Hvs]. cbn [foldl].
    assert (Hvw : length (zip_with app v w) = b)
      by (rewrite length_zip_with; lia).
    destruct (IH _ Hvw Hvs) as [Hlen Hsl]. split; [exact Hlen|].
    intros bi Hbi. rewrite (Hsl bi Hbi). rewrite fmap_cons. cbn [concat].
    rewrite app_assoc. f_equal. unfold slice.
    destruct (lookup_lt_is_Some_2 v bi) as (x & Hx); [lia|].
    destruct (lookup_lt_is_Some_2 w bi) as (y & Hy); [lia|].
    rewrite lookup_zip_with, Hx, Hy. reflexivity.
Qed.

(** [tf.concat] along the time axis of tensors with [b] batch entries. *)
Lemma tf_concat1_rows (b : nat) (ts : list Tensor3) :
  ts <> [] -> Forall (fun w : Tensor3 => length w = b) ts ->
  exists t, tf_concat1 ts = Some t /\ length t = b
            /\ forall bi, (bi < b)%nat ->
                 slice bi t = concat (slice bi <$> ts).
Proof.
  destruct ts as [|v vs]; [congruence|]. intros _ Hts.
  apply Forall_cons in Hts as [Hv Hvs]. unfold tf_concat1.
  replace (forallb (fun w : Tensor3 => (length w =? length v)%nat) vs)
    with true.
  - destruct (foldl_zip_app b vs v Hv Hvs) as [Hlen Hsl].
    eexists. split; [reflexivity|]. split; [exact Hlen|].
    intros bi Hbi. rewrite Hsl by exact Hbi. reflexivity.
  - symmetry. apply forallb_forall. intros w Hw.
    apply Nat.eqb_eq. rewrite Hv.
    rewrite Forall_forall in Hvs. apply Hvs. apply list_elem_of_In, Hw.
Qed.

Lemma slice_expand_dims1 (bi : nat) (x : Tensor2) :
  (bi < length x)%nat -> slice bi (expand_dims1 x) = [row_at bi x].
Proof.
  intros Hbi. unfold slice, row_at, expand_dims1.
  rewrite list_lookup_fmap.
  destruct (lookup_lt_is_Some_2 x bi Hbi) as (row & ->). reflexivity.
Qed.

Lemma concat_singletons {A} (l : list A) : concat ((fun x => [x]) <$> l) = l.
Proof. induction l as [|x l IH]; [reflexivity|]. cbn. f_equal. exact IH. Qed.

(** The observation of one component whose history was pre-filled with the
    row [prefill] and then received the tensors [xs]: on each batch element,
    the last [H] rows, oldest first. *)
Lemma observe_component (H : Z) (b : nat) (prefill : list R)
    (xs : list Tensor2) :
  (0 < H)%Z ->
  Forall (fun x : Tensor2 => length x = b) xs ->
  exists t,
    tf_concat1
      (py_last H (py_repeat [replicate b [prefill]] H ++ (expand_dims1 <$> xs)))
    = Some t
    /\ length t = b
    /\ forall bi, (bi < b)%nat ->
         slice bi t = window (Z.to_nat H) prefill (row_at bi <$> xs).
Proof.
  intros HH Hxs. rewrite py_repeat_singleton, py_last_prefilled by exact HH.
  rewrite length_fmap.
  set (l := replicate (Z.to_nat H) (replicate b [prefill])
            ++ (expand_dims1 <$> xs)).
  assert (Hl : Forall (fun w : Tensor3 => length w = b) l).
  { unfold l. apply Forall_app. split.
    - apply Forall_replicate. apply length_replicate.
    - apply Forall_fmap. eapply Forall_impl; [exact Hxs|].
      intros x Hx. simpl. unfold expand_dims1. rewrite length_fmap. exact Hx. }
  assert (Hne : drop (length xs) l <> []).
  { intros E. apply (f_equal length) in E. revert E.
    unfold l. rewrite length_drop, length_app, length_replicate, length_fmap.
    simpl. lia. }
  destruct (tf_concat1_rows b (drop (length xs) l) Hne)
    as (t & Ht & Hlen & Hsl).
  { apply Forall_drop, Hl. }
  exists t. split; [exact Ht|]. split; [exact Hlen|].
  intros bi Hbi. rewrite (Hsl bi Hbi). unfold window.
  rewrite length_fmap, fmap_drop. unfold l. rewrite fmap_app, fmap_replicate.
  replace (slice bi (replicate b [prefill])) with [prefill].
  2:{ unfold slice. rewrite lookup_replicate_2 by exact Hbi. reflexivity. }
  replace (slice bi <$> (expand_dims1 <$> xs))
    with ((fun x => [x]) <$> (row_at bi <$> xs)).
  2:{ rewrite <- !list_fmap_compose. apply Forall_fmap_ext_1.
      eapply Forall_impl; [exact Hxs|]. intros x Hx. simpl.
      symmetry. apply slice_expand_dims1. rewrite Hx. exact Hbi. }
  rewrite <- (fmap_replicate (fun x : list R => [x])), <- fmap_app,
    <- fmap_drop.
  apply concat_singletons.
Qed.

(** ** Well-formed environments and actions *)

Lemma entries_rows (self : GKP) (key : string) (p : list R)
    (acts : list Action) (ms : list Tensor2) :
  prefill self key = Some p ->
  Forall (wf_action self) acts ->
  Forall (outcomes (batch_size self)) ms ->
  Forall (fun x : Tensor2 => length x = batch_size self)
         (entries key acts ms).
Proof.
  intros Hp Hacts Hms. unfold entries, prefill in *.
  destruct (decide (key = "msmt")).
  - eapply Forall_impl; [exact Hms|]. intros m [Hm _]. exact Hm.
  - apply Forall_fmap. eapply Forall_impl; [exact Hacts|].
    intros a [Hdom Hshape]. simpl.
    destruct (action_spec self !! key) as [d|] eqn:Hd; [|discriminate].
    destruct (proj2 (Hdom key)) as (t & Ht); [rewrite Hd; eauto|].
    rewrite Ht. simpl. apply (Hshape key t d Ht Hd).
Qed.

Lemma make_observation_spec (self : GKP) (acts : list Action)
    (ms : list Tensor2) (history : gmap string (list Tensor3)) r :
  (0 < self_H self)%Z ->
  Forall (wf_action self) acts ->
  Forall (outcomes (batch_size self)) ms ->
  (forall key, history !! key = history_of self acts ms key) ->
  possible (make_observation (self_H self) history) r ->
  exists obs, r = Ok obs /\ observation_of self acts ms obs.
Proof.
  intros HH Hacts Hms Hhist Hr. unfold make_observation in Hr.
  assert (Hcomp : forall key p, prefill self key = Some p ->
            exists t,
              history !! key ≫= (fun val => tf_concat1 (py_last (self_H self) val))
              = Some t
              /\ length t = batch_size self
              /\ forall bi, (bi < batch_size self)%nat ->
                   slice bi t
                   = window (Z.to_nat (self_H self)) p
                            (row_at bi <$> entries key acts ms)).
  { intros key p Hp. rewrite Hhist. unfold history_of. rewrite Hp. simpl.
    apply observe_component; [exact HH|].
    eapply entries_rows; eassumption. }
  destruct (decide _) as [Hall|Hnot].
  - apply possible_mret in Hr as ->. eexists. split; [reflexivity|].
    intros key. rewrite lookup_omap.
    destruct (prefill self key) as [p|] eqn:Hp.
    + apply Hcomp, Hp.
    + rewrite Hhist. unfold history_of. rewrite Hp. reflexivity.
  - exfalso. apply Hnot. apply map_Forall_lookup. intros key val Hval.
    pose proof (Hhist key) as Hk. rewrite Hval in Hk. unfold history_of in Hk.
    destruct (prefill self key) as [p|] eqn:Hp; [|discriminate].
    destruct (Hcomp key p Hp) as (t & Ht & _). rewrite Hval in Ht.
    simpl in Ht. rewrite Ht. eauto.
Qed.

(** The loop that appends the action to the history. *)
Lemma append_actions_spec (history : gmap string (list Tensor3))
    (action : Action) :
  (forall k, is_Some (action !! k) -> is_Some (history !! k)) ->
  exists h',
    append_actions history action = Ok h'
    /\ forall k,
         h' !! k
         = match action !! k with
           | Some x => (fun l => l ++ [expand_dims1 x]) <$> history !! k
           | None => history !! k
           end.
Proof.
  unfold append_actions.
  apply (map_fold_weak_ind
           (fun r (m : Action) =>
              (forall k, is_Some (m !! k) -> is_Some (history !! k)) ->
              exists h',
                r = Ok h'
                /\ forall k,
                     h' !! k
                     = match m !! k with
                       | Some x =>
                           (fun l => l ++ [expand_dims1 x]) <$> history !! k
                       | None => history !! k
                       end)).
  - intros _. exists history. split; [reflexivity|].
    intros k. rewrite lookup_empty. reflexivity.
  - intros i x m r Hi IH Hdom.
    destruct IH as (h' & -> & Hh').
    { intros k Hk. apply Hdom. destruct (decide (i = k)) as [->|Hne].
      - rewrite Hi in Hk. destruct Hk as (? & ?). discriminate.
      - rewrite lookup_insert_ne by exact Hne. exact Hk. }
    destruct (Hdom i) as (l & Hl); [rewrite lookup_insert_eq; eauto|].
    pose proof (Hh' i) as Hhi. rewrite Hi, Hl in Hhi. rewrite Hhi.
    eexists. split; [reflexivity|]. intros k.
    destruct (decide (i = k)) as [<-|Hne].
    + rewrite !lookup_insert_eq, Hl. reflexivity.
    + rewrite !lookup_insert_ne by exact Hne. apply Hh'.
Qed.

(** ** Episodes *)

Lemma possible_uniform {A} (l : list A) (x : A) :
  possible (uniform l) x <-> x ∈ l.
Proof.
  unfold possible, uniform. split.
  - intros (p & Hp). apply list_elem_of_fmap in Hp as (y & E & Hy).
    injection E as _ ->. exact Hy.
  - intros Hx. exists (1 / INR (length l)).
    apply list_elem_of_fmap. exists x. split; [reflexivity|exact Hx].
Qed.

Lemma possible_np_random_choice {A} (options : list A) (size : nat)
    (xs : list A) :
  possible (np_random_choice options size) xs ->
  length xs = size /\ Forall (fun x => x ∈ options) xs.
Proof.
  revert xs. induction size as [|n IH]; intros xs Hxs;
    cbn [np_random_choice] in Hxs.
  - apply possible_dret in Hxs as ->. split; [reflexivity|constructor].
  - apply possible_dbind in Hxs as (x & Hx & Hxs).
    apply possible_dbind in Hxs as (xs' & Hxs' & Hxs).
    apply possible_dret in Hxs as ->. apply possible_uniform in Hx.
    destruct (IH _ Hxs') as [Hlen Hall]. split.
    + cbn. rewrite Hlen. reflexivity.
    + constructor; assumption.
Qed.

Lemma np_random_choice_nonempty {A} (options : list A) (size : nat) :
  options <> [] -> exists xs, possible (np_random_choice options size) xs.
Proof.
  intros Hne. destruct options as [|x options]; [congruence|].
  induction size as [|n (xs & IH)]; cbn [np_random_choice].
  - eexists. apply possible_dret. reflexivity.
  - exists (x :: xs). apply possible_dbind. exists x. split.
    + apply possible_uniform. apply elem_of_cons. auto.
    + apply possible_dbind. exists xs. split; [exact IH|].
      apply possible_dret. reflexivity.
Qed.

Lemma possible_getitems {A} (d : gmap string A) (ks : list string) r :
  Forall (fun k => is_Some (d !! k)) ks ->
  possible (getitems d ks) r ->
  exists xs, r = Ok xs /\ length xs = length ks.
Proof.
  revert r. induction ks as [|k ks IH]; intros r Hks Hr;
    cbn [getitems] in Hr.
  - apply possible_mret in Hr as ->. exists []. auto.
  - apply Forall_cons in Hks as [(x & Hk) Hks].
    apply possible_mbind in Hr as [(x' & Hx' & Hr)|(e & He & _)].
    2:{ apply possible_getitem_Raise in He. congruence. }
    apply possible_mbind in Hr as [(xs & Hxs & Hr)|(e & He & _)].
    2:{ destruct (IH _ Hks He) as (? & ? & _). discriminate. }
    destruct (IH _ Hks Hxs) as (xs' & E & Hlen). injection E as ->.
    apply possible_mret in Hr as ->. eexists. split; [reflexivity|].
    cbn. rewrite Hlen. reflexivity.
Qed.

Lemma getitems_nonempty {A} (d : gmap string A) (ks : list string) :
  exists r, possible (getitems d ks) r.
Proof.
  induction ks as [|k ks IH]; cbn [getitems].
  - apply mret_nonempty.
  - apply M_nonempty_mbind; [apply getitem_nonempty|]. intros x.
    apply M_nonempty_mbind; [exact IH|]. intros xs. apply mret_nonempty.
Qed.

Lemma possible_np_random_randint (low high : Z) (r : res Z) :
  possible (np_random_randint low high) r ->
  if (low <? high)%Z
  then exists k, r = Ok k /\ (low <= k < high)%Z
  else r = Raise (ValueError "low >= high").
Proof.
  unfold np_random_randint. destruct (low <? high)%Z eqn:Hlt.
  - intros Hr. apply possible_sample in Hr as (k & -> & Hk).
    apply possible_uniform in Hk.
    apply list_elem_of_fmap in Hk as (i & -> & Hi).
    apply elem_of_seq in Hi. exists (low + Z.of_nat i)%Z.
    split; [reflexivity|]. lia.
  - apply possible_mraise.
Qed.

Lemma cardinal_first_letter (l : string) :
  l ∈ cardinal_modes -> l <> "vac" ->
  String.substring 0 1 l ∈ ["X"; "Y"; "Z"].
Proof.
  unfold cardinal_modes. intros Hl Hne.
  repeat (apply elem_of_cons in Hl as [->|Hl];
          [first [congruence | cbn; set_solver]|]).
  apply elem_of_nil in Hl. destruct Hl.
Qed.

Section Reset.
Variable states : gmap string Vec.
Variable code_map : gmap string C.

Lemma initial_states_spec (self : GKP) r :
  wf_env states code_map self ->
  possible (initial_states states self) r ->
  exists psi original,
    r = Ok (psi, original)
    /\ length psi = batch_size self
    /\ (_init self <> "vac" ->
        Forall (fun l => String.substring 0 1 l ∈ ["X"; "Y"; "Z"]) original).
Proof.
  intros Hwf Hr. unfold initial_states in Hr.
  destruct (bool_decide (_init self ∈ cardinal_modes)) eqn:Hcard.
  - apply bool_decide_eq_true in Hcard.
    destruct (wf_states _ _ _ Hwf _ Hcard) as (psi & Hpsi).
    apply possible_mbind in Hr as [(psi' & Hpsi' & Hr)|(e & He & _)].
    2:{ apply possible_getitem_Raise in He. congruence. }
    apply possible_getitem_Ok in Hpsi'. apply possible_mret in Hr as ->.
    eexists _, _. split; [reflexivity|]. split.
    + apply length_replicate.
    + intros Hne. apply Forall_replicate.
      apply cardinal_first_letter; assumption.
  - apply bool_decide_eq_false in Hcard.
    assert (Hrandom : _init self = "random").
    { pose proof (wf_init _ _ _ Hwf) as Hin. unfold init_modes in Hin.
      unfold cardinal_modes in Hcard.
      repeat (apply elem_of_cons in Hin as [Hin|Hin];
              [first [exact Hin | exfalso; apply Hcard; rewrite Hin;
                                  set_solver]|]).
      apply elem_of_nil in Hin. destruct Hin. }
    rewrite Hrandom in Hr. cbn [String.eqb Ascii.eqb Bool.eqb] in Hr.
    apply possible_mbind in Hr as [(original & Ho & Hr)|(e & He & _)].
    2:{ apply possible_sample in He as (? & ? & _). discriminate. }
    apply possible_sample in Ho as (? & E & Ho). injection E as <-.
    apply possible_np_random_choice in Ho as [Hlen Hall].
    assert (Hks : Forall (fun k => is_Some (states !! k)) original).
    { eapply Forall_impl; [exact Hall|]. intros l Hl'.
      apply (wf_states _ _ _ Hwf). unfold cardinal_modes. simpl in Hl'.
      repeat (apply elem_of_cons in Hl' as [->|Hl'];
              [repeat first [apply list_elem_of_here
                            | apply list_elem_of_further]|]).
      apply elem_of_nil in Hl'. destruct Hl'. }
    apply possible_mbind in Hr as [(psi & Hpsi & Hr)|(e & He & _)].
    2:{ destruct (possible_getitems _ _ _ Hks He) as (? & ? & _).
        discriminate. }
    destruct (possible_getitems _ _ _ Hks Hpsi) as (? & E & Hlen').
    injection E as <-. apply possible_mret in Hr as ->.
    eexists _, _. split; [reflexivity|]. split; [congruence|].
    intros _. eapply Forall_impl; [exact Hall|]. intros l Hl. simpl in Hl.
    repeat (apply elem_of_cons in Hl as [->|Hl]; [cbn; set_solver|]).
    apply elem_of_nil in Hl. destruct Hl.
Qed.

Lemma resample_episode_length_spec (self : GKP) r :
  wf_env states code_map self ->
  possible (resample_episode_length self) r ->
  exists T, r = Ok T
    /\ match max_episode_length self with
       | Some m => if (m =? 0)%Z then T = episode_length self
                   else (1 <= T < m)%Z
       | None => T = episode_length self
       end.
Proof.
  intros Hwf Hr. pose proof (wf_max _ _ _ Hwf) as Hmax.
  unfold resample_episode_length in Hr.
  destruct (max_episode_length self) as [m|].
  - destruct (m =? 0)%Z eqn:Hm0.
    + apply possible_mret in Hr as ->. eauto.
    + apply possible_np_random_randint in Hr.
      replace (1 <? m)%Z with true in Hr
        by (symmetry; apply Z.ltb_lt; apply Z.eqb_neq in Hm0; lia).
      exact Hr.
  - apply possible_mret in Hr as ->. eauto.
Qed.

Lemma initial_history_lookup (self : GKP) (key : string) :
  initial_history self !! key = history_of self [] [] key.
Proof.
  unfold initial_history, history_of, prefill, entries.
  rewrite lookup_fmap. destruct (decide (key = "msmt")) as [->|Hne].
  - rewrite lookup_insert_eq. simpl. rewrite app_nil_r. reflexivity.
  - rewrite lookup_insert_ne by congruence. rewrite lookup_fmap.
    destruct (action_spec self !! key); simpl; [|reflexivity].
    rewrite app_nil_r. reflexivity.
Qed.

Lemma wf_env_with_episode_length (self : GKP) (T : Z) :
  wf_env states code_map self ->
  wf_env states code_map (with_episode_length self T).
Proof. intros [? ? ? ? ? ? ?]. split; assumption. Qed.

Lemma wf_env_with_episode (self : GKP) (ep : Episode) :
  wf_env states code_map self ->
  wf_env states code_map (with_episode self ep).
Proof. intros [? ? ? ? ? ? ?]. split; assumption. Qed.

(** [_reset] returns, and what it leaves. *)
Lemma reset_spec (self : GKP) r :
  wf_env states code_map self ->
  possible (_reset states self) r ->
  exists T ep,
    r = Ok (with_episode (with_episode_length self T) ep,
            _current_time_step_ ep)
    /\ match max_episode_length self with
       | Some m => if (m =? 0)%Z then T = episode_length self
                   else (1 <= T < m)%Z
       | None => T = episode_length self
       end
    /\ episode_inv (with_episode_length self T) [] [] ep.
Proof.
  intros Hwf Hr. unfold _reset in Hr.
  apply possible_mbind in Hr as [(init & Hinit & Hr)|(e & He & _)].
  2:{ destruct (initial_states_spec _ _ Hwf He) as (? & ? & ? & _).
      discriminate. }
  destruct (initial_states_spec _ _ Hwf Hinit)
    as (psi & original & E & Hpsi & Horig).
  injection E as ->.
  apply possible_mbind in Hr as [(T & HT & Hr)|(e & He & _)].
  2:{ destruct (resample_episode_length_spec _ _ Hwf He) as (? & ? & _).
      discriminate. }
  destruct (resample_episode_length_spec _ _ Hwf HT) as (? & E & HTspec).
  injection E as <-.
  set (selfT := with_episode_length self T) in *.
  assert (Hobs : forall r', possible
                   (make_observation (self_H selfT) (initial_history selfT)) r' ->
                 exists obs, r' = Ok obs /\ observation_of selfT [] [] obs).
  { intros r'. apply make_observation_spec.
    - apply (wf_H _ _ _ Hwf).
    - constructor.
    - constructor.
    - apply initial_history_lookup. }
  apply possible_mbind in Hr as [(obs & Ho & Hr)|(e & He & _)].
  2:{ destruct (Hobs _ He) as (? & ? & _). discriminate. }
  destruct (Hobs _ Ho) as (? & E & Hobs'). injection E as <-.
  apply possible_mret in Hr as ->.
  eexists T, (mkEpisode _ _ _ _ _ _ _ _). split; [reflexivity|].
  split; [exact HTspec|].
  split; cbn; auto using initial_history_lookup.
Qed.

End Reset.

Lemma circuit_spec_base (c : circuit_fn) :
  circuit_spec c !! "alpha" = Some 2%nat
  /\ circuit_spec c !! "beta" = Some 2%nat
  /\ circuit_spec c !! "phi" = Some 1%nat
  /\ circuit_spec c !! "msmt" = None
  /\ (c = bound_quantum_circuit_v3 ->
      circuit_spec c !! "epsilon" = Some 2%nat).
Proof.
  destruct c; repeat split; try reflexivity; discriminate.
Qed.

Lemma wf_action_reads (self : GKP) (action : Action) (k : string) (d : nat) :
  wf_action self action -> action_spec self !! k = Some d ->
  reads (batch_size self) action k d.
Proof.
  intros [Hdom Hshape] Hk.
  destruct (proj2 (Hdom k)) as (t & Ht); [rewrite Hk; eauto|].
  exists t. split; [exact Ht|]. apply (Hshape k t d Ht Hk).
Qed.

Section Step.
Variable expm : nat -> Mat -> Mat.
Variable run : nat -> QuantumTrajectorySim -> list Vec -> dist (list Vec).
Variables K_osc T1_osc discrete_step_duration t_gate t_read t_delay : R.
Variable states : gmap string Vec.
Variable code_map : gmap string C.

(** The simulator returns a batch as large as the one it is given, and
    returns one. *)
Hypothesis run_length : forall N sim psi psi',
  possible (run N sim psi) psi' -> length psi' = length psi.
Hypothesis run_total :
  forall N sim psi, exists psi', possible (run N sim psi) psi'.

Local Abbreviation step :=
  (_step expm run K_osc T1_osc discrete_step_duration t_gate t_read t_delay
         code_map).

Lemma call_quantum_circuit_spec (self : GKP) (psi : list Vec)
    (action : Action) r :
  wf_env states code_map self -> wf_action self action ->
  length psi = batch_size self ->
  possible (call_quantum_circuit expm run K_osc T1_osc discrete_step_duration
              t_gate t_read t_delay self psi action) r ->
  circuit_result (batch_size self) r.
Proof using run_length.
  intros Hwf Hact Hpsi Hr. unfold call_quantum_circuit in Hr.
  pose proof (wf_spec _ _ _ Hwf) as Hspec.
  destruct (circuit_spec_base (quantum_circuit self))
    as (Ha & Hb & Hp & _ & He).
  rewrite <- Hspec in Ha, Hb, Hp, He.
  pose proof (wf_action_reads _ _ _ _ Hact Ha) as Ra.
  pose proof (wf_action_reads _ _ _ _ Hact Hb) as Rb.
  pose proof (wf_action_reads _ _ _ _ Hact Hp) as Rp.
  destruct (quantum_circuit self) eqn:Hc.
  - exact (quantum_circuit_v1_shape _ _ _ _ _ _ _ _ _
             (run_length (self_N self)) psi action r Ra Rb Rp Hpsi Hr).
  - exact (quantum_circuit_v2_shape _ _ _ _ _ _ _ _ _
             (run_length (self_N self)) psi action r Ra Rb Rp Hpsi Hr).
  - pose proof (wf_action_reads _ _ _ _ Hact (He eq_refl)) as Re.
    exact (quantum_circuit_v3_shape _ _ _ _ _ _ _ _ _
             (run_length (self_N self)) psi action r Ra Rb Re Rp Hpsi Hr).
Qed.

Lemma call_quantum_circuit_nonempty (self : GKP) (psi : list Vec)
    (action : Action) :
  exists r, possible (call_quantum_circuit expm run K_osc T1_osc
                        discrete_step_duration t_gate t_read t_delay self psi
                        action) r.
Proof using run_total.
  unfold call_quantum_circuit.
  destruct (quantum_circuit_nonempty (self_N self) (batch_size self)
              (operators K_osc T1_osc self) (expm (self_N self))
              (run (self_N self)) discrete_step_duration t_gate t_read
              t_delay (run_total (self_N self)) psi action)
    as (H1 & H2 & H3).
  destruct (quantum_circuit self); assumption.
Qed.

Lemma phase_estimation_sample_Ok (N b : nat) (ops : Operators)
    (e : Mat -> Mat) (psi : list Vec) (beta : list C) (angle : list R)
    (r : res (list Vec * Tensor2)) :
  possible (sample (phase_estimation N b ops e psi beta angle true)) r ->
  exists x, r = Ok x.
Proof. intros Hr. apply possible_sample in Hr as (x & -> & _). eauto. Qed.

(** The bound reward function returns. *)
Lemma call_calculate_reward_spec (self : GKP) (ep : Episode) (obs : Tensor2)
    (action : Action) r :
  wf_env states code_map self -> wf_action self action ->
  (_init self <> "vac" ->
   Forall (fun l => String.substring 0 1 l ∈ ["X"; "Y"; "Z"]) (_original ep)) ->
  is_Some (info ep !! "psi_cached") ->
  possible (call_calculate_reward expm K_osc T1_osc code_map self ep obs
              action) r ->
  exists x, r = Ok x.
Proof.
  intros Hwf Hact Horig (cached & Hcached) Hr.
  pose proof (wf_reward _ _ _ Hwf) as Hready. unfold reward_ready in Hready.
  unfold call_calculate_reward in Hr.
  destruct (calculate_reward self).
  - apply possible_mret in Hr as ->. eauto.
  - unfold reward_stabilizers in Hr.
    destruct (circuit_spec_base (quantum_circuit self))
      as (_ & _ & Hp & _).
    rewrite <- (wf_spec _ _ _ Hwf) in Hp.
    destruct (wf_action_reads _ _ _ _ Hact Hp) as (phi & Hphi & _).
    apply possible_mbind in Hr as [(? & E & Hr)|(e & He & _)].
    2:{ apply possible_getitem_Raise in He. congruence. }
    apply possible_mret in Hr as ->. eauto.
  - destruct Hready as [Hvac Hkeys]. unfold reward_pauli in Hr.
    destruct (_elapsed_steps ep <? episode_length self)%Z.
    { apply possible_mret in Hr as ->. eauto. }
    assert (Hks : Forall (fun k => is_Some (code_map !! k))
                    ((fun label => String.substring 0 1 label)
                       <$> take (batch_size self) (_original ep))).
    { apply Forall_fmap, Forall_take.
      eapply Forall_impl; [exact (Horig Hvac)|]. intros l Hl. apply Hkeys, Hl. }
    apply possible_mbind in Hr as [(pauli & Hpauli & Hr)|(e & He & _)].
    2:{ destruct (possible_getitems _ _ _ Hks He) as (? & ? & _).
        discriminate. }
    apply possible_mbind in Hr as [(? & E & Hr)|(e & He & _)].
    2:{ apply possible_getitem_Raise in He. congruence. }
    apply possible_mbind in Hr as [(? & E' & Hr)|(e & He & _)].
    2:{ apply phase_estimation_sample_Ok in He as (? & ?). discriminate. }
    apply possible_mret in Hr as ->. eauto.
  - destruct Hready as [(sq & Hsq) (sp & Hsp)]. unfold reward_mixed in Hr.
    destruct (_elapsed_steps ep <? episode_length self)%Z.
    { apply possible_mret in Hr as ->. eauto. }
    apply possible_mbind in Hr as [(mask & Hmask & Hr)|(e & He & _)].
    2:{ apply possible_sample in He as (? & ? & _). discriminate. }
    apply possible_mbind in Hr as [(? & E1 & Hr)|(e & He & _)].
    2:{ apply possible_getitem_Raise in He. congruence. }
    apply possible_mbind in Hr as [(? & E2 & Hr)|(e & He & _)].
    2:{ apply possible_getitem_Raise in He. congruence. }
    apply possible_mbind in Hr as [(? & E3 & Hr)|(e & He & _)].
    2:{ apply possible_getitem_Raise in He. congruence. }
    apply possible_mbind in Hr as [(? & E4 & Hr)|(e & He & _)].
    2:{ apply phase_estimation_sample_Ok in He as (? & ?). discriminate. }
    apply possible_mret in Hr as ->. eauto.
Qed.

End Step.

Lemma prefill_is_Some (self : GKP) (key : string) :
  is_Some (prefill self key)
  <-> key = "msmt" \/ is_Some (action_spec self !! key).
Proof.
  unfold prefill. destruct (decide (key = "msmt")) as [->|Hne].
  - split; eauto.
  - rewrite fmap_is_Some. split; [auto|]. intros [?|?]; [congruence|auto].
Qed.

(** The history after the loop over the action and the append of the
    measurement. *)
Lemma history_step (self : GKP) (acts : list Action) (ms : list Tensor2)
    (history h' : gmap string (list Tensor3)) (action : Action)
    (obs : Tensor2) (msmt : list Tensor3) :
  action_spec self !! "msmt" = None ->
  wf_action self action ->
  (forall key, history !! key = history_of self acts ms key) ->
  (forall k,
     h' !! k
     = match action !! k with
       | Some x => (fun l => l ++ [expand_dims1 x]) <$> history !! k
       | None => history !! k
       end) ->
  h' !! "msmt" = Some msmt ->
  forall key,
    <["msmt" := msmt ++ [expand_dims1 obs]]> h' !! key
    = history_of self (acts ++ [action]) (ms ++ [obs]) key.
Proof.
  intros Hno [Hdom _] Hhist Hh' Hmsmt key.
  assert (Hamsmt : action !! "msmt" = None).
  { destruct (action !! "msmt") eqn:E; [|reflexivity].
    destruct (proj1 (Hdom "msmt")) as (? & ?); [eauto|congruence]. }
  destruct (decide (key = "msmt")) as [->|Hne].
  - rewrite lookup_insert_eq.
    pose proof (Hh' "msmt") as E. rewrite Hamsmt, Hmsmt, Hhist in E.
    unfold history_of, prefill, entries in *.
    destruct (decide ("msmt" = "msmt")); [|congruence]. simpl in *.
    injection E as ->. rewrite fmap_app, app_assoc. reflexivity.
  - rewrite lookup_insert_ne by congruence. rewrite Hh', Hhist.
    unfold history_of, prefill, entries.
    destruct (decide (key = "msmt")); [congruence|].
    destruct (action_spec self !! key) as [d|] eqn:Hd.
    + destruct (proj2 (Hdom key)) as (x & Hx); [rewrite Hd; eauto|].
      rewrite Hx. simpl. rewrite !fmap_app, app_assoc. simpl.
      rewrite Hx. reflexivity.
    + destruct (action !! key) eqn:Hx; [|reflexivity].
      destruct (proj1 (Hdom key)) as (? & ?); [eauto|congruence].
Qed.

Lemma episode_inv_with_episode (self : GKP) (e : Episode)
    (acts : list Action) (ms : list Tensor2) (ep : Episode) :
  episode_inv (with_episode self e) acts ms ep <-> episode_inv self acts ms ep.
Proof. split; intros [? ? ? ? ? ? ? ? ?]; split; assumption. Qed.

Lemma wf_action_with_episode (self : GKP) (e : Episode) (action : Action) :
  wf_action (with_episode self e) action <-> wf_action self action.
Proof. reflexivity. Qed.

Section Steps.
Variable expm : nat -> Mat -> Mat.
Variable run : nat -> QuantumTrajectorySim -> list Vec -> dist (list Vec).
Variables K_osc T1_osc discrete_step_duration t_gate t_read t_delay : R.
Variable states : gmap string Vec.
Variable code_map : gmap string C.
Hypothesis run_length : forall N sim psi psi',
  possible (run N sim psi) psi' -> length psi' = length psi.

Local Abbreviation step :=
  (_step expm run K_osc T1_osc discrete_step_duration t_gate t_read t_delay
         code_map).

(** [_step] returns, and what it leaves. *)
Lemma step_spec (self : GKP) (ep : Episode) (acts : list Action)
    (ms : list Tensor2) (action : Action) r :
  wf_env states code_map self ->
  Forall (wf_action self) acts -> wf_action self action ->
  episode self = Some ep ->
  episode_inv self acts ms ep ->
  possible (step self action) r ->
  exists ep' m,
    r = Ok (with_episode self ep', _current_time_step_ ep')
    /\ episode_inv self (acts ++ [action]) (ms ++ [m]) ep'.
Proof using run_length.
  intros Hwf Hacts Hact Hep Hinv Hr. unfold _step in Hr. rewrite Hep in Hr.
  destruct Hinv as [Ihist Iel Iend Ist Iorig Ims Imslen Iobs Ity].
  assert (Hno : action_spec self !! "msmt" = None).
  { rewrite (wf_spec _ _ _ Hwf).
    apply (circuit_spec_base (quantum_circuit self)). }
  (* the circuit *)
  apply possible_mbind in Hr as [(c & Hc & Hr)|(e & He & _)].
  2:{ destruct (call_quantum_circuit_spec expm run K_osc T1_osc
                  discrete_step_duration t_gate t_read t_delay states
                  code_map run_length self _ action _ Hwf Hact Ist He)
        as (? & ? & ? & ? & _). discriminate. }
  destruct (call_quantum_circuit_spec expm run K_osc T1_osc
              discrete_step_duration t_gate t_read t_delay states
              code_map run_length self _ action _ Hwf Hact Ist Hc)
    as (psi_final & psi_cached & obs & E & Hfin & Hcach & Hobs & Hrows).
  injection E as ->. cbn [fst snd] in Hr.
  (* the history *)
  destruct (append_actions_spec (history ep) action) as (h' & Happ & Hh').
  { intros k Hk. rewrite Ihist. unfold history_of. apply fmap_is_Some.
    apply prefill_is_Some. right. apply (proj1 Hact), Hk. }
  apply possible_mbind in Hr as [(h & Hh & Hr)|(e & He & _)].
  2:{ apply possible_of_res in He. cbn in He. congruence. }
  apply possible_of_res in Hh. cbn in Hh. rewrite Happ in Hh.
  injection Hh as ->.
  assert (Hamsmt : action !! "msmt" = None).
  { destruct (action !! "msmt") eqn:E; [|reflexivity].
    destruct (proj1 (proj1 Hact "msmt")) as (? & ?); [eauto|congruence]. }
  assert (Hmsmt : exists msmt, h' !! "msmt" = Some msmt).
  { rewrite Hh', Hamsmt, Ihist. unfold history_of, prefill.
    destruct (decide ("msmt" = "msmt")); [|congruence]. simpl. eauto. }
  destruct Hmsmt as (msmt & Hmsmt).
  apply possible_mbind in Hr as [(? & E & Hr)|(e & He & _)].
  2:{ apply possible_getitem_Raise in He. congruence. }
  apply possible_getitem_Ok in E. rewrite Hmsmt in E. injection E as <-.
  pose proof (history_step self acts ms (history ep) h' action obs msmt
                Hno Hact Ihist Hh' Hmsmt) as Hnew.
  assert (Hacts' : Forall (wf_action self) (acts ++ [action])).
  { apply Forall_app. split; [exact Hacts|]. constructor; [exact Hact|].
    constructor. }
  assert (Hms' : Forall (outcomes (batch_size self)) (ms ++ [obs])).
  { apply Forall_app. split; [exact Ims|]. constructor; [|constructor].
    split; assumption. }
  (* the observation *)
  assert (Hobsv : forall r',
            possible (make_observation (self_H self)
                        (<["msmt" := msmt ++ [expand_dims1 obs]]> h')) r' ->
            exists o, r' = Ok o
              /\ observation_of self (acts ++ [action]) (ms ++ [obs]) o).
  { intros r'. apply make_observation_spec; try assumption.
    apply (wf_H _ _ _ Hwf). }
  apply possible_mbind in Hr as [(o & Ho & Hr)|(e & He & _)].
  2:{ destruct (Hobsv _ He) as (? & ? & _). discriminate. }
  destruct (Hobsv _ Ho) as (? & E & Hobs'). injection E as <-.
  (* the reward *)
  set (ep1 := with_step ep psi_final psi_cached (_elapsed_steps ep + 1)
                ((_elapsed_steps ep + 1 =? episode_length self)%Z)) in *.
  assert (Hrew : forall r',
            possible (call_calculate_reward expm K_osc T1_osc code_map self
                        ep1 obs action) r' -> exists x, r' = Ok x).
  { intros r'. apply (call_calculate_reward_spec expm K_osc T1_osc states);
      try assumption.
    unfold ep1, with_step. cbn. rewrite lookup_insert_eq. eauto. }
  apply possible_mbind in Hr as [(rew & Hrw & Hr)|(e & He & _)].
  2:{ destruct (Hrew _ He) as (? & ?). discriminate. }
  apply possible_mret in Hr as ->.
  assert (Hlen : Z.of_nat (length (acts ++ [action]))
                 = (_elapsed_steps ep + 1)%Z).
  { rewrite length_app, Iel. cbn. lia. }
  assert (Hnil : acts ++ [action] <> []).
  { intros E. apply (f_equal length) in E. rewrite length_app in E.
    cbn in E. lia. }
  eexists (mkEpisode _ _ _ _ _ _ _ _), obs.
  split; [unfold ep1; cbn; reflexivity|].
  split; cbn.
  - exact Hnew.
  - symmetry. exact Hlen.
  - destruct (decide (acts ++ [action] = [])); [contradiction|].
    rewrite Hlen. reflexivity.
  - exact Hfin.
  - exact Iorig.
  - exact Hms'.
  - rewrite !length_app, Imslen. reflexivity.
  - destruct (_elapsed_steps ep + 1 =? episode_length self)%Z; exact Hobs'.
  - destruct (decide (acts ++ [action] = [])); [contradiction|].
    rewrite Hlen.
    destruct (_elapsed_steps ep + 1 =? episode_length self)%Z; reflexivity.
Qed.

End Steps.

Lemma with_episode_id (self : GKP) (ep : Episode) :
  episode self = Some ep -> with_episode self ep = self.
Proof. destruct self. cbn. intros ->. reflexivity. Qed.

Section Runs.
Variable expm : nat -> Mat -> Mat.
Variable run : nat -> QuantumTrajectorySim -> list Vec -> dist (list Vec).
Variables K_osc T1_osc discrete_step_duration t_gate t_read t_delay : R.
Variable states : gmap string Vec.
Variable code_map : gmap string C.
Hypothesis run_length : forall N sim psi psi',
  possible (run N sim psi) psi' -> length psi' = length psi.

Local Abbreviation run_steps :=
  (steps expm run K_osc T1_osc discrete_step_duration t_gate t_read t_delay
         code_map).

Lemma steps_spec (actions : list Action) :
  forall (self : GKP) (ep : Episode) (acts : list Action)
         (ms : list Tensor2) r,
    wf_env states code_map self ->
    Forall (wf_action self) acts -> Forall (wf_action self) actions ->
    episode self = Some ep ->
    episode_inv self acts ms ep ->
    possible (run_steps self actions) r ->
    exists ep' ms' tss,
      r = Ok (with_episode self ep', tss)
      /\ run_of self acts actions ms ms' tss
      /\ episode_inv self (acts ++ actions) (ms ++ ms') ep'.
Proof using run_length.
  induction actions as [|a rest IH]; intros self ep acts ms r Hwf Hacts
    Hall Hep Hinv Hr; cbn [steps] in Hr.
  - apply possible_mret in Hr as ->. exists ep, [], [].
    rewrite (with_episode_id _ _ Hep), !app_nil_r.
    split; [reflexivity|]. split; [|exact Hinv].
    split; [reflexivity|]. split; [reflexivity|].
    intros j ts Hj. discriminate.
  - apply Forall_cons in Hall as [Ha Hrest].
    assert (Hstep : forall r1,
              possible (_step expm run K_osc T1_osc discrete_step_duration
                          t_gate t_read t_delay code_map self a) r1 ->
              exists ep1 m,
                r1 = Ok (with_episode self ep1, _current_time_step_ ep1)
                /\ episode_inv self (acts ++ [a]) (ms ++ [m]) ep1).
    { intros r1. eapply step_spec; eassumption. }
    apply possible_mbind in Hr as [(x1 & H1 & Hr)|(e & He & _)].
    2:{ destruct (Hstep _ He) as (? & ? & ? & _). discriminate. }
    destruct (Hstep _ H1) as (ep1 & m & E & Hinv1). injection E as ->.
    cbn [fst snd] in Hr.
    assert (Hwf1 : wf_env states code_map (with_episode self ep1))
      by (apply wf_env_with_episode, Hwf).
    assert (Hacts1 : Forall (wf_action self) (acts ++ [a])).
    { apply Forall_app. split; [exact Hacts|]. constructor; [exact Ha|].
      constructor. }
    assert (Hrec : forall r2,
              possible (run_steps (with_episode self ep1) rest) r2 ->
              exists ep' ms' tss,
                r2 = Ok (with_episode self ep', tss)
                /\ run_of self (acts ++ [a]) rest (ms ++ [m]) ms' tss
                /\ episode_inv self ((acts ++ [a]) ++ rest)
                               ((ms ++ [m]) ++ ms') ep').
    { intros r2 Hr2.
      destruct (IH (with_episode self ep1) ep1 (acts ++ [a]) (ms ++ [m]) r2
                  Hwf1 Hacts1 Hrest eq_refl
                  (proj2 (episode_inv_with_episode _ _ _ _ _) Hinv1) Hr2)
        as (ep' & ms' & tss & E & (Hl1 & Hl2 & Hrun) & Hfin).
      exists ep', ms', tss. split; [exact E|]. split.
      - split; [exact Hl1|]. split; [exact Hl2|].
        intros j ts Hj. destruct (Hrun j ts Hj) as (epj & Ets & Hj').
        exists epj. split; [exact Ets|].
        apply (episode_inv_with_episode self ep1), Hj'.
      - apply (episode_inv_with_episode self ep1), Hfin. }
    apply possible_mbind in Hr as [(x2 & H2 & Hr)|(e & He & _)].
    2:{ destruct (Hrec _ He) as (? & ? & ? & ? & _). discriminate. }
    destruct (Hrec _ H2) as (ep' & ms' & tss & E & (Hl1 & Hl2 & Hrun) & Hfin).
    injection E as ->. cbn [fst snd] in Hr.
    apply possible_mret in Hr as ->.
    exists ep', (m :: ms'), (_current_time_step_ ep1 :: tss).
    split; [reflexivity|]. split.
    + split; [cbn; rewrite Hl1; reflexivity|].
      split; [cbn; rewrite Hl2; reflexivity|].
      intros [|j] ts Hj.
      * injection Hj as <-. exists ep1. split; [reflexivity|].
        cbn [take]. exact Hinv1.
      * destruct (Hrun j ts Hj) as (epj & Ets & Hj').
        exists epj. split; [exact Ets|].
        cbn [take]. rewrite <- !app_assoc in Hj'. exact Hj'.
    + rewrite <- !app_assoc in Hfin. exact Hfin.
Qed.

(** What [_reset] followed by a [_step] for each action returns. *)
Lemma reset_then_steps_spec (self : GKP) (actions : list Action) r :
  wf_env states code_map self ->
  Forall (wf_action self) actions ->
  possible (reset_then_steps expm run K_osc T1_osc discrete_step_duration
              t_gate t_read t_delay states code_map self actions) r ->
  exists T ep0 ep' ms tss,
    r = Ok (with_episode (with_episode_length self T) ep',
            _current_time_step_ ep0, tss)
    /\ match max_episode_length self with
       | Some m => if (m =? 0)%Z then T = episode_length self
                   else (1 <= T < m)%Z
       | None => T = episode_length self
       end
    /\ episode_inv (with_episode_length self T) [] [] ep0
    /\ run_of (with_episode_length self T) [] actions [] ms tss
    /\ episode_inv (with_episode_length self T) actions ms ep'.
Proof using run_length.
  intros Hwf Hall Hr. unfold reset_then_steps in Hr.
  apply possible_mbind in Hr as [(x0 & H0 & Hr)|(e & He & _)].
  2:{ destruct (reset_spec _ _ _ _ Hwf He) as (? & ? & ? & _).
      discriminate. }
  destruct (reset_spec _ _ _ _ Hwf H0) as (T & ep0 & E & HT & Hinv0).
  injection E as ->. cbn [fst snd] in Hr.
  set (selfT := with_episode_length self T) in *.
  assert (HwfT : wf_env states code_map (with_episode selfT ep0)).
  { apply wf_env_with_episode, wf_env_with_episode_length, Hwf. }
  assert (Hrec : forall r2,
            possible (run_steps (with_episode selfT ep0) actions) r2 ->
            exists ep' ms tss,
              r2 = Ok (with_episode selfT ep', tss)
              /\ run_of selfT [] actions [] ms tss
              /\ episode_inv selfT actions ms ep').
  { intros r2 Hr2.
    destruct (steps_spec actions (with_episode selfT ep0) ep0 [] [] r2 HwfT
                (Forall_nil_2 _) Hall eq_refl
                (proj2 (episode_inv_with_episode _ _ _ _ _) Hinv0) Hr2)
      as (ep' & ms & tss & E & (Hl1 & Hl2 & Hrun) & Hfin).
    exists ep', ms, tss. split; [exact E|]. split.
    - split; [exact Hl1|]. split; [exact Hl2|].
      intros j ts Hj. destruct (Hrun j ts Hj) as (epj & Ets & Hj').
      exists epj. split; [exact Ets|].
      apply (episode_inv_with_episode selfT ep0), Hj'.
    - apply (episode_inv_with_episode selfT ep0), Hfin. }
  apply possible_mbind in Hr as [(x2 & H2 & Hr)|(e & He & _)].
  2:{ destruct (Hrec _ He) as (? & ? & ? & ? & _). discriminate. }
  destruct (Hrec _ H2) as (ep' & ms & tss & E & Hrun & Hfin).
  injection E as ->. cbn [fst snd] in Hr.
  apply possible_mret in Hr as ->.
  exists T, ep0, ep', ms, tss. auto.
Qed.

End Runs.

(** ** Runs return *)

Lemma uniform_nonempty {A} (l : list A) :
  l <> [] -> exists x, possible (uniform l) x.
Proof.
  destruct l as [|x l]; [congruence|]. intros _. exists x.
  apply possible_uniform. apply list_elem_of_here.
Qed.

Lemma np_random_randint_nonempty (low high : Z) :
  exists r, possible (np_random_randint low high) r.
Proof.
  unfold np_random_randint. destruct (low <? high)%Z eqn:Hlt.
  - apply sample_nonempty, uniform_nonempty. apply Z.ltb_lt in Hlt.
    destruct (Z.to_nat (high - low)) as [|n] eqn:E; [lia|]. discriminate.
  - eexists. apply possible_mraise. reflexivity.
Qed.

Lemma make_observation_nonempty (H : Z)
    (history : gmap string (list Tensor3)) :
  exists r, possible (make_observation H history) r.
Proof.
  unfold make_observation. destruct (decide _).
  - apply mret_nonempty.
  - eexists. apply possible_mraise. reflexivity.
Qed.

Section RunsReturn.
Variable expm : nat -> Mat -> Mat.
Variable run : nat -> QuantumTrajectorySim -> list Vec -> dist (list Vec).
Variables K_osc T1_osc discrete_step_duration t_gate t_read t_delay : R.
Variable states : gmap string Vec.
Variable code_map : gmap string C.
Hypothesis run_total :
  forall N sim psi, exists psi', possible (run N sim psi) psi'.

Lemma call_calculate_reward_nonempty (self : GKP) (ep : Episode)
    (obs : Tensor2) (action : Action) :
  exists r, possible (call_calculate_reward expm K_osc T1_osc code_map self
                        ep obs action) r.
Proof.
  unfold call_calculate_reward, reward_zero, reward_stabilizers,
    reward_pauli, reward_mixed.
  destruct (calculate_reward self).
  - apply mret_nonempty.
  - apply M_nonempty_mbind; [apply getitem_nonempty|]. intros ?.
    apply mret_nonempty.
  - destruct (_ <? _)%Z; [apply mret_nonempty|].
    apply M_nonempty_mbind; [apply getitems_nonempty|]. intros ?.
    apply M_nonempty_mbind; [apply getitem_nonempty|]. intros ?.
    apply M_nonempty_mbind; [|intros ?; apply mret_nonempty].
    apply sample_nonempty. unfold phase_estimation.
    apply measurement_nonempty.
  - destruct (_ <? _)%Z; [apply mret_nonempty|].
    apply M_nonempty_mbind;
      [apply sample_nonempty, Bernoulli_sample_nonempty|]. intros ?.
    apply M_nonempty_mbind; [apply getitem_nonempty|]. intros ?.
    apply M_nonempty_mbind; [apply getitem_nonempty|]. intros ?.
    apply M_nonempty_mbind; [apply getitem_nonempty|]. intros ?.
    apply M_nonempty_mbind; [|intros ?; apply mret_nonempty].
    apply sample_nonempty. unfold phase_estimation.
    apply measurement_nonempty.
Qed.

Lemma step_nonempty (self : GKP) (action : Action) :
  exists r, possible (_step expm run K_osc T1_osc discrete_step_duration
                        t_gate t_read t_delay code_map self action) r.
Proof using run_total.
  unfold _step. destruct (episode self) as [ep|].
  2:{ eexists. apply possible_mraise. reflexivity. }
  apply M_nonempty_mbind.
  { apply call_quantum_circuit_nonempty, run_total. }
  intros c. apply M_nonempty_mbind.
  { eexists. apply possible_of_res. reflexivity. }
  intros h. apply M_nonempty_mbind; [apply getitem_nonempty|]. intros msmt.
  apply M_nonempty_mbind; [apply make_observation_nonempty|]. intros o.
  apply M_nonempty_mbind; [apply call_calculate_reward_nonempty|]. intros w.
  apply mret_nonempty.
Qed.

Lemma steps_nonempty (actions : list Action) :
  forall self,
    exists r, possible (steps expm run K_osc T1_osc discrete_step_duration
                          t_gate t_read t_delay code_map self actions) r.
Proof using run_total.
  induction actions as [|a rest IH]; intros self; cbn [steps].
  - apply mret_nonempty.
  - apply M_nonempty_mbind; [apply step_nonempty|]. intros x.
    apply M_nonempty_mbind; [apply IH|]. intros y. apply mret_nonempty.
Qed.

Lemma reset_nonempty (self : GKP) :
  exists r, possible (_reset states self) r.
Proof.
  unfold _reset. apply M_nonempty_mbind.
  { unfold initial_states. destruct (bool_decide _).
    - apply M_nonempty_mbind; [apply getitem_nonempty|]. intros ?.
      apply mret_nonempty.
    - destruct (String.eqb _ _).
      + apply M_nonempty_mbind.
        { apply sample_nonempty, np_random_choice_nonempty. discriminate. }
        intros ?. apply M_nonempty_mbind; [apply getitems_nonempty|].
        intros ?. apply mret_nonempty.
      + destruct (episode self); apply mret_nonempty. }
  intros init. apply M_nonempty_mbind.
  { unfold resample_episode_length.
    destruct (max_episode_length self) as [m|]; [|apply mret_nonempty].
    destruct (m =? 0)%Z; [apply mret_nonempty|].
    apply np_random_randint_nonempty. }
  intros T. apply M_nonempty_mbind; [apply make_observation_nonempty|].
  intros o. apply mret_nonempty.
Qed.

Lemma reset_then_steps_nonempty (self : GKP) (actions : list Action) :
  exists r, possible (reset_then_steps expm run K_osc T1_osc
                        discrete_step_duration t_gate t_read t_delay states
                        code_map self actions) r.
Proof using run_total.
  unfold reset_then_steps. apply M_nonempty_mbind; [apply reset_nonempty|].
  intros x. apply M_nonempty_mbind; [apply steps_nonempty|].
  intros y. apply mret_nonempty.
Qed.

End RunsReturn.

(** ** A small environment *)

Lemma demo_env_init :
  __init__ [kw_N 2; kw_H 2; kw_batch_size (VInt 2); kw_episode_length 3]
  = Ok demo_env.
Proof. reflexivity. Qed.

Lemma demo_run_length N sim psi psi' :
  possible (demo_run N sim psi) psi' -> length psi' = length psi.
Proof. intros H. apply possible_dret in H as ->. reflexivity. Qed.

Lemma demo_run_total N sim psi : exists psi', possible (demo_run N sim psi) psi'.
Proof. exists psi. apply possible_dret. reflexivity. Qed.

Lemma demo_wf_env : wf_env demo_states ∅ demo_env.
Proof.
  split; cbn.
  - lia.
  - apply list_elem_of_here.
  - intros k Hk. unfold cardinal_modes in Hk.
    repeat (apply elem_of_cons in Hk as [->|Hk];
            [eexists; reflexivity|]).
    apply elem_of_nil in Hk. destruct Hk.
  - exact I.
  - reflexivity.
  - exact I.
  - lia.
Qed.

Lemma demo_wf_action : wf_action demo_env demo_action.
Proof.
  assert (Hcases : forall k : string,
            k = "phi" \/ k = "beta" \/ k = "alpha"
            \/ (demo_action !! k = None /\ action_spec demo_env !! k = None)).
  { intros k. destruct (decide (k = "phi")) as [->|H1]; [auto|].
    destruct (decide (k = "beta")) as [->|H2]; [auto|].
    destruct (decide (k = "alpha")) as [->|H3]; [auto|].
    right; right; right. unfold demo_action. cbn.
    rewrite !lookup_insert_ne, !lookup_singleton_ne by congruence. auto. }
  assert (Hphi : demo_action !! "phi" = Some [[0]; [0]])
    by (unfold demo_action; apply lookup_insert_eq).
  assert (Hbeta : demo_action !! "beta" = Some [[0; 0]; [0; 0]]).
  { unfold demo_action. rewrite lookup_insert_ne by discriminate.
    apply lookup_insert_eq. }
  assert (Halpha : demo_action !! "alpha" = Some [[0; 0]; [0; 0]]).
  { unfold demo_action. rewrite !lookup_insert_ne by discriminate.
    apply lookup_singleton_eq. }
  assert (Sphi : action_spec demo_env !! "phi" = Some 1%nat)
    by reflexivity.
  assert (Sbeta : action_spec demo_env !! "beta" = Some 2%nat)
    by reflexivity.
  assert (Salpha : action_spec demo_env !! "alpha" = Some 2%nat)
    by reflexivity.
  split.
  - intros k.
    destruct (Hcases k) as [->|[->|[->|[E1 E2]]]].
    + rewrite Hphi, Sphi. split; eauto.
    + rewrite Hbeta, Sbeta. split; eauto.
    + rewrite Halpha, Salpha. split; eauto.
    + rewrite E1, E2. split; intros (? & ?); discriminate.
  - intros k t d Ht Hd.
    destruct (Hcases k) as [->|[->|[->|[E1 E2]]]]; [| | |congruence].
    + rewrite Hphi in Ht. rewrite Sphi in Hd.
      injection Ht as <-. injection Hd as <-.
      split; [reflexivity|repeat constructor].
    + rewrite Hbeta in Ht. rewrite Sbeta in Hd.
      injection Ht as <-. injection Hd as <-.
      split; [reflexivity|repeat constructor].
    + rewrite Halpha in Ht. rewrite Salpha in Hd.
      injection Ht as <-. injection Hd as <-.
      split; [reflexivity|repeat constructor].
Qed.

(** ** The runs over the first actions of a run *)

Section Prefixes.
Variable expm : nat -> Mat -> Mat.
Variable run : nat -> QuantumTrajectorySim -> list Vec -> dist (list Vec).
Variables K_osc T1_osc discrete_step_duration t_gate t_read t_delay : R.
Variable states : gmap string Vec.
Variable code_map : gmap string C.

Local Abbreviation step :=
  (_step expm run K_osc T1_osc discrete_step_duration t_gate t_read t_delay
         code_map).
Local Abbreviation run_steps :=
  (steps expm run K_osc T1_osc discrete_step_duration t_gate t_read t_delay
         code_map).
Local Abbreviation run_all :=
  (reset_then_steps expm run K_osc T1_osc discrete_step_duration t_gate
                    t_read t_delay states code_map).

(** The time step that [_step] returns is the current one of the episode
    it leaves. *)
Lemma step_current (self : GKP) (action : Action) (env : GKP)
    (ts : TimeStep) :
  possible (step self action) (Ok (env, ts)) ->
  exists ep, episode env = Some ep /\ _current_time_step_ ep = ts.
Proof.
  intros Hr. unfold _step in Hr. destruct (episode self) as [ep|].
  2:{ apply possible_mraise in Hr. discriminate. }
  apply possible_mbind in Hr as [(r1 & _ & Hr)|(e & _ & [=])].
  apply possible_mbind in Hr as [(h1 & _ & Hr)|(e & _ & [=])].
  apply possible_mbind in Hr as [(m1 & _ & Hr)|(e & _ & [=])].
  apply possible_mbind in Hr as [(o1 & _ & Hr)|(e & _ & [=])].
  apply possible_mbind in Hr as [(rw & _ & Hr)|(e & _ & [=])].
  apply possible_mret in Hr. injection Hr as -> ->.
  eexists. split; reflexivity.
Qed.

(** A run of steps returns one time step per action, the last of which is
    the current one of the episode it leaves. *)
Lemma steps_current (actions : list Action) :
  forall self env tss,
    possible (run_steps self actions) (Ok (env, tss)) ->
    length tss = length actions
    /\ match actions with
       | [] => env = self
       | _ :: _ =>
           exists ep, episode env = Some ep
                      /\ last tss = Some (_current_time_step_ ep)
       end.
Proof.
  induction actions as [|a rest IH]; intros self env tss Hr;
    cbn [steps] in Hr.
  - apply possible_mret in Hr. injection Hr as -> ->. auto.
  - apply possible_mbind in Hr as [([env1 ts1] & H1 & Hr)|(e & _ & [=])].
    apply possible_mbind in Hr as [([env2 tss2] & H2 & Hr)|(e & _ & [=])].
    apply possible_mret in Hr. cbn [fst snd] in *. injection Hr as -> ->.
    destruct (IH _ _ _ H2) as [Hlen Hlast].
    split; [cbn; rewrite Hlen; reflexivity|].
    destruct rest as [|b rest].
    + subst env2. destruct tss2; [|discriminate].
      destruct (step_current _ _ _ _ H1) as (ep & Hep & Hts).
      exists ep. split; [exact Hep|]. cbn. rewrite Hts. reflexivity.
    + destruct Hlast as (ep & Hep & Hts). exists ep. split; [exact Hep|].
      rewrite last_cons, Hts. reflexivity.
Qed.

(** A run over [l1 ++ l2] is a run over [l1] followed by a run over
    [l2]. *)
Lemma steps_app_Ok (l1 l2 : list Action) :
  forall self env tss,
    possible (run_steps self (l1 ++ l2)) (Ok (env, tss)) ->
    exists env1 tss1 tss2,
      possible (run_steps self l1) (Ok (env1, tss1))
      /\ possible (run_steps env1 l2) (Ok (env, tss2))
      /\ tss = tss1 ++ tss2.
Proof.
  induction l1 as [|a l1 IH]; intros self env tss Hr.
  - exists self, [], tss. split; [apply possible_mret; reflexivity|].
    split; [exact Hr|reflexivity].
  - cbn [app steps] in Hr.
    apply possible_mbind in Hr as [([env1 ts1] & H1 & Hr)|(e & _ & [=])].
    apply possible_mbind in Hr as [([env2 tss2] & H2 & Hr)|(e & _ & [=])].
    apply possible_mret in Hr. cbn [fst snd] in *. injection Hr as -> ->.
    destruct (IH _ _ _ H2) as (envm & t1 & t2 & Ha & Hb & ->).
    exists envm, (ts1 :: t1), t2. split; [|split; [exact Hb|reflexivity]].
    cbn [steps]. apply possible_mbind. left. exists (env1, ts1).
    split; [exact H1|]. apply possible_mbind. left. exists (envm, t1).
    split; [exact Ha|]. apply possible_mret. reflexivity.
Qed.

(** The run over the first [k] actions of a run. *)
Lemma reset_then_steps_prefix (self : GKP) (actions : list Action)
    (env : GKP) (first : TimeStep) (tss : list TimeStep) (k : nat) :
  possible (run_all self actions) (Ok (env, first, tss)) ->
  (k <= length actions)%nat ->
  exists env0 env_k,
    possible (_reset states self) (Ok (env0, first))
    /\ possible (run_steps env0 (take k actions)) (Ok (env_k, take k tss))
    /\ possible (run_steps env_k (drop k actions)) (Ok (env, drop k tss))
    /\ possible (run_all self (take k actions)) (Ok (env_k, first, take k tss)).
Proof.
  intros Hr Hk. unfold reset_then_steps in Hr.
  apply possible_mbind in Hr as [([env0 ts0] & H0 & Hr)|(e & _ & [=])].
  apply possible_mbind in Hr as [([env1 tss1] & H1 & Hr)|(e & _ & [=])].
  apply possible_mret in Hr. cbn [fst snd] in *.
  injection Hr as Ee Ef Et. subst env1 ts0 tss1.
  rewrite <- (take_drop k actions) in H1.
  destruct (steps_app_Ok _ _ _ _ _ H1) as (env_k & t1 & t2 & Ha & Hb & ->).
  destruct (steps_current _ _ _ _ Ha) as [Hlen _].
  rewrite length_take in Hlen.
  assert (Hl : length t1 = k) by lia.
  assert (E1 : take k (t1 ++ t2) = t1).
  { rewrite take_app_le by lia. apply take_ge. lia. }
  assert (E2 : drop k (t1 ++ t2) = t2).
  { rewrite drop_app_ge by lia. rewrite Hl, Nat.sub_diag. reflexivity. }
  rewrite take_drop in *. rewrite E1, E2.
  exists env0, env_k. split; [exact H0|]. split; [exact Ha|].
  split; [exact Hb|].
  unfold reset_then_steps. apply possible_mbind. left. exists (env0, first).
  split; [exact H0|]. apply possible_mbind. left. exists (env_k, t1).
  split; [exact Ha|]. apply possible_mret. reflexivity.
Qed.

End Prefixes.

(** ** Termination of an episode *)

Lemma take_S_length {A} (j : nat) (l : list A) :
  (j < length l)%nat -> length (take (S j) l) = S j.
Proof. intros Hj. rewrite length_take. lia. Qed.

Lemma take_S_nonempty {A} (j : nat) (l : list A) :
  (j < length l)%nat -> take (S j) l <> [].
Proof.
  intros Hj E. apply (f_equal length) in E.
  rewrite take_S_length in E by exact Hj. discriminate.
Qed.

(** C7.  A reset followed by steps returns.  After the reset the
    environment's elapsed-step counter is [0], its terminal flag is cleared
    and the time step is the first one; after the [k]-th call of [_step]
    the counter is [k], and the flag is set, and the time step returned is
    a terminal one, exactly when [k] equals the episode length.  The
    counter and the flag are those of the environment that the run over
    the first [k] actions leaves. *)
Theorem episode_termination
    (expm : nat -> Mat -> Mat)
    (run : nat -> QuantumTrajectorySim -> list Vec -> dist (list Vec))
    (K_osc T1_osc discrete_step_duration t_gate t_read t_delay : R)
    (states : gmap string Vec) (code_map : gmap string C)
    (self : GKP) (actions : list Action) :
  (forall N sim psi psi',
     possible (run N sim psi) psi' -> length psi' = length psi) ->
  (forall N sim psi, exists psi', possible (run N sim psi) psi') ->
  wf_env states code_map self ->
  Forall (wf_action self) actions ->
  (exists r,
     possible (reset_then_steps expm run K_osc T1_osc discrete_step_duration
                 t_gate t_read t_delay states code_map self actions) r)
  /\ forall r,
       possible (reset_then_steps expm run K_osc T1_osc
                   discrete_step_duration t_gate t_read t_delay states
                   code_map self actions) r ->
       exists env first tss,
         r = Ok (env, first, tss)
         /\ length tss = length actions
         /\ forall k, (k <= length actions)%nat ->
              exists env_k ep_k,
                possible (reset_then_steps expm run K_osc T1_osc
                            discrete_step_duration t_gate t_read t_delay
                            states code_map self (take k actions))
                         (Ok (env_k, first, take k tss))
                /\ (k = length actions -> env_k = env)
                /\ episode_length env_k = episode_length env
                /\ episode env_k = Some ep_k
                /\ _elapsed_steps ep_k = Z.of_nat k
                /\ match k with
                   | O =>
                       _episode_ended ep_k = false
                       /\ _current_time_step_ ep_k = first
                       /\ step_type first = FIRST
                   | S j =>
                       _episode_ended ep_k
                       = (Z.of_nat k =? episode_length env)%Z
                       /\ tss !! j = Some (_current_time_step_ ep_k)
                       /\ step_type (_current_time_step_ ep_k)
                          = if (Z.of_nat k =? episode_length env)%Z
                            then LAST else MID
                   end.
Proof.
  intros Hlen Htot Hwf Hall. split.
  { apply reset_then_steps_nonempty, Htot. }
  intros r Hr.
  destruct (reset_then_steps_spec expm run K_osc T1_osc
              discrete_step_duration t_gate t_read t_delay states code_map
              Hlen self actions r Hwf Hall Hr)
    as (T & ep0 & ep' & ms & tss & -> & _ & _ & (_ & Hl2 & _) & _).
  eexists _, _, tss. split; [reflexivity|]. split; [exact Hl2|].
  intros k Hk.
  destruct (reset_then_steps_prefix expm run K_osc T1_osc
              discrete_step_duration t_gate t_read t_delay states code_map
              self actions _ _ tss k Hr Hk)
    as (env0 & env_k & H0 & Ha & Hb & Hpre).
  destruct (reset_spec states code_map self _ Hwf H0)
    as (T0 & e0 & E0 & _ & Hinv0).
  injection E0 as -> Hfirst.
  set (selfT := with_episode_length self T0) in *.
  assert (HwfT : wf_env states code_map (with_episode selfT e0)).
  { apply wf_env_with_episode, wf_env_with_episode_length, Hwf. }
  assert (Hallk : Forall (wf_action (with_episode selfT e0))
                         (take k actions)).
  { apply Forall_take, Hall. }
  destruct (steps_spec expm run K_osc T1_osc discrete_step_duration t_gate
              t_read t_delay states code_map Hlen (take k actions)
              (with_episode selfT e0) e0 [] [] _ HwfT (Forall_nil_2 _) Hallk
              eq_refl (proj2 (episode_inv_with_episode _ _ _ _ _) Hinv0) Ha)
    as (ep_k & ms_k & tss_k & E & _ & Hinvk).
  injection E as -> _.
  apply (episode_inv_with_episode selfT e0) in Hinvk. cbn [app] in Hinvk.
  (* the whole run ends with the same episode length *)
  assert (HT : episode_length
                 (with_episode (with_episode_length self T) ep') = T0).
  { assert (Halld : Forall (wf_action (with_episode (with_episode selfT e0)
                                                     ep_k))
                           (drop k actions)).
    { apply Forall_drop, Hall. }
    destruct (steps_spec expm run K_osc T1_osc discrete_step_duration t_gate
                t_read t_delay states code_map Hlen (drop k actions)
                (with_episode (with_episode selfT e0) ep_k) ep_k
                (take k actions) ms_k _
                (wf_env_with_episode _ _ _ _ HwfT)
                Hallk Halld eq_refl
                (proj2 (episode_inv_with_episode _ _ _ _ _)
                   (proj2 (episode_inv_with_episode selfT e0 _ _ _) Hinvk))
                Hb)
      as (epd & msd & tssd & E & _).
    injection E as E _. rewrite E. reflexivity. }
  exists (with_episode (with_episode selfT e0) ep_k), ep_k.
  split; [exact Hpre|]. split.
  { intros ->. rewrite drop_all in Hb. cbn [steps] in Hb.
    apply possible_mret in Hb. congruence. }
  split; [rewrite HT; reflexivity|]. split; [reflexivity|].
  pose proof (inv_elapsed _ _ _ _ Hinvk) as E1.
  pose proof (inv_ended _ _ _ _ Hinvk) as E2.
  pose proof (inv_step_type _ _ _ _ Hinvk) as E3.
  rewrite length_take, Nat.min_l in E1, E2, E3 by exact Hk.
  split; [exact E1|]. rewrite HT.
  destruct k as [|j].
  - change (take 0 actions) with (@nil Action) in *.
    cbn [steps] in Ha. apply possible_mret in Ha.
    injection Ha as Ek.
    destruct (decide (@nil Action = [])) as [_|Hn]; [|contradiction].
    subst ep_k. split; [exact E2|]. split; [symmetry; exact Hfirst|].
    rewrite Hfirst. exact E3.
  - destruct (decide (take (S j) actions = [])) as [E|_].
    { exfalso. apply (f_equal length) in E.
      rewrite length_take, Nat.min_l in E by lia. discriminate. }
    cbn [episode_length with_episode with_episode_length selfT] in E2, E3.
    split; [exact E2|]. split; [|exact E3].
    destruct (steps_current expm run K_osc T1_osc discrete_step_duration
                t_gate t_read t_delay code_map _ _ _ _ Ha) as [Hl Hlast].
    destruct (take (S j) actions) as [|a0 rest0] eqn:Etake.
    { apply (f_equal length) in Etake.
      rewrite length_take, Nat.min_l in Etake by lia. discriminate. }
    destruct Hlast as (ep & Hep & Hts). cbn in Hep. injection Hep as <-.
    rewrite last_lookup in Hts.
    rewrite length_take, Nat.min_l in Hts by lia. cbn [pred] in Hts.
    rewrite lookup_take_lt in Hts by lia. exact Hts.
Qed.

Lemma episode_termination_witness :
  let actions := [demo_action; demo_action; demo_action] in
  (exists r,
     possible (reset_then_steps demo_expm demo_run 1 1 1 1 1 1 demo_states ∅
                 demo_env actions) r)
  /\ forall r,
       possible (reset_then_steps demo_expm demo_run 1 1 1 1 1 1 demo_states
                   ∅ demo_env actions) r ->
       exists env first tss,
         r = Ok (env, first, tss)
         /\ length tss = length actions
         /\ forall k, (k <= length actions)%nat ->
              exists env_k ep_k,
                possible (reset_then_steps demo_expm demo_run 1 1 1 1 1 1
                            demo_states ∅ demo_env (take k actions))
                         (Ok (env_k, first, take k tss))
                /\ (k = length actions -> env_k = env)
                /\ episode_length env_k = episode_length env
                /\ episode env_k = Some ep_k
                /\ _elapsed_steps ep_k = Z.of_nat k
                /\ match k with
                   | O =>
                       _episode_ended ep_k = false
                       /\ _current_time_step_ ep_k = first
                       /\ step_type first = FIRST
                   | S j =>
                       _episode_ended ep_k
                       = (Z.of_nat k =? episode_length env)%Z
                       /\ tss !! j = Some (_current_time_step_ ep_k)
                       /\ step_type (_current_time_step_ ep_k)
                          = if (Z.of_nat k =? episode_length env)%Z
                            then LAST else MID
                   end.
Proof.
  apply (episode_termination demo_expm demo_run 1 1 1 1 1 1 demo_states ∅
           demo_env [demo_action; demo_action; demo_action]
           demo_run_length demo_run_total demo_wf_env).
  repeat (constructor; [exact demo_wf_action|]). constructor.
Defined.

(** ** The horizon of the history *)

Lemma observation_of_entries (self : GKP) (acts : list Action)
    (ms : list Tensor2) (obs : gmap string Tensor3) :
  observation_of self acts ms obs ->
  (forall key, is_Some (obs !! key)
               <-> key = "msmt" \/ is_Some (action_spec self !! key))
  /\ forall key t bi,
       obs !! key = Some t -> (bi < batch_size self)%nat ->
       length (slice bi t) = Z.to_nat (self_H self).
Proof.
  intros Hobs. split.
  - intros key. rewrite <- prefill_is_Some. specialize (Hobs key).
    destruct (prefill self key) as [p|].
    + destruct Hobs as (t & -> & _). split; eauto.
    + rewrite Hobs. split; intros (? & ?); discriminate.
  - intros key t bi Ht Hbi. specialize (Hobs key).
    destruct (prefill self key) as [p|]; [|congruence].
    destruct Hobs as (t' & Ht' & _ & Hsl). rewrite Ht in Ht'.
    injection Ht' as <-. rewrite (Hsl bi Hbi). apply window_length.
Qed.



(** ** The resampled episode length *)

Lemma mass_mraise {A} (e : exn) : mass (@mraise A e) = 1.
Proof. apply mass_dret. Qed.

Lemma mass_mbind {A B} (m : M A) (f : A -> M B) :
  (forall x, possible m (Ok x) -> mass (f x) = 1) ->
  mass (mbind m f) = mass m.
Proof.
  intros Hf. unfold mbind. apply mass_dbind.
  intros [x|e] Hx; [apply Hf, Hx | apply mass_mraise].
Qed.

Lemma mass_sample {A} (d : dist A) : mass (sample d) = mass d.
Proof.
  unfold mass, sample. induction d as [|[p x] d IH]; [reflexivity|].
  rewrite fmap_cons, !Pr_cons, IH. reflexivity.
Qed.

Lemma mass_getitem {A} (d : gmap string A) (k : string) :
  mass (getitem d k) = 1.
Proof. unfold getitem. destruct (d !! k); apply mass_dret. Qed.

Lemma mass_getitems {A} (d : gmap string A) (ks : list string) :
  mass (getitems d ks) = 1.
Proof.
  induction ks as [|k ks IH]; cbn [getitems]; [apply mass_dret|].
  rewrite mass_mbind; [apply mass_getitem|]. intros x _.
  rewrite mass_mbind; [exact IH|]. intros xs _. apply mass_dret.
Qed.

Lemma Pr_uniform_weight {A} (w : R) (l : list A) (E : A -> bool) :
  Pr ((fun x => (w, x)) <$> l) E
  = w * foldr (fun x acc => (if E x then 1 else 0) + acc) 0 l.
Proof.
  induction l as [|x l IH]; [rewrite fmap_nil, Pr_nil; cbn; ring|].
  rewrite fmap_cons, Pr_cons, IH. cbn [foldr]. destruct (E x); ring.
Qed.

Lemma mass_uniform {A} (l : list A) : l <> [] -> mass (uniform l) = 1.
Proof.
  intros Hne. unfold mass, uniform. rewrite Pr_uniform_weight.
  assert (E : foldr (fun (_ : A) acc => 1 + acc) 0 l = INR (length l)).
  { clear Hne. induction l as [|x l IH]; [reflexivity|].
    cbn [foldr length]. rewrite IH, S_INR. ring. }
  rewrite E. field. apply not_0_INR. destruct l; [congruence|discriminate].
Qed.

Lemma mass_np_random_choice {A} (options : list A) (size : nat) :
  options <> [] -> mass (np_random_choice options size) = 1.
Proof.
  intros Hne. induction size as [|n IH]; cbn [np_random_choice].
  - apply mass_dret.
  - rewrite mass_dbind; [apply mass_uniform, Hne|]. intros x _.
    rewrite mass_dbind; [exact IH|]. intros xs _. apply mass_dret.
Qed.

Lemma mass_initial_states (states : gmap string Vec) (self : GKP) :
  mass (initial_states states self) = 1.
Proof.
  unfold initial_states. destruct (bool_decide _).
  - rewrite mass_mbind; [apply mass_getitem|]. intros ? _. apply mass_dret.
  - destruct (String.eqb _ _).
    + rewrite mass_mbind.
      * rewrite mass_sample. apply mass_np_random_choice. discriminate.
      * intros ? _. rewrite mass_mbind; [apply mass_getitems|].
        intros ? _. apply mass_dret.
    + destruct (episode self); apply mass_dret.
Qed.

Lemma Pr_mbind_mret {A B} (x : A) (f : A -> M B) (E : res B -> bool) :
  Pr (mbind (mret x) f) E = Pr (f x) E.
Proof.
  unfold mbind, mret, dret. rewrite Pr_dbind_cons, Pr_dbind_nil. ring.
Qed.

Lemma Pr_mret {A} (x : A) (E : res A -> bool) :
  Pr (mret x) E = if E (Ok x) then 1 else 0.
Proof. apply Pr_dret. Qed.

(** The probability of an event after a uniform draw. *)
Lemma Pr_uniform_bind {A B} (l : list A) (g : res A -> M B)
    (E : res B -> bool) :
  Pr (dbind (sample (uniform l)) g) E
  = 1 / INR (length l) * foldr (fun x acc => Pr (g (Ok x)) E + acc) 0 l.
Proof.
  unfold sample, uniform. rewrite <- list_fmap_compose.
  generalize (1 / INR (length l)). intros w.
  induction l as [|x l IH]; [rewrite fmap_nil, Pr_dbind_nil; cbn; ring|].
  rewrite fmap_cons. unfold compose at 1. cbn [fst snd].
  rewrite Pr_dbind_cons, IH. cbn [foldr]. ring.
Qed.

Lemma sum_ext {A} (f g : A -> R) (l : list A) :
  (forall x, f x = g x) ->
  foldr (fun x acc => f x + acc) 0 l = foldr (fun x acc => g x + acc) 0 l.
Proof.
  intros H. induction l as [|x l IH]; [reflexivity|].
  cbn [foldr]. rewrite IH, H. reflexivity.
Qed.

(** Exactly one item of an interval of integers is a given member. *)
Lemma count_in_interval (low L : Z) (n : nat) :
  forall s : nat,
    foldr (fun x acc => (if (x =? L)%Z then 1 else 0) + acc) 0
          ((fun k => (low + Z.of_nat k)%Z) <$> seq s n)
    = if decide (low + Z.of_nat s <= L < low + Z.of_nat s + Z.of_nat n)%Z
      then 1 else 0.
Proof.
  induction n as [|n IH]; intros s.
  - cbn. destruct (decide _); [lia|reflexivity].
  - cbn [seq]. rewrite fmap_cons. cbn [foldr]. rewrite IH.
    destruct (low + Z.of_nat s =? L)%Z eqn:E.
    + apply Z.eqb_eq in E.
      destruct (decide _); [lia|]. destruct (decide _); [ring|lia].
    + apply Z.eqb_neq in E.
      destruct (decide _); destruct (decide _); try lia; ring.
Qed.

Section Resample.
Variable states : gmap string Vec.
Variable code_map : gmap string C.

Lemma Pr_reset_length (self : GKP) (m L : Z) :
  wf_env states code_map self ->
  max_episode_length self = Some m -> m <> 0%Z ->
  (1 <= L < m)%Z ->
  Pr (_reset states self) (reset_length_is L) = 1 / IZR (m - 1).
Proof.
  intros Hwf Hmax Hm0 HL.
  assert (Hm2 : (2 <= m)%Z).
  { pose proof (wf_max _ _ _ Hwf) as H. rewrite Hmax in H. lia. }
  unfold _reset, mbind at 1.
  rewrite (Pr_dbind_const _ _ _ (1 / IZR (m - 1))).
  { fold (mass (initial_states states self)).
    rewrite mass_initial_states. ring. }
  intros r0 Hr0.
  destruct (initial_states_spec _ _ _ _ Hwf Hr0) as (psi & orig & -> & _).
  unfold resample_episode_length. rewrite Hmax.
  replace (m =? 0)%Z with false by (symmetry; apply Z.eqb_neq, Hm0).
  unfold np_random_randint.
  replace (1 <? m)%Z with true by (symmetry; apply Z.ltb_lt; lia).
  unfold mbind at 1. rewrite Pr_uniform_bind.
  rewrite (sum_ext _ (fun x => if (x =? L)%Z then 1 else 0)).
  - rewrite count_in_interval. destruct (decide _); [|lia].
    rewrite length_fmap, length_seq, INR_IZR_INZ, Z2Nat.id by lia. ring.
  - intros T.
    set (selfT := with_episode_length self T).
    assert (Hobs : forall r',
              possible (make_observation (self_H selfT)
                          (initial_history selfT)) r' ->
              exists obs, r' = Ok obs /\ observation_of selfT [] [] obs).
    { intros r'. apply make_observation_spec.
      - apply (wf_H _ _ _ Hwf).
      - constructor.
      - constructor.
      - apply initial_history_lookup. }
    unfold make_observation in *. destruct (decide _) as [Hd|Hd].
    + rewrite Pr_mbind_mret, Pr_mret. cbn. reflexivity.
    + destruct (Hobs (Raise (ValueError "concat"))) as (? & ? & _);
        [apply possible_mraise; reflexivity|discriminate].
Qed.

End Resample.

Lemma resampling_env_init :
  __init__ [kw_N 2; kw_H 2; kw_batch_size (VInt 2); kw_episode_length 3;
            kw_max_episode_length (Some 4%Z)]
  = Ok resampling_env.
Proof. reflexivity. Qed.

Lemma zero_max_env_init :
  __init__ [kw_N 2; kw_H 2; kw_batch_size (VInt 2); kw_episode_length 3;
            kw_max_episode_length (Some 0%Z)]
  = Ok zero_max_env.
Proof. reflexivity. Qed.

Lemma wf_env_max (self : GKP) (m : option Z) :
  wf_env demo_states ∅ self ->
  match m with None => True | Some m => m = 0%Z \/ (2 <= m)%Z end ->
  wf_env demo_states ∅ (with_max_episode_length self m).
Proof. intros [? ? ? ? ? ? ?] Hm. split; assumption. Qed.

Lemma resampling_wf_env : wf_env demo_states ∅ resampling_env.
Proof.
  apply (wf_env_max demo_env (Some 4%Z) demo_wf_env). right. lia.
Qed.

Lemma zero_max_wf_env : wf_env demo_states ∅ zero_max_env.
Proof.
  apply (wf_env_max demo_env (Some 0%Z) demo_wf_env). left. reflexivity.
Qed.

(** An environment that is well formed once [max_episode_length] is reset
    to [None] is well formed with every [max_episode_length] that
    [randint] accepts. *)
Lemma wf_env_any_max (states : gmap string Vec) (code_map : gmap string C)
    (self : GKP) :
  wf_env states code_map (with_max_episode_length self None) ->
  match max_episode_length self with
  | None => True
  | Some m => m = 0%Z \/ (2 <= m)%Z
  end ->
  wf_env states code_map self.
Proof. intros [? ? ? ? ? ? ?] Hm. split; assumption. Qed.

(** With a [max_episode_length] that is neither [0] nor at least [2],
    [_reset] raises where it resamples the episode length. *)
Lemma reset_raises (states : gmap string Vec) (code_map : gmap string C)
    (self : GKP) (m : Z) (r : res (GKP * TimeStep)) :
  wf_env states code_map (with_max_episode_length self None) ->
  max_episode_length self = Some m -> m <> 0%Z -> (m < 2)%Z ->
  possible (_reset states self) r ->
  r = Raise (ValueError "low >= high").
Proof.
  intros Hwf Hmax Hm0 Hm2 Hr. unfold _reset in Hr.
  apply possible_mbind in Hr as [(init & Hi & Hr)|(e & He & _)].
  2:{ destruct (initial_states_spec states code_map
                  (with_max_episode_length self None) _ Hwf He)
        as (? & ? & ? & _). discriminate. }
  apply possible_mbind in Hr as [(T & HT & _)|(e & He & ->)].
  - unfold resample_episode_length in HT. rewrite Hmax in HT.
    replace (m =? 0)%Z with false in HT by (symmetry; apply Z.eqb_neq, Hm0).
    apply possible_np_random_randint in HT.
    replace (1 <? m)%Z with false in HT by (symmetry; apply Z.ltb_ge; lia).
    discriminate.
  - unfold resample_episode_length in He. rewrite Hmax in He.
    replace (m =? 0)%Z with false in He by (symmetry; apply Z.eqb_neq, Hm0).
    apply possible_np_random_randint in He.
    replace (1 <? m)%Z with false in He by (symmetry; apply Z.ltb_ge; lia).
    injection He as ->. reflexivity.
Qed.

Lemma one_max_env_init :
  __init__ [kw_N 2; kw_H 2; kw_batch_size (VInt 2); kw_episode_length 3;
            kw_max_episode_length (Some 1%Z)]
  = Ok one_max_env.
Proof. reflexivity. Qed.

(** C10, as the code has it.  The test of [_reset] is the truth value of
    [max_episode_length].  With [None] or [0] a reset leaves the episode
    length as it was.  With a value of at least [2], [_reset] draws the
    episode length uniformly from the integers [1] to
    [max_episode_length - 1]: each of them has probability
    [1 / (max_episode_length - 1)], every reset returns with one of them as
    the episode length and leaves the environment ready for the next reset,
    and in the steps that follow a terminal time step is returned by the
    call of that number only, which is less than [max_episode_length].
    With any other value ([1] or a negative one) every reset raises the
    [ValueError] of [randint]. *)
Theorem episode_length_resampled
    (expm : nat -> Mat -> Mat)
    (run : nat -> QuantumTrajectorySim -> list Vec -> dist (list Vec))
    (K_osc T1_osc discrete_step_duration t_gate t_read t_delay : R)
    (states : gmap string Vec) (code_map : gmap string C)
    (self : GKP) (actions : list Action) :
  (forall N sim psi psi',
     possible (run N sim psi) psi' -> length psi' = length psi) ->
  (forall N sim psi, exists psi', possible (run N sim psi) psi') ->
  wf_env states code_map (with_max_episode_length self None) ->
  Forall (wf_action self) actions ->
  (exists r, possible (_reset states self) r)
  /\ (max_episode_length self = None \/ max_episode_length self = Some 0%Z ->
      forall r, possible (_reset states self) r ->
        exists env ts,
          r = Ok (env, ts) /\ episode_length env = episode_length self)
  /\ (forall m, max_episode_length self = Some m -> m <> 0%Z -> (m < 2)%Z ->
      forall r, possible (_reset states self) r ->
        r = Raise (ValueError "low >= high"))
  /\ (forall m, max_episode_length self = Some m -> (2 <= m)%Z ->
      (forall L, (1 <= L <= m - 1)%Z ->
         Pr (_reset states self) (reset_length_is L) = 1 / IZR (m - 1))
      /\ (forall r, possible (_reset states self) r ->
            exists env ts,
              r = Ok (env, ts)
              /\ (1 <= episode_length env <= m - 1)%Z
              /\ max_episode_length env = Some m
              /\ wf_env states code_map env)
      /\ (exists r,
            possible (reset_then_steps expm run K_osc T1_osc
                        discrete_step_duration t_gate t_read t_delay states
                        code_map self actions) r)
      /\ forall r,
           possible (reset_then_steps expm run K_osc T1_osc
                       discrete_step_duration t_gate t_read t_delay states
                       code_map self actions) r ->
           exists env first tss,
             r = Ok (env, first, tss)
             /\ (1 <= episode_length env <= m - 1)%Z
             /\ length tss = length actions
             /\ forall j ts, tss !! j = Some ts ->
                  (step_type ts = LAST
                   <-> Z.of_nat (S j) = episode_length env)
                  /\ (step_type ts = LAST -> (Z.of_nat (S j) < m)%Z)).
Proof.
  intros Hlen Htot Hwf0 Hall.
  split; [apply reset_nonempty|]. split; [|split].
  - intros Hmax r Hr.
    assert (Hwf : wf_env states code_map self).
    { apply wf_env_any_max; [exact Hwf0|].
      destruct Hmax as [-> | ->]; [exact I|left; reflexivity]. }
    destruct (reset_spec states code_map self r Hwf Hr)
      as (T & ep & -> & HT & _).
    eexists _, _. split; [reflexivity|].
    cbn [episode_length with_episode with_episode_length].
    destruct Hmax as [E|E]; rewrite E in HT; exact HT.
  - intros m Hmax Hm0 Hm2 r Hr.
    exact (reset_raises states code_map self m r Hwf0 Hmax Hm0 Hm2 Hr).
  - intros m Hmax Hm2.
    assert (Hm0 : m <> 0%Z) by lia.
    assert (Hwf : wf_env states code_map self).
    { apply wf_env_any_max; [exact Hwf0|]. rewrite Hmax. right. exact Hm2. }
    split; [|split; [|split]].
    + intros L HL.
      apply (Pr_reset_length states code_map self m L Hwf Hmax Hm0). lia.
    + intros r Hr.
      destruct (reset_spec states code_map self r Hwf Hr)
        as (T & ep & -> & HT & _).
      rewrite Hmax in HT.
      replace (m =? 0)%Z with false in HT
        by (symmetry; apply Z.eqb_neq, Hm0).
      eexists _, _. split; [reflexivity|].
      cbn [episode_length max_episode_length with_episode
           with_episode_length].
      split; [lia|]. split; [exact Hmax|].
      apply wf_env_with_episode, wf_env_with_episode_length, Hwf.
    + apply reset_then_steps_nonempty, Htot.
    + intros r Hr.
      destruct (reset_then_steps_spec expm run K_osc T1_osc
                  discrete_step_duration t_gate t_read t_delay states
                  code_map Hlen self actions r Hwf Hall Hr)
        as (T & ep0 & ep' & ms & tss & -> & HT & Hinv0
            & (Hl1 & Hl2 & Hrun) & _).
      rewrite Hmax in HT.
      replace (m =? 0)%Z with false in HT
        by (symmetry; apply Z.eqb_neq, Hm0).
      eexists _, _, tss. split; [reflexivity|].
      cbn [episode_length with_episode with_episode_length].
      split; [lia|]. split; [exact Hl2|].
      intros j ts Hj. destruct (Hrun j ts Hj) as (epj & -> & Hinvj).
      assert (Hjlt : (j < length actions)%nat).
      { rewrite <- Hl2. eapply lookup_lt_Some, Hj. }
      cbn [app] in Hinvj.
      pose proof (inv_step_type _ _ _ _ Hinvj) as E3.
      rewrite take_S_length in E3 by exact Hjlt.
      destruct (decide (take (S j) actions = [])) as [E|_].
      { exfalso. exact (take_S_nonempty _ _ Hjlt E). }
      cbn [episode_length with_episode with_episode_length] in E3.
      rewrite E3.
      destruct (Z.of_nat (S j) =? T)%Z eqn:ET.
      * apply Z.eqb_eq in ET. split; [tauto|]. intros _. lia.
      * apply Z.eqb_neq in ET. split; [|discriminate].
        split; [discriminate|]. intros E. contradiction.
Qed.

Lemma episode_length_resampled_witness :
  let actions := [demo_action; demo_action; demo_action] in
  ((exists r, possible (_reset demo_states zero_max_env) r)
   /\ forall r, possible (_reset demo_states zero_max_env) r ->
        exists env ts,
          r = Ok (env, ts)
          /\ episode_length env = episode_length zero_max_env)
  /\ ((exists r, possible (_reset demo_states one_max_env) r)
      /\ forall r, possible (_reset demo_states one_max_env) r ->
           r = Raise (ValueError "low >= high"))
  /\ (forall L, (1 <= L <= 4 - 1)%Z ->
        Pr (_reset demo_states resampling_env) (reset_length_is L)
        = 1 / IZR (4 - 1))
  /\ (forall r, possible (_reset demo_states resampling_env) r ->
        exists env ts,
          r = Ok (env, ts)
          /\ (1 <= episode_length env <= 4 - 1)%Z
          /\ max_episode_length env = Some 4%Z
          /\ wf_env demo_states ∅ env)
  /\ (exists r,
        possible (reset_then_steps demo_expm demo_run 1 1 1 1 1 1
                    demo_states ∅ resampling_env actions) r)
  /\ forall r,
       possible (reset_then_steps demo_expm demo_run 1 1 1 1 1 1
                   demo_states ∅ resampling_env actions) r ->
       exists env first tss,
         r = Ok (env, first, tss)
         /\ (1 <= episode_length env <= 4 - 1)%Z
         /\ length tss = length actions
         /\ forall j ts, tss !! j = Some ts ->
              (step_type ts = LAST
               <-> Z.of_nat (S j) = episode_length env)
              /\ (step_type ts = LAST -> (Z.of_nat (S j) < 4)%Z).
Proof.
  intros actions.
  assert (Hacts : Forall (wf_action demo_env) actions).
  { repeat (constructor; [exact demo_wf_action|]). constructor. }
  destruct (episode_length_resampled demo_expm demo_run 1 1 1 1 1 1
              demo_states ∅ zero_max_env actions demo_run_length
              demo_run_total demo_wf_env Hacts) as (Hex0 & Hzero & _ & _).
  destruct (episode_length_resampled demo_expm demo_run 1 1 1 1 1 1
              demo_states ∅ one_max_env actions demo_run_length
              demo_run_total demo_wf_env Hacts) as (Hex1 & _ & Hone & _).
  destruct (episode_length_resampled demo_expm demo_run 1 1 1 1 1 1
              demo_states ∅ resampling_env actions demo_run_length
              demo_run_total demo_wf_env Hacts) as (_ & _ & _ & Hfour).
  split; [split; [exact Hex0|]|].
  { apply Hzero. right. reflexivity. }
  split; [split; [exact Hex1|]|].
  { apply (Hone 1%Z); [reflexivity|discriminate|lia]. }
  apply (Hfour 4%Z); [reflexivity|lia].
Defined.

(** C10, the claim as stated, fails: with [max_episode_length = 0], which
    is not [None], the test of [_reset] fails and every reset returns with
    the episode length [3] it was given, which is not between [1] and
    [-1]. *)
Lemma resampling_skipped_at_zero :
  max_episode_length zero_max_env = Some 0%Z
  /\ (exists r, possible (_reset demo_states zero_max_env) r)
  /\ (forall r, possible (_reset demo_states zero_max_env) r ->
        exists env ts, r = Ok (env, ts) /\ episode_length env = 3%Z)
  /\ ~ resampled_below_max demo_states zero_max_env.
Proof.
  assert (Hall : forall r, possible (_reset demo_states zero_max_env) r ->
            exists env ts, r = Ok (env, ts) /\ episode_length env = 3%Z).
  { intros r Hr.
    destruct (reset_spec demo_states ∅ zero_max_env r zero_max_wf_env Hr)
      as (T & ep & -> & HT & _).
    cbn in HT. subst T. eexists _, _. split; reflexivity. }
  split; [reflexivity|]. split; [apply reset_nonempty|].
  split; [exact Hall|].
  intros H. destruct (reset_nonempty demo_states zero_max_env) as (r & Hr).
  destruct (H 0%Z eq_refl r Hr) as (env & ts & E & Hrange).
  destruct (Hall r Hr) as (env' & ts' & E' & Hlen).
  rewrite E in E'. injection E' as -> ->. lia.
Qed.

(** ** The setters of [init] and [reward_mode] *)

Lemma set_init_cases (self : GKP) (val : pyval) :
  (exists v, val = VStr v /\ v ∈ init_modes
             /\ set_init self val = Done (with_init self v))
  \/ ((forall v, val = VStr v -> v ∉ init_modes)
      /\ set_init self val
         = Raised (ValueError "Initial state not supported.") self).
Proof.
  unfold set_init. destruct val as [|z|x|v];
    try (right; split; [intros ? [=]|reflexivity]).
  destruct (bool_decide (v ∈ init_modes)) eqn:E.
  - apply bool_decide_eq_true in E. left. exists v. auto.
  - apply bool_decide_eq_false in E. right. split; [|reflexivity].
    intros ? [= <-]. exact E.
Qed.

(** X1: the [init] setter stores one of the eight supported modes and
    rejects everything else with [ValueError('Initial state not
    supported.')], leaving the object as it was; the constructor then
    raises. *)
Theorem init_guarded (self : GKP) (val : pyval) (pre post : list kwarg) :
  (forall v, val = VStr v -> v ∈ init_modes ->
     set_init self val = Done (with_init self v))
  /\ ((forall v, val = VStr v -> v ∉ init_modes) ->
      set_init self val
      = Raised (ValueError "Initial state not supported.") self
      /\ exists e, __init__ (pre ++ kw_init val :: post) = Raise e).
Proof.
  split.
  - intros v -> Hv. destruct (set_init_cases self (VStr v))
      as [(v' & [= <-] & _ & E)|[Hbad _]]; [exact E|].
    destruct (Hbad v eq_refl Hv).
  - intros Hbad.
    assert (Hrej : forall s, set_init s val
              = Raised (ValueError "Initial state not supported.") s).
    { intros s. destruct (set_init_cases s val)
        as [(v & -> & Hv & _)|[_ E]]; [|exact E].
      destruct (Hbad v eq_refl Hv). }
    split; [apply Hrej|].
    destruct defaults_Done as (s0 & E0 & _).
    unfold __init__. rewrite E0, setattrs_app.
    destruct (setattrs s0 pre) as [s|e s]; [|eauto].
    cbn [setattrs setattr]. rewrite Hrej. eauto.
Qed.

Lemma init_guarded_witness :
  set_init blank (VStr "X+") = Done (with_init blank "X+")
  /\ set_init blank (VStr "x+")
     = Raised (ValueError "Initial state not supported.") blank
  /\ exists e, __init__ ([kw_N 20] ++ kw_init (VStr "x+") :: []) = Raise e.
Proof.
  destruct (init_guarded blank (VStr "X+") [] []) as [Hok _].
  destruct (init_guarded blank (VStr "x+") [kw_N 20] []) as [_ Hbad].
  split.
  - apply (Hok "X+" eq_refl). apply (bool_decide_unpack _). vm_compute. exact I.
  - apply Hbad. intros v [= <-]. apply (bool_decide_unpack _).
    vm_compute. exact I.
Defined.

Lemma set_reward_mode_Done (self self' : GKP) (mode : pyval) :
  set_reward_mode self mode = Done self' ->
  exists m f,
    mode = VStr m /\ reward_of_mode m = Some f
    /\ self' = with_calculate_reward (with_reward_mode self m) f
    /\ (m = "pauli" -> _init self <> "vac").
Proof.
  unfold set_reward_mode. intros E. apply try_except_Done in E.
  destruct mode as [|z|x|m]; try discriminate.
  destruct (bool_decide (m ∈ reward_modes)) eqn:Hm; [|discriminate].
  apply bool_decide_eq_true in Hm. unfold reward_modes in Hm.
  exists m.
  repeat (apply elem_of_cons in Hm as [->|Hm]);
    [| | | |apply elem_of_nil in Hm; destruct Hm]; cbn in E.
  - injection E as <-. eexists. repeat split. discriminate.
  - destruct (String.eqb (_init self) "vac") eqn:Ei; [discriminate|].
    injection E as <-. eexists. repeat split.
    intros _ Hv. rewrite Hv in Ei. discriminate.
  - injection E as <-. eexists. repeat split. discriminate.
  - injection E as <-. eexists. repeat split. discriminate.
Qed.

Lemma set_batch_size_Done (self self' : GKP) (size : pyval) :
  set_batch_size self size = Done self' ->
  exists z, self' = with_batch_size self z.
Proof.
  unfold set_batch_size. destruct (has_code_map self); [discriminate|].
  intros E. apply try_except_Done in E.
  destruct size as [|z|x|s]; try discriminate.
  destruct (0 <? z)%Z; [|discriminate]. injection E as <-. eauto.
Qed.

Lemma set_N_Done (self self' : GKP) (n : Z) :
  set_N self n = Done self' -> self' = with_N self n.
Proof.
  unfold set_N. destruct (has_code_map self); [discriminate|].
  intros [= <-]. reflexivity.
Qed.

(** The assignments of the constructor keep the reward mode, the reward
    method and the initial state consistent, as long as [init] is assigned
    at most once. *)
Lemma setattrs_reward_consistent (kwargs : list kwarg) :
  forall self self',
    NoDup (kwarg_key <$> kwargs) ->
    setattrs self kwargs = Done self' ->
    reward_consistent self ->
    (_init self <> "vac" -> forall v, kw_init v ∉ kwargs) ->
    reward_consistent self'.
Proof.
  induction kwargs as [|kw kwargs IH]; intros self self' Hnd E Hc Hi.
  - injection E as <-. exact Hc.
  - cbn [setattrs] in E. destruct (setattr self kw) as [s1|] eqn:E1;
      [|discriminate].
    rewrite fmap_cons in Hnd. apply NoDup_cons in Hnd as [Hkey Hnd].
    assert (Hsame : calculate_reward s1 = calculate_reward self ->
                    _reward_mode s1 = _reward_mode self ->
                    _init s1 = _init self -> reward_consistent self').
    { intros H1 H2 H3. apply (IH s1 self' Hnd E).
      - unfold reward_consistent. rewrite H1, H2, H3. exact Hc.
      - rewrite H3. intros Hv v Hin. apply (Hi Hv v).
        apply list_elem_of_further, Hin. }
    destruct kw as [n|h|m|T|size|val|mode|t]; cbn [setattr] in E1.
    + apply set_N_Done in E1 as ->. apply Hsame; reflexivity.
    + injection E1 as <-. apply Hsame; reflexivity.
    + injection E1 as <-. apply Hsame; reflexivity.
    + injection E1 as <-. apply Hsame; reflexivity.
    + apply set_batch_size_Done in E1 as (z & ->). apply Hsame; reflexivity.
    + destruct (set_init_cases self val) as [(v & -> & Hv & E1')|[_ E1']];
        rewrite E1' in E1; [|discriminate]. injection E1 as <-.
      assert (Hno : forall v', kw_init v' ∉ kwargs).
      { intros v' Hin. apply Hkey.
        apply list_elem_of_fmap. exists (kw_init v'). auto. }
      apply (IH _ self' Hnd E); [|intros _; exact Hno].
      destruct Hc as [Hc1 Hc2]. split; [exact Hc1|].
      cbn. intros Hp Hvac. apply (Hi (Hc2 Hp) (VStr v)).
      apply list_elem_of_here.
    + apply set_reward_mode_Done in E1 as (m & f & -> & Hf & -> & Hp).
      apply (IH _ self' Hnd E).
      * split; [exact Hf|]. cbn. exact Hp.
      * cbn. intros Hv v Hin. apply (Hi Hv v).
        apply list_elem_of_further, Hin.
    + injection E1 as <-. apply Hsame; reflexivity.
Qed.

Lemma create_specs_Done (self self' : GKP) :
  create_specs self = Done self' ->
  exists c, self' = with_specs self c (circuit_spec c)
            /\ quantum_circuit_type self
               ∈ ["v1"; "v2"; "v3"]
            /\ match c with
               | bound_quantum_circuit_v1 => quantum_circuit_type self = "v1"
               | bound_quantum_circuit_v2 => quantum_circuit_type self = "v2"
               | bound_quantum_circuit_v3 => quantum_circuit_type self = "v3"
               end.
Proof.
  unfold create_specs.
  destruct (String.eqb (quantum_circuit_type self) "v1") eqn:E1.
  { apply String.eqb_eq in E1. rewrite E1. cbn. intros [= <-].
    exists bound_quantum_circuit_v1. split; [reflexivity|].
    split; [apply list_elem_of_here|reflexivity]. }
  destruct (String.eqb (quantum_circuit_type self) "v2") eqn:E2.
  { apply String.eqb_eq in E2. rewrite E2. cbn. intros [= <-].
    exists bound_quantum_circuit_v2. split; [reflexivity|].
    split; [apply list_elem_of_further, list_elem_of_here|reflexivity]. }
  destruct (String.eqb (quantum_circuit_type self) "v3") eqn:E3.
  { apply String.eqb_eq in E3. rewrite E3. cbn. intros [= <-].
    exists bound_quantum_circuit_v3. split; [reflexivity|].
    split; [do 2 apply list_elem_of_further; apply list_elem_of_here
           |reflexivity]. }
  discriminate.
Qed.

Lemma defaults_reward_consistent :
  exists s0, setattrs blank defaults = Done s0
             /\ reward_consistent s0 /\ _init s0 = "vac".
Proof.
  eexists. split; [reflexivity|]. split; [|reflexivity].
  split; [reflexivity|]. discriminate.
Qed.

(** X2: an environment constructed from keyword arguments (their keys are
    distinct) has the reward method its reward mode names and never
    combines the Pauli reward with the vacuum; the check is made only
    when [reward_mode] is assigned, so that a later [init = 'vac'] is
    accepted and leaves the Pauli reward in force. *)
Theorem constructed_reward_consistent (kwargs : list kwarg) (env : GKP) :
  NoDup (kwarg_key <$> kwargs) ->
  __init__ kwargs = Ok env ->
  reward_consistent env
  /\ set_init env (VStr "vac") = Done (with_init env "vac")
  /\ calculate_reward (with_init env "vac") = calculate_reward env
  /\ (_reward_mode env = "pauli" ->
      ~ reward_consistent (with_init env "vac")).
Proof.
  intros Hnd E. unfold __init__ in E.
  destruct defaults_reward_consistent as (s0 & E0 & Hc0 & Hi0).
  rewrite E0 in E.
  destruct (setattrs s0 kwargs) as [s|] eqn:Es; [|discriminate].
  pose proof (setattrs_reward_consistent kwargs s0 s Hnd Es Hc0) as Hc.
  destruct (create_specs s) as [s'|] eqn:Ec; [|discriminate].
  injection E as <-.
  apply create_specs_Done in Ec as (c & -> & _).
  assert (Henv : reward_consistent (with_code_map (with_specs s c (circuit_spec c)))).
  { apply Hc. intros Hv. destruct (Hv Hi0). }
  split; [exact Henv|]. split; [reflexivity|]. split; [reflexivity|].
  intros Hp [_ Hbad]. apply (Hbad Hp). reflexivity.
Qed.

Lemma pauli_env_init :
  __init__ [kw_init (VStr "X+"); kw_reward_mode (VStr "pauli")]
  = Ok pauli_env.
Proof. reflexivity. Qed.

Lemma constructed_reward_consistent_witness :
  reward_consistent pauli_env
  /\ set_init pauli_env (VStr "vac") = Done (with_init pauli_env "vac")
  /\ calculate_reward (with_init pauli_env "vac")
     = calculate_reward pauli_env
  /\ (_reward_mode pauli_env = "pauli" ->
      ~ reward_consistent (with_init pauli_env "vac")).
Proof.
  apply (constructed_reward_consistent
           [kw_init (VStr "X+"); kw_reward_mode (VStr "pauli")] pauli_env);
    [|exact pauli_env_init].
  repeat (apply NoDup_cons; split;
          [intros H; repeat (apply elem_of_cons in H as [H|H];
                             [discriminate|]);
           apply elem_of_nil in H; exact H|]).
  apply NoDup_nil. exact I.
Defined.

Lemma circuit_spec_lookup (c : circuit_fn) (k : string) :
  circuit_spec c !! k
  = if decide (k = "alpha" \/ k = "beta") then Some 2%nat
    else if decide (k = "phi") then Some 1%nat
    else if decide (k = "epsilon" /\ c = bound_quantum_circuit_v3)
         then Some 2%nat
    else None.
Proof.
  assert (Hbase : forall k : string,
            (<["phi" := 1%nat]>
               (<["beta" := 2%nat]> ({["alpha" := 2%nat]} : gmap string nat)))
              !! k
            = if decide (k = "alpha" \/ k = "beta") then Some 2%nat
              else if decide (k = "phi") then Some 1%nat else None).
  { intros k'. destruct (decide (k' = "phi")) as [->|Hp].
    { rewrite lookup_insert_eq. destruct (decide _) as [[H|H]|_];
        [discriminate|discriminate|reflexivity]. }
    rewrite lookup_insert_ne by congruence.
    destruct (decide (k' = "beta")) as [->|Hb].
    { rewrite lookup_insert_eq. destruct (decide _) as [_|H];
        [reflexivity|]. destruct H. auto. }
    rewrite lookup_insert_ne by congruence.
    destruct (decide (k' = "alpha")) as [->|Ha].
    { rewrite lookup_singleton_eq. destruct (decide _) as [_|H];
        [reflexivity|]. destruct H. auto. }
    rewrite lookup_singleton_ne by congruence.
    destruct (decide _) as [[H|H]|_]; congruence. }
  destruct (decide (k = "epsilon")) as [->|He].
  - destruct c; cbn [circuit_spec].
    + rewrite Hbase. repeat (destruct (decide _) as [H|H]);
        try reflexivity; try discriminate; destruct H; discriminate.
    + rewrite Hbase. repeat (destruct (decide _) as [H|H]);
        try reflexivity; try discriminate; destruct H; discriminate.
    + rewrite lookup_insert_eq.
      destruct (decide _) as [[H|H]|_]; try discriminate.
      destruct (decide _) as [H|_]; [discriminate|].
      destruct (decide _) as [_|H]; [reflexivity|]. destruct H. auto.
  - assert (E : circuit_spec c !! k
                = (<["phi" := 1%nat]>
                     (<["beta" := 2%nat]>
                        ({["alpha" := 2%nat]} : gmap string nat))) !! k).
    { destruct c; cbn [circuit_spec]; try reflexivity.
      rewrite lookup_insert_ne by congruence. reflexivity. }
    rewrite E, Hbase. destruct (decide _); [reflexivity|].
    destruct (decide _); [reflexivity|].
    destruct (decide _) as [[H _]|_]; [congruence|reflexivity].
Qed.

Lemma init_episode_None (kwargs : list kwarg) (env : GKP) :
  __init__ kwargs = Ok env -> episode env = None.
Proof.
  intros E. unfold __init__ in E.
  destruct (setattrs blank defaults) as [s0|] eqn:E0; [|discriminate].
  destruct (setattrs s0 kwargs) as [s|] eqn:Es; [|discriminate].
  assert (Hep : episode s = None).
  { assert (H0 : episode s0 = None).
    { destruct defaults_Done as (s0' & E0' & _). rewrite E0' in E0.
      injection E0 as <-. revert E0'. cbn. intros [= <-]. reflexivity. }
    clear E0 E. revert s0 s Es H0.
    induction kwargs as [|kw kwargs IH]; intros s0 s Es H0.
    - injection Es as <-. exact H0.
    - cbn [setattrs] in Es.
      destruct (setattr s0 kw) as [s1|] eqn:E1; [|discriminate].
      apply (IH s1 s Es).
      destruct kw as [n|h|m|T|size|val|mode|t]; cbn [setattr] in E1.
      + apply set_N_Done in E1 as ->. exact H0.
      + injection E1 as <-. exact H0.
      + injection E1 as <-. exact H0.
      + injection E1 as <-. exact H0.
      + apply set_batch_size_Done in E1 as (z & ->). exact H0.
      + destruct (set_init_cases s0 val)
          as [(v & -> & Hv & E1')|[_ E1']];
          rewrite E1' in E1; [|discriminate]. injection E1 as <-.
        exact H0.
      + apply set_reward_mode_Done in E1 as (m & f & -> & _ & -> & _).
        exact H0.
      + injection E1 as <-. exact H0. }
  destruct (create_specs s) as [s'|] eqn:Ec; [|discriminate].
  injection E as <-.
  apply create_specs_Done in Ec as (c & -> & _). exact Hep.
Qed.

(** X3: the constructor binds the circuit that [quantum_circuit_type]
    names and builds the action spec [alpha : 2], [beta : 2], [phi : 1],
    with [epsilon : 2] for [v3] only; for a type that names no method
    [quantum_circuit_<type>], and a horizon [H] that is not negative (the
    specs of horizon [H] are built first), the lookup raises
    [AttributeError] and no environment is built.  (The type ['type'] is
    left aside: the lookup then finds the attribute [quantum_circuit_type]
    itself.)  A constructed environment has its code tables and no episode
    yet. *)
Theorem constructed_specs (kwargs : list kwarg) :
  (forall env, __init__ kwargs = Ok env ->
     quantum_circuit_type env <> "type" ->
     quantum_circuit_type env ∈ ["v1"; "v2"; "v3"]
     /\ match quantum_circuit env with
        | bound_quantum_circuit_v1 => quantum_circuit_type env = "v1"
        | bound_quantum_circuit_v2 => quantum_circuit_type env = "v2"
        | bound_quantum_circuit_v3 => quantum_circuit_type env = "v3"
        end
     /\ (forall k,
           action_spec env !! k
           = if decide (k = "alpha" \/ k = "beta") then Some 2%nat
             else if decide (k = "phi") then Some 1%nat
             else if decide (k = "epsilon"
                             /\ quantum_circuit_type env = "v3")
                  then Some 2%nat
             else None)
     /\ has_code_map env = true
     /\ episode env = None)
  /\ (forall s, setattrs blank (defaults ++ kwargs) = Done s ->
        (0 <= self_H s)%Z ->
        quantum_circuit_type s ∉ ["v1"; "v2"; "v3"] ->
        quantum_circuit_type s <> "type" ->
        __init__ kwargs
        = Raise (AttributeError
                   ("quantum_circuit_" +:+ quantum_circuit_type s))).
Proof.
  split.
  - intros env E _. pose proof (init_episode_None kwargs env E) as Hep.
    unfold __init__ in E.
    destruct (setattrs blank defaults) as [s0|] eqn:E0; [|discriminate].
    destruct (setattrs s0 kwargs) as [s|] eqn:Es; [|discriminate].
    destruct (create_specs s) as [s'|] eqn:Ec; [|discriminate].
    injection E as <-.
    apply create_specs_Done in Ec as (c & -> & Hin & Hc).
    cbn. split; [exact Hin|]. split; [exact Hc|].
    split; [|split; [reflexivity|exact Hep]].
    intros k. rewrite circuit_spec_lookup.
    destruct (decide _); [reflexivity|].
    destruct (decide _); [reflexivity|].
    destruct (decide _) as [[Hk Hc3]|Hn]; destruct (decide _) as [[Hk' Ht]|Hn'];
      try reflexivity.
    + destruct Hn'. split; [exact Hk|]. subst c. exact Hc.
    + destruct Hn. split; [exact Hk'|].
      destruct c; [rewrite Hc in Ht|rewrite Hc in Ht|reflexivity];
        discriminate.
  - intros s Es _ Hbad _. unfold __init__. rewrite setattrs_app in Es.
    destruct (setattrs blank defaults) as [s0|]; [|discriminate].
    rewrite Es. unfold create_specs.
    destruct (String.eqb (quantum_circuit_type s) "v1") eqn:E1.
    { apply String.eqb_eq in E1. destruct Hbad. rewrite E1.
      apply list_elem_of_here. }
    destruct (String.eqb (quantum_circuit_type s) "v2") eqn:E2.
    { apply String.eqb_eq in E2. destruct Hbad. rewrite E2.
      apply list_elem_of_further, list_elem_of_here. }
    destruct (String.eqb (quantum_circuit_type s) "v3") eqn:E3.
    { apply String.eqb_eq in E3. destruct Hbad. rewrite E3.
      do 2 apply list_elem_of_further. apply list_elem_of_here. }
    reflexivity.
Qed.

(** ** The operators of the truncated oscillator *)

Lemma Csum_pick (n a : nat) (f : nat -> C) :
  Csum n (fun k => if (k =? a)%nat then f k else Czero)
  = if (a <? n)%nat then f a else Czero.
Proof.
  induction n as [|n IH]; [reflexivity|]. cbn [Csum]. rewrite IH.
  destruct (Nat.eqb_spec n a) as [->|Hne].
  - rewrite Nat.ltb_irrefl.
    replace (a <? S a)%nat with true by (symmetry; apply Nat.ltb_lt; lia).
    ring.
  - destruct (Nat.ltb_spec a n).
    + replace (a <? S n)%nat with true by (symmetry; apply Nat.ltb_lt; lia).
      ring.
    + replace (a <? S n)%nat with false by (symmetry; apply Nat.ltb_ge; lia).
      ring.
Qed.

Lemma RtoC_mul (x y : R) : (RtoC x * RtoC y)%C = RtoC (x * y).
Proof. Ceq. Qed.

Lemma sqrt_INR_sq (n : nat) : sqrt (INR n) * sqrt (INR n) = INR n.
Proof. apply sqrt_sqrt, pos_INR. Qed.

(** Distribute products over sums and scalars. *)
Ltac mdistribute :=
  repeat first
    [ rewrite matmul_madd_l | rewrite matmul_madd_r
    | rewrite matmul_msub_l | rewrite matmul_msub_r
    | rewrite matmul_mscale_l | rewrite matmul_mscale_r ].

Section OperatorAlgebra.
Variable N : nat.

Local Notation "A == B" := (mat_eq N A B) (at level 70, no associativity).
Local Notation "A × B" := (matmul N A B) (at level 40, left associativity).
Local Notation "A †" := (adjoint A) (at level 1, format "A †").

(** [a† a] is the number operator, also on the truncated space. *)
Lemma create_destroy_num : qt_create × qt_destroy == qt_num.
Proof.
  intros i j Hi Hj. unfold matmul, qt_create, qt_destroy, qt_num.
  destruct i as [|i].
  - rewrite (Csum_ext _ _ (fun _ => Czero)) by (intros; cbn; ring).
    rewrite Csum_zero. destruct (0 =? j)%nat; reflexivity.
  - rewrite (Csum_ext _ _
      (fun k => if (k =? i)%nat
                then (RtoC (sqrt (INR (S i)))
                      * (if (j =? S k)%nat then RtoC (sqrt (INR j))
                         else Czero))%C
                else Czero)).
    2:{ intros k _. cbn [Nat.eqb]. rewrite (Nat.eqb_sym i k).
        destruct (k =? i)%nat; [reflexivity|ring]. }
    rewrite Csum_pick.
    replace (i <? N)%nat with true by (symmetry; apply Nat.ltb_lt; lia).
    rewrite (Nat.eqb_sym j (S i)).
    destruct (Nat.eqb_spec (S i) j) as [<-|_]; [|ring].
    rewrite RtoC_mul, sqrt_INR_sq. reflexivity.
Qed.

(** [a a†] is [n + 1] below the last level, and [0] on it. *)
Lemma destroy_create_entries :
  qt_destroy × qt_create
  == fun i j => if (i =? j)%nat
                then if (S i <? N)%nat then RtoC (INR (S i)) else Czero
                else Czero.
Proof.
  intros i j Hi Hj. unfold matmul, qt_create, qt_destroy.
  rewrite (Csum_ext _ _
    (fun k => if (k =? S i)%nat
              then (RtoC (sqrt (INR k))
                    * (if (k =? S j)%nat then RtoC (sqrt (INR k))
                       else Czero))%C
              else Czero)).
  2:{ intros k _. destruct (k =? S i)%nat; [reflexivity|ring]. }
  rewrite Csum_pick. cbn [Nat.eqb].
  destruct (S i <? N)%nat; [|destruct (i =? j)%nat; reflexivity].
  destruct (i =? j)%nat; [|ring].
  rewrite RtoC_mul, sqrt_INR_sq. reflexivity.
Qed.

(** The canonical commutator, as the truncation leaves it. *)
Lemma commutator_destroy_create :
  commutator N qt_destroy qt_create
  == fun i j => if (i =? j)%nat
                then if (S i =? N)%nat then RtoC (1 - INR N) else Cone
                else Czero.
Proof.
  intros i j Hi Hj. unfold commutator, msub.
  rewrite (destroy_create_entries i j Hi Hj),
          (create_destroy_num i j Hi Hj).
  unfold qt_num. destruct (i =? j)%nat; [|ring].
  destruct (Nat.eqb_spec (S i) N) as [E|Hne].
  - replace (S i <? N)%nat with false by (symmetry; apply Nat.ltb_ge; lia).
    rewrite <- E, S_INR. Ceq.
  - replace (S i <? N)%nat with true by (symmetry; apply Nat.ltb_lt; lia).
    rewrite S_INR. Ceq.
Qed.

Lemma Cinv_real (s : R) : s <> 0 -> Cinv (RtoC s) = RtoC (/ s).
Proof.
  intros Hs. unfold Cinv, Cnorm2. apply C_eq; simpl.
  - field. nra.
  - field. nra.
Qed.

Lemma Cinv_sqrt2_sq :
  (Cinv (RtoC (sqrt 2)) * Cinv (RtoC (sqrt 2)))%C = RtoC (1 / 2).
Proof.
  assert (H2 : sqrt 2 * sqrt 2 = 2) by (apply sqrt_sqrt; lra).
  assert (Hpos : 0 < sqrt 2) by (apply sqrt_lt_R0; lra).
  rewrite Cinv_real by lra. apply C_eq; simpl; [|ring].
  rewrite Rmult_0_l, Rminus_0_r, <- Rinv_mult, H2. lra.
Qed.

Lemma hermitian_real_entries (A : Mat) :
  (forall i j, A i j = A j i) -> (forall i j, im (A i j) = 0) ->
  hermitian N A.
Proof.
  intros Hsym Hre i j _ _. unfold adjoint. rewrite (Hsym j i).
  apply C_eq; simpl; [reflexivity|]. rewrite Hre. lra.
Qed.

Lemma Hamiltonian_entries (K_osc T1_osc : R) :
  self_Hamiltonian (define_operators N K_osc T1_osc)
  == fun i j => if (i =? j)%nat
                then RtoC (- (PI * K_osc) * (INR i * INR i))
                else Czero.
Proof.
  intros i j Hi Hj. cbn [define_operators self_Hamiltonian].
  unfold matmul, mscale, qt_num.
  rewrite (Csum_ext _ _
    (fun k => if (k =? i)%nat
              then (RtoC (- (1 / 2) * (2 * PI) * K_osc) * RtoC (INR i)
                    * (if (k =? j)%nat then RtoC (INR k) else Czero))%C
              else Czero)).
  2:{ intros k _. rewrite (Nat.eqb_sym i k).
      destruct (k =? i)%nat; [reflexivity|ring]. }
  rewrite Csum_pick.
  replace (i <? N)%nat with true by (symmetry; apply Nat.ltb_lt; lia).
  destruct (i =? j)%nat; [|ring]. Ceq.
Qed.

(** [[q, p] = i [a, a†]]. *)
Lemma commutator_q_p (K_osc T1_osc : R) :
  commutator N (self_q (define_operators N K_osc T1_osc))
               (self_p (define_operators N K_osc T1_osc))
  == mscale Ci (commutator N qt_destroy qt_create).
Proof.
  cbn [define_operators self_q self_p]. unfold commutator.
  set (c := Cinv (RtoC (sqrt 2))).
  assert (Hcc : (c * c)%C = RtoC (1 / 2)) by apply Cinv_sqrt2_sq.
  set (B := qt_destroy†).
  assert (HB : B == qt_create).
  { intros i j _ _. symmetry. apply create_adjoint_destroy. }
  assert (H : msub (mscale c (madd B qt_destroy)
                    × mscale c (mscale Ci (msub B qt_destroy)))
                   (mscale c (mscale Ci (msub B qt_destroy))
                    × mscale c (madd B qt_destroy))
              == mscale Ci (msub (qt_destroy × B) (B × qt_destroy))).
  { mdistribute. intros i j _ _. unfold madd, msub, mscale.
    assert (Hcc2 : (c * c + c * c)%C = Cone) by (rewrite Hcc; Ceq).
    clearbody c B.
    transitivity ((c * c + c * c)
                  * (Ci * ((qt_destroy × B) i j - (B × qt_destroy) i j)))%C;
      [ring|rewrite Hcc2; ring]. }
  intros i j Hi Hj. rewrite (H i j Hi Hj). unfold mscale, msub.
  assert (E1 : (qt_destroy × B) i j = (qt_destroy × qt_create) i j).
  { unfold matmul. apply Csum_ext. intros k Hk.
    rewrite (HB k j Hk Hj). reflexivity. }
  assert (E2 : (B × qt_destroy) i j = (qt_create × qt_destroy) i j).
  { unfold matmul. apply Csum_ext. intros k Hk.
    rewrite (HB i k Hi Hk). reflexivity. }
  rewrite E1, E2. reflexivity.
Qed.

End OperatorAlgebra.

(** X4: the operators that [define_operators] builds: [a_dag] is the
    adjoint of [a]; [q], [p], [n] and the Hamiltonian are Hermitian;
    [a_dag a] is the number operator [n]; and the Kerr Hamiltonian is
    diagonal with the entries [-pi K_osc i^2]. *)
Theorem operators_hermitian (N : nat) (K_osc T1_osc : R) :
  let self := define_operators N K_osc T1_osc in
  (forall i j, self_a_dag self i j = adjoint (self_a self) i j)
  /\ hermitian N (self_q self)
  /\ hermitian N (self_p self)
  /\ hermitian N (self_n self)
  /\ hermitian N (self_Hamiltonian self)
  /\ mat_eq N (matmul N (self_a_dag self) (self_a self)) (self_n self)
  /\ mat_eq N (self_Hamiltonian self)
       (fun i j => if (i =? j)%nat
                   then RtoC (- (PI * K_osc) * (INR i * INR i))
                   else Czero).
Proof.
  intros self. subst self. split; [|split; [|split; [|split; [|split; [|split]]]]].
  - intros i j. apply create_adjoint_destroy.
  - intros i j _ _. cbn [define_operators self_q].
    rewrite Cinv_real by (apply Rgt_not_eq, sqrt_lt_R0; lra).
    unfold adjoint, mscale, madd, qt_destroy.
    destruct (i =? S j)%nat, (j =? S i)%nat; apply C_eq; simpl; ring.
  - intros i j _ _. cbn [define_operators self_p].
    rewrite Cinv_real by (apply Rgt_not_eq, sqrt_lt_R0; lra).
    unfold adjoint, mscale, msub, qt_destroy.
    destruct (i =? S j)%nat, (j =? S i)%nat; apply C_eq; simpl; ring.
  - intros i j _ _. cbn [define_operators self_n].
    unfold adjoint, qt_num. rewrite (Nat.eqb_sym j i).
    destruct (Nat.eqb_spec i j) as [->|_]; Ceq.
  - intros i j Hi Hj. unfold adjoint.
    rewrite (Hamiltonian_entries N K_osc T1_osc j i Hj Hi),
            (Hamiltonian_entries N K_osc T1_osc i j Hi Hj).
    rewrite (Nat.eqb_sym j i).
    destruct (Nat.eqb_spec i j) as [->|_]; Ceq.
  - apply create_destroy_num.
  - apply Hamiltonian_entries.
Qed.

(** X5: on the truncated space the canonical commutation relation
    [[q, p] = i] holds on every level but the last: [[q, p]] is diagonal,
    with the entry [i] below the last level and [i (1 - N)] on it. *)
Theorem truncated_commutation (N : nat) (K_osc T1_osc : R) :
  let self := define_operators N K_osc T1_osc in
  mat_eq N (commutator N (self_q self) (self_p self))
    (fun i j => if (i =? j)%nat
                then if (S i =? N)%nat then (Ci * RtoC (1 - INR N))%C else Ci
                else Czero).
Proof.
  intros self i j Hi Hj. subst self.
  rewrite (commutator_q_p N K_osc T1_osc i j Hi Hj). unfold mscale.
  rewrite (commutator_destroy_create N i j Hi Hj).
  destruct (i =? j)%nat; [|ring]. destruct (S i =? N)%nat; ring.
Qed.

(** ** The composition of two translations *)

Lemma expm_diag_laws (N : nat) : expm_laws N expm_diag.
Proof.
  split.
  - intros A B E i j Hi _. unfold expm_diag.
    destruct (i =? j)%nat; [|reflexivity]. rewrite (E i i Hi Hi). reflexivity.
  - intros i j _ _. unfold expm_diag, mzero, qt_identity.
    destruct (i =? j)%nat; [apply Cexp_zero|reflexivity].
  - intros A i j _ _. unfold expm_diag, adjoint. rewrite (Nat.eqb_sym j i).
    destruct (Nat.eqb_spec i j) as [->|_]; [apply Cexp_conj|apply Cconj_zero].
  - intros A B _ i j Hi Hj. unfold expm_diag, matmul, madd.
    rewrite (Csum_ext _ _
               (fun k => ((if (i =? k)%nat then Cone else Czero)
                          * (Cexp (A i i)
                             * (if (k =? j)%nat then Cexp (B k k)
                                else Czero)))%C)).
    2:{ intros k _. destruct (i =? k)%nat; ring. }
    rewrite (Csum_delta_l N i _ Hi). rewrite Cexp_add.
    destruct (i =? j)%nat; ring.
Qed.

Section GeneratorAlgebra.
Variable N : nat.
Variables K_osc T1_osc : R.

Local Notation "A == B" := (mat_eq N A B) (at level 70, no associativity).
Local Notation "A × B" := (matmul N A B) (at level 40, left associativity).
Local Abbreviation self := (define_operators N K_osc T1_osc).

Lemma phase_angle (x y : C) :
  (Ci * RtoC (im (x * Cconj y)))%C
  = (RtoC (1 / 2) * (x * Cconj y - Cconj x * y))%C.
Proof. Ceq. Qed.

(** The commutator of two generators is a multiple of [[a, a_dag]]. *)
Lemma generator_commutator (x y : C) :
  commutator N (generator self x) (generator self y)
  == mscale (Ci * RtoC (im (x * Cconj y)))
            (commutator N qt_destroy qt_create).
Proof.
  unfold generator, commutator, Cdiv.
  cbn [define_operators self_a self_a_dag].
  set (c := Cinv (RtoC (sqrt 2))).
  assert (Hcc : (c * c)%C = RtoC (1 / 2)) by apply Cinv_sqrt2_sq.
  rewrite phase_angle.
  set (A := qt_destroy). set (B := qt_create).
  mdistribute. intros i j _ _. unfold madd, msub, mscale.
  clearbody c A B.
  transitivity ((c * c) * ((x * Cconj y - Cconj x * y)
                           * ((A × B) i j - (B × A) i j)))%C;
    [ring|rewrite Hcc; ring].
Qed.

Lemma generator_commutator_entries (x y : C) :
  commutator N (generator self x) (generator self y)
  == fun i j =>
       if (i =? j)%nat
       then if (S i =? N)%nat
            then (Ci * RtoC (im (x * Cconj y)) * RtoC (1 - INR N))%C
            else (Ci * RtoC (im (x * Cconj y)))%C
       else Czero.
Proof.
  intros i j Hi Hj. rewrite (generator_commutator x y i j Hi Hj).
  unfold mscale. rewrite (commutator_destroy_create N i j Hi Hj).
  destruct (i =? j)%nat; [|ring]. destruct (S i =? N)%nat; ring.
Qed.

(** With at least two levels, two generators commute exactly when
    [Im(x conj(y)) = 0]. *)
Lemma generators_commute (x y : C) :
  (2 <= N)%nat ->
  generator self x × generator self y == generator self y × generator self x
  <-> im (x * Cconj y) = 0.
Proof.
  intros HN. split.
  - intros E.
    pose proof (generator_commutator_entries x y O O ltac:(lia) ltac:(lia))
      as H.
    unfold commutator, msub in H. rewrite (E O O) in H by lia.
    replace (1 =? N)%nat with false in H by (symmetry; apply Nat.eqb_neq; lia).
    cbn [Nat.eqb] in H.
    set (theta := im (x * Cconj y)) in *. clearbody theta.
    set (u := (generator self y × generator self x) O O) in *. clearbody u.
    apply (f_equal im) in H. simpl in H. lra.
  - intros E i j Hi Hj.
    pose proof (generator_commutator_entries x y i j Hi Hj) as H.
    unfold commutator, msub in H. rewrite E in H.
    assert (H0 : ((generator self x × generator self y) i j
                  - (generator self y × generator self x) i j)%C = Czero).
    { rewrite H. destruct (i =? j)%nat; [|reflexivity].
      destruct (S i =? N)%nat; Ceq. }
    set (u := (generator self x × generator self y) i j) in *.
    set (v := (generator self y × generator self x) i j) in *.
    clearbody u v.
    pose proof (f_equal re H0) as Hr. pose proof (f_equal im H0) as Hi'.
    simpl in Hr, Hi'. apply C_eq; lra.
Qed.

(** The terms of degree two of [exp(X) exp(Y)], which are
    [X^2/2 + X Y + Y^2/2], are those of [exp(X + Y)] and half the
    commutator. *)
Lemma generator_second_order (x y : C) :
  madd (madd (mscale (RtoC (1 / 2)) (generator self x × generator self x))
             (generator self x × generator self y))
       (mscale (RtoC (1 / 2)) (generator self y × generator self y))
  == madd (mscale (RtoC (1 / 2))
             (generator self (x + y) × generator self (x + y)))
          (mscale (RtoC (1 / 2))
             (commutator N (generator self x) (generator self y))).
Proof.
  pose proof (generator_add N K_osc T1_osc x y) as Hadd.
  set (X := generator self x) in *. set (Y := generator self y) in *.
  set (S := generator self (x + y)) in *.
  assert (HS : S × S == madd X Y × madd X Y).
  { intros i j Hi Hj. unfold matmul. apply Csum_ext. intros k Hk.
    rewrite (Hadd i k Hi Hk), (Hadd k j Hk Hj). reflexivity. }
  assert (HE : madd X Y × madd X Y
               == madd (madd (X × X) (X × Y)) (madd (Y × X) (Y × Y))).
  { mdistribute. intros i j _ _. unfold madd. ring. }
  intros i j Hi Hj. unfold madd, mscale, commutator, msub.
  rewrite (HS i j Hi Hj), (HE i j Hi Hj). unfold madd.
  apply C_eq; simpl; lra.
Qed.

Lemma translate_fmap (batch_size : nat) (expm : Mat -> Mat)
    (amplitude : list C) :
  length amplitude = batch_size ->
  translate batch_size self expm amplitude
  = (fun x => expm (generator self x)) <$> amplitude.
Proof.
  intros <-. unfold translate.
  induction amplitude as [|x l IH]; [reflexivity|].
  cbn [length replicate fmap list_fmap zip_with].
  f_equal. exact IH.
Qed.

End GeneratorAlgebra.



(** Two lookups at the same place give the same item. *)
Ltac same_lookup H1 H2 :=
  let E := fresh "E" in
  pose proof (eq_trans (eq_sym H2) H1) as E; injection E as ->; clear H2.

(** ** Vectors and quadratic forms *)

Section VectorAlgebra.
Variable N : nat.

Lemma matvec_ext (A B : Mat) (u v : Vec) :
  mat_eq N A B -> vec_eq N u v ->
  vec_eq N (matvec N A u) (matvec N B v).
Proof.
  intros HA Hv i Hi. unfold matvec. apply Csum_ext. intros k Hk.
  rewrite (HA i k Hi Hk), (Hv k Hk). reflexivity.
Qed.

Lemma matvec_Id (v : Vec) : vec_eq N (matvec N qt_identity v) v.
Proof.
  intros i Hi. unfold matvec, qt_identity. apply (Csum_delta_l N i v Hi).
Qed.

Lemma vdot_ext (u u' v v' : Vec) :
  vec_eq N u u' -> vec_eq N v v' -> vdot N u v = vdot N u' v'.
Proof.
  intros Hu Hv. unfold vdot. apply Csum_ext. intros k Hk.
  rewrite (Hu k Hk), (Hv k Hk). reflexivity.
Qed.

Lemma vconj_ext (u v : Vec) : vec_eq N u v -> vec_eq N (vconj u) (vconj v).
Proof. intros H i Hi. unfold vconj. rewrite (H i Hi). reflexivity. Qed.

Lemma expectation_ext (A B : Mat) (psi : Vec) :
  mat_eq N A B -> expectation N A psi = expectation N B psi.
Proof.
  intros H. unfold expectation. apply vdot_ext; [intros i _; reflexivity|].
  apply matvec_ext; [exact H|intros i _; reflexivity].
Qed.

Lemma expectation_Id (psi : Vec) :
  expectation N qt_identity psi = vdot N (vconj psi) psi.
Proof.
  unfold expectation. apply vdot_ext; [intros i _; reflexivity|].
  apply matvec_Id.
Qed.

Lemma expectation_madd (A B : Mat) (psi : Vec) :
  expectation N (madd A B) psi
  = (expectation N A psi + expectation N B psi)%C.
Proof.
  unfold expectation, vdot, matvec, madd. rewrite <- Csum_add.
  apply Csum_ext. intros i _.
  rewrite (Csum_ext N (fun k => (A i k + B i k) * psi k)%C
             (fun k => A i k * psi k + B i k * psi k)%C)
    by (intros; ring).
  rewrite Csum_add. ring.
Qed.

(** [<K psi|K psi> = <psi| K† K |psi>]. *)
Lemma vdot_matvec (K : Mat) (psi : Vec) :
  vdot N (vconj (matvec N K psi)) (matvec N K psi)
  = expectation N (matmul N (adjoint K) K) psi.
Proof.
  unfold expectation, vdot, vconj, matvec, matmul, adjoint.
  transitivity
    (Csum N (fun i => Csum N (fun l => Csum N (fun k =>
       (Cconj (psi l) * (Cconj (K i l) * K i k) * psi k)%C)))).
  - apply Csum_ext. intros i _. rewrite Csum_conj, <- Csum_scale_r.
    apply Csum_ext. intros l _. rewrite <- Csum_scale_l.
    apply Csum_ext. intros k _. rewrite Cconj_mul. ring.
  - rewrite Csum_swap. apply Csum_ext. intros l _.
    rewrite Csum_swap. rewrite <- Csum_scale_l.
    apply Csum_ext. intros k _. rewrite <- Csum_scale_r.
    rewrite <- Csum_scale_l. apply Csum_ext. intros i _. ring.
Qed.

Lemma norm2_matvec (K : Mat) (psi : Vec) :
  norm2 N (matvec N K psi)
  = re (expectation N (matmul N (adjoint K) K) psi).
Proof. unfold norm2. rewrite vdot_matvec. reflexivity. Qed.

(** A unitary operator preserves the norm. *)
Lemma norm2_unitary (U : Mat) (psi : Vec) :
  unitary N U -> norm2 N (matvec N U psi) = norm2 N psi.
Proof.
  intros [HU _]. rewrite norm2_matvec.
  rewrite (expectation_ext _ _ psi HU), expectation_Id. reflexivity.
Qed.

Lemma re_Csum (n : nat) (f : nat -> C) (g : nat -> R) :
  (forall k, (k < n)%nat -> re (f k) = g k) ->
  re (Csum n f) = foldr Rplus 0 (g <$> seq 0 n).
Proof.
  induction n as [|n IH]; intros H; [reflexivity|].
  cbn [Csum]. rewrite seq_S, fmap_app, foldr_app. cbn.
  rewrite Rplus_0_r.
  assert (E : forall (l : list R) (x : R),
            foldr Rplus x l = foldr Rplus 0 l + x).
  { induction l as [|y l IHl]; intros x; cbn; [ring|].
    rewrite (IHl x). ring. }
  rewrite E, <- IH by (intros; apply H; lia). rewrite H by lia.
  reflexivity.
Qed.

Lemma norm2_nonneg (v : Vec) : 0 <= norm2 N v.
Proof.
  unfold norm2, vdot.
  rewrite (re_Csum N _ (fun k => Cnorm2 (v k))).
  - induction (seq 0 N) as [|k l IH]; cbn; [lra|].
    pose proof (Cnorm2_nonneg (v k)). lra.
  - intros k _. unfold vconj. rewrite Cconj_mul_self. reflexivity.
Qed.

(** Scaling a vector by the inverse of a non-zero real. *)
Lemma norm2_div (v : Vec) (s : R) :
  s <> 0 -> norm2 N (fun i => v i / RtoC s)%C = norm2 N v / (s * s).
Proof.
  intros Hs. unfold norm2, vdot, vconj.
  rewrite (Csum_ext _ _ (fun k => (Cconj (v k) * v k) * RtoC (/ (s * s)))%C).
  - rewrite Csum_scale_r. destruct (Csum N _) as [x y]. simpl.
    unfold Rdiv. ring.
  - intros k _. unfold Cdiv. rewrite Cinv_real by exact Hs.
    rewrite Cconj_mul, Cconj_RtoC. apply C_eq; simpl; field; exact Hs.
Qed.

End VectorAlgebra.

(** ** The gates as operators *)

Section TranslateGroup.
Variables N batch_size : nat.
Variables K_osc T1_osc : R.
Variable expm : Mat -> Mat.
Hypothesis expm_exact : expm_laws N expm.

Local Notation "A == B" := (mat_eq N A B) (at level 70, no associativity).
Local Abbreviation self := (define_operators N K_osc T1_osc).

Lemma generator_opp (z : C) :
  generator self (Copp z) == adjoint (generator self z).
Proof.
  intros i j Hi Hj. rewrite (generator_antihermitian N K_osc T1_osc z i j Hi Hj).
  unfold generator, msub, mscale, Cdiv, Cinv. apply C_eq; simpl; ring.
Qed.

Lemma generator_zero : generator self Czero == mzero.
Proof.
  intros i j _ _. unfold generator, msub, mscale, mzero, Cdiv, Cinv.
  apply C_eq; simpl; ring.
Qed.

Lemma translate_opp_at (z : C) :
  expm (generator self (Copp z)) == adjoint (expm (generator self z)).
Proof using expm_exact.
  intros i j Hi Hj.
  rewrite (expm_adjoint N expm expm_exact (generator self z) i j Hi Hj).
  apply (expm_proper N expm expm_exact); [apply generator_opp|exact Hi|exact Hj].
Qed.

Lemma translate_zero_at : expm (generator self Czero) == qt_identity.
Proof using expm_exact.
  intros i j Hi Hj.
  rewrite <- (expm_zero N expm expm_exact i j Hi Hj).
  apply (expm_proper N expm expm_exact); [apply generator_zero|exact Hi|exact Hj].
Qed.

End TranslateGroup.

(** X6: [translate] returns one unitary operator per batch element: for
    the opposite amplitude it returns the adjoint, which is the inverse,
    for the amplitude [0] the identity, and applied to a batch of states
    it leaves the norm of each as it is. *)
Theorem translate_unitary_group (N batch_size : nat) (K_osc T1_osc : R)
    (expm : Mat -> Mat) (amplitude : list C) :
  expm_laws N expm ->
  length amplitude = batch_size ->
  let self := define_operators N K_osc T1_osc in
  let T := translate batch_size self expm amplitude in
  length T = batch_size
  /\ Forall (unitary N) T
  /\ Forall2 (mat_eq N)
       (translate batch_size self expm (Copp <$> amplitude))
       (adjoint <$> T)
  /\ Forall (fun U => mat_eq N U qt_identity)
       (translate batch_size self expm (replicate batch_size Czero))
  /\ forall psi : list Vec,
       length psi = batch_size ->
       Forall2 (fun v' v => norm2 N v' = norm2 N v)
               (batch_dot_mv N T psi) psi.
Proof.
  intros Hexp Hlen self T. subst self T.
  assert (HT : length (translate batch_size
                         (define_operators N K_osc T1_osc) expm amplitude)
               = batch_size) by (apply translate_length, Hlen).
  split; [exact HT|]. split; [|split; [|split]].
  - apply Forall_lookup. intros i U HU.
    exact (translate_unitary N batch_size K_osc T1_osc expm Hexp _ i U HU).
  - apply Forall2_same_length_lookup. split.
    + rewrite length_fmap, HT. apply translate_length.
      rewrite length_fmap. exact Hlen.
    + intros i U V HU HV.
      apply translate_lookup in HU as (z & Hz & ->).
      apply list_lookup_fmap_Some in HV as (W & -> & HW).
      apply translate_lookup in HW as (z' & Hz' & ->).
      apply list_lookup_fmap_Some in Hz as (w & -> & Hw).
      rewrite Hz' in Hw. injection Hw as <-.
      apply translate_opp_at, Hexp.
  - apply Forall_lookup. intros i U HU.
    apply translate_lookup in HU as (z & Hz & ->).
    apply lookup_replicate in Hz as [-> _].
    apply translate_zero_at, Hexp.
  - intros psi Hpsi. unfold batch_dot_mv.
    apply Forall2_same_length_lookup. split.
    + rewrite length_zip_with, HT, Hpsi. lia.
    + intros i v' v Hv' Hv.
      apply lookup_zip_with_Some in Hv' as (U & w & -> & HU & Hw).
      rewrite Hv in Hw. injection Hw as <-.
      apply norm2_unitary.
      exact (translate_unitary N batch_size K_osc T1_osc expm Hexp _ i U HU).
Qed.

Lemma translate_unitary_group_witness :
  let self := define_operators 1 1 1 in
  let T := translate 2 self expm_1x1 [Cone; Ci] in
  length T = 2%nat
  /\ Forall (unitary 1) T
  /\ Forall2 (mat_eq 1)
       (translate 2 self expm_1x1 (Copp <$> [Cone; Ci])) (adjoint <$> T)
  /\ Forall (fun U => mat_eq 1 U qt_identity)
       (translate 2 self expm_1x1 (replicate 2 Czero))
  /\ forall psi : list Vec,
       length psi = 2%nat ->
       Forall2 (fun v' v => norm2 1 v' = norm2 1 v)
               (batch_dot_mv 1 T psi) psi.
Proof.
  apply (translate_unitary_group 1 2 1 1 expm_1x1 [Cone; Ci]);
    [exact expm_1x1_laws | reflexivity].
Defined.

(** X7: [phase] returns one factor of modulus [1] per entry; it turns the
    sum of two batches of angles of one shape into the product of the
    factors and has the period [2 pi]. *)
Theorem phase_unit_modulus (phi theta : list R) :
  length theta = length phi ->
  length (phase phi) = length phi
  /\ Forall (fun p => Cnorm2 p = 1) (phase phi)
  /\ phase (zip_with Rplus phi theta)
     = zip_with Cmul (phase phi) (phase theta)
  /\ phase ((fun x => x + 2 * PI) <$> phi) = phase phi.
Proof.
  intros _. unfold phase. split; [apply length_fmap|]. split; [|split].
  - apply Forall_fmap, Forall_forall. intros x _. apply Cnorm2_Cexp_Ci.
  - revert theta. induction phi as [|x phi IH]; intros [|y theta];
      cbn; try reflexivity.
    rewrite <- IH. f_equal. rewrite <- Cexp_add. f_equal. Ceq.
  - rewrite <- list_fmap_compose. apply list_fmap_ext. intros _ x _.
    unfold compose, Cexp. cbn.
    replace (0 * 0 + 1 * (x + 2 * PI)) with (x + 2 * PI) by ring.
    replace (0 * 0 + 1 * x) with x by ring.
    replace (0 * (x + 2 * PI) - 1 * 0) with (0 * x - 1 * 0) by ring.
    rewrite cos_plus, sin_plus, cos_2PI, sin_2PI. f_equal; ring.
Qed.

Lemma phase_unit_modulus_witness :
  length (phase [0; PI]) = 2%nat
  /\ Forall (fun p => Cnorm2 p = 1) (phase [0; PI])
  /\ phase (zip_with Rplus [0; PI] [PI; PI])
     = zip_with Cmul (phase [0; PI]) (phase [PI; PI])
  /\ phase ((fun x => x + 2 * PI) <$> [0; PI]) = phase [0; PI].
Proof. apply (phase_unit_modulus [0; PI] [PI; PI]). reflexivity. Defined.

Lemma normalize_entries (N : nat) (state : list Vec) :
  Forall2 (fun v' v => forall i, v' i = (v i / RtoC (sqrt (norm2 N v)))%C)
          (normalize N state) state.
Proof.
  apply Forall2_same_length_lookup. split.
  - apply normalize_length.
  - intros i v' v Hv' Hv. unfold normalize, batch_dot_vv in Hv'.
    apply lookup_zip_with_Some in Hv' as (w & n & -> & Hw & Hn).
    same_lookup Hv Hw.
    apply list_lookup_fmap_Some in Hn as (x & -> & Hx).
    apply list_lookup_fmap_Some in Hx as (d & -> & Hd).
    apply lookup_zip_with_Some in Hd as (cv & w & -> & Hcv & Hw).
    same_lookup Hv Hw.
    apply list_lookup_fmap_Some in Hcv as (w & -> & Hw).
    same_lookup Hv Hw. reflexivity.
Qed.

Lemma normalize_norm2 (N : nat) (state : list Vec) :
  Forall (fun v => 0 < norm2 N v) state ->
  Forall (fun v' => norm2 N v' = 1) (normalize N state).
Proof.
  intros Hpos. apply Forall_lookup. intros i v' Hv'.
  destruct (Forall2_lookup_l _ _ _ _ _ (normalize_entries N state) Hv')
    as (v & Hv & E).
  pose proof (Forall_lookup_1 _ _ _ _ Hpos Hv) as Hn. cbn in Hn.
  rewrite (norm2_ext N v' (fun i => (v i / RtoC (sqrt (norm2 N v)))%C))
    by (intros; apply E).
  rewrite norm2_div by (apply Rgt_not_eq, sqrt_lt_R0, Hn).
  rewrite sqrt_sqrt by lra. field. lra.
Qed.

(** X8: [normalize] divides every state of non-zero norm by its norm: the
    result has norm [1], and normalizing it again changes nothing. *)
Theorem normalize_unit_norm (N : nat) (state : list Vec) :
  Forall (fun v => 0 < norm2 N v) state ->
  length (normalize N state) = length state
  /\ Forall2 (fun v' v => forall i, v' i = (v i / RtoC (sqrt (norm2 N v)))%C)
             (normalize N state) state
  /\ Forall (fun v' => norm2 N v' = 1) (normalize N state)
  /\ Forall2 (fun v'' v' => forall i, v'' i = v' i)
             (normalize N (normalize N state)) (normalize N state).
Proof.
  intros Hpos. pose proof (normalize_norm2 N state Hpos) as Hunit.
  split; [apply normalize_length|]. split; [apply normalize_entries|].
  split; [exact Hunit|].
  apply Forall2_same_length_lookup. split; [apply normalize_length|].
  intros i v'' v' Hv'' Hv' k.
  destruct (Forall2_lookup_l _ _ _ _ _
              (normalize_entries N (normalize N state)) Hv'')
    as (w & Hw & E).
  same_lookup Hv' Hw. rewrite E.
  rewrite (Forall_lookup_1 _ _ _ _ Hunit Hv'), sqrt_1.
  unfold Cdiv. rewrite Cinv_real by lra. Ceq.
Qed.

Lemma normalize_unit_norm_witness :
  length (normalize 1 [fun _ => RtoC 2]) = 1%nat
  /\ Forall2 (fun v' v => forall i, v' i = (v i / RtoC (sqrt (norm2 1 v)))%C)
             (normalize 1 [fun _ => RtoC 2]) [fun _ => RtoC 2]
  /\ Forall (fun v' => norm2 1 v' = 1) (normalize 1 [fun _ => RtoC 2])
  /\ Forall2 (fun v'' v' => forall i, v'' i = v' i)
             (normalize 1 (normalize 1 [fun _ => RtoC 2]))
             (normalize 1 [fun _ => RtoC 2]).
Proof.
  apply (normalize_unit_norm 1 [fun _ => RtoC 2]).
  repeat constructor. unfold norm2, vdot, vconj. simpl. lra.
Defined.

(** ** The weights of the two branches *)

Lemma re_Cadd (a b : C) : re (a + b) = re a + re b.
Proof. reflexivity. Qed.

Lemma branch_weight_nonneg (N : nat) (K : Mat) (psi : Vec) :
  0 <= branch_weight N K psi.
Proof. apply norm2_nonneg. Qed.

(** For a complete pair the weights add up to the squared norm of the
    state. *)
Lemma branch_weights_complete (N : nat) (K0 K1 : Mat) (psi : Vec) :
  complete N K0 K1 ->
  branch_weight N K0 psi + branch_weight N K1 psi = norm2 N psi.
Proof.
  intros Hc. unfold branch_weight. rewrite !norm2_matvec, <- re_Cadd.
  rewrite <- expectation_madd, (expectation_ext N _ _ psi Hc).
  rewrite expectation_Id. reflexivity.
Qed.

Lemma measurement_complete_probs (N : nat) (psi : list Vec)
    (Kraus : Kraus2) (b : nat) (K0 K1 : Mat) (v : Vec) :
  Kraus_0 Kraus !! b = Some K0 ->
  Kraus_1 Kraus !! b = Some K1 ->
  psi !! b = Some v ->
  complete N K0 K1 ->
  norm2 N v = 1 ->
  Pr (measurement N psi Kraus) (fun r => bool_decide (r.2 !! b = Some [1]))
  = branch_weight N K0 v
  /\ Pr (measurement N psi Kraus)
        (fun r => bool_decide (r.2 !! b = Some [-1]))
     = branch_weight N K1 v
  /\ branch_weight N K0 v + branch_weight N K1 v = 1.
Proof.
  intros H0 H1 Hv Hc Hn.
  pose proof (branch_weights_complete N K0 K1 v Hc) as Hsum.
  rewrite Hn in Hsum.
  pose proof (outcome1_probs_lookup N _ _ _ b K0 K1 v H0 H1 Hv) as Hq.
  destruct (Pr_Bernoulli_sample_entry _ b _ Hq) as [E1 E0].
  rewrite Hsum in E1, E0.
  rewrite measurement_unfold, !Pr_dbind_dret. cbn [snd].
  split; [|split].
  - transitivity (1 - branch_weight N K1 v / 1); [|lra].
    rewrite <- E0. apply Pr_ext. intros x _.
    apply bool_decide_ext, remap_lookup_plus.
  - transitivity (branch_weight N K1 v / 1); [|lra].
    rewrite <- E1. apply Pr_ext. intros x _.
    apply bool_decide_ext, remap_lookup_minus.
  - exact Hsum.
Qed.

(** X9: on a state of norm [1] and a complete pair of operators,
    [measurement] follows the Born rule: on each batch element the outcome
    [+1] has the probability [|Kraus[0] psi|^2] and [-1] the probability
    [|Kraus[1] psi|^2], and the two add up to [1]. *)
Theorem measurement_born_rule (N : nat) (psi : list Vec) (Kraus : Kraus2)
    (b : nat) (K0 K1 : Mat) (v : Vec) :
  Kraus_0 Kraus !! b = Some K0 ->
  Kraus_1 Kraus !! b = Some K1 ->
  psi !! b = Some v ->
  complete N K0 K1 ->
  norm2 N v = 1 ->
  Pr (measurement N psi Kraus) (fun r => bool_decide (r.2 !! b = Some [1]))
  = branch_weight N K0 v
  /\ Pr (measurement N psi Kraus)
        (fun r => bool_decide (r.2 !! b = Some [-1]))
     = branch_weight N K1 v
  /\ 0 <= branch_weight N K0 v
  /\ 0 <= branch_weight N K1 v
  /\ branch_weight N K0 v + branch_weight N K1 v = 1.
Proof.
  intros H0 H1 Hv Hc Hn.
  destruct (measurement_complete_probs N psi Kraus b K0 K1 v H0 H1 Hv Hc Hn)
    as (E0 & E1 & Hsum).
  split; [exact E0|]. split; [exact E1|].
  split; [apply branch_weight_nonneg|].
  split; [apply branch_weight_nonneg|exact Hsum].
Qed.

Lemma measurement_born_rule_witness :
  Pr (measurement 1 cex_psi cex_Kraus)
     (fun r => bool_decide (r.2 !! O = Some [1]))
  = branch_weight 1 (fun _ _ => mkC (1 / 2) (1 / 2)) (fun _ => Cone)
  /\ Pr (measurement 1 cex_psi cex_Kraus)
        (fun r => bool_decide (r.2 !! O = Some [-1]))
     = branch_weight 1 (fun _ _ => mkC (1 / 2) (- (1 / 2))) (fun _ => Cone)
  /\ 0 <= branch_weight 1 (fun _ _ => mkC (1 / 2) (1 / 2)) (fun _ => Cone)
  /\ 0 <= branch_weight 1 (fun _ _ => mkC (1 / 2) (- (1 / 2)))
                        (fun _ => Cone)
  /\ branch_weight 1 (fun _ _ => mkC (1 / 2) (1 / 2)) (fun _ => Cone)
     + branch_weight 1 (fun _ _ => mkC (1 / 2) (- (1 / 2))) (fun _ => Cone)
     = 1.
Proof.
  apply (measurement_born_rule 1 cex_psi cex_Kraus O
           (fun _ _ => mkC (1 / 2) (1 / 2))
           (fun _ _ => mkC (1 / 2) (- (1 / 2))) (fun _ => Cone));
    try reflexivity.
  - intros i j Hi Hj. unfold madd, matmul, adjoint, qt_identity. simpl.
    replace i with O by lia. replace j with O by lia. simpl.
    apply C_eq; simpl; lra.
  - unfold norm2, vdot, vconj, Cone. simpl. lra.
Defined.

(** ** Phase estimation *)

Section PhaseEstimation.
Variable N : nat.

Lemma re_Csum_ext (n : nat) (f g : nat -> C) :
  (forall k, (k < n)%nat -> re (f k) = re (g k)) ->
  re (Csum n f) = re (Csum n g).
Proof.
  induction n as [|n IH]; intros H; [reflexivity|].
  cbn [Csum]. rewrite !re_Cadd, IH by (intros; apply H; lia).
  rewrite H by lia. reflexivity.
Qed.

Lemma matvec_half (c : C) (A B : Mat) (v : Vec) (i : nat) :
  matvec N (mscale c (madd A B)) v i
  = (c * (matvec N A v i + matvec N B v i))%C.
Proof.
  unfold matvec, mscale, madd. rewrite <- Csum_add, <- Csum_scale_l.
  apply Csum_ext. intros k _. ring.
Qed.

Lemma matvec_half_sub (c : C) (A B : Mat) (v : Vec) (i : nat) :
  matvec N (mscale c (msub A B)) v i
  = (c * (matvec N A v i - matvec N B v i))%C.
Proof.
  unfold matvec, mscale, msub. rewrite <- Csum_sub, <- Csum_scale_l.
  apply Csum_ext. intros k _. ring.
Qed.

(** The difference of the weights of the branches [(I ± U)/2] is the real
    part of the expectation of [U]. *)
Lemma branch_weights_difference (U : Mat) (v : Vec) :
  branch_weight N (mscale (RtoC (1 / 2)) (madd qt_identity U)) v
  - branch_weight N (mscale (RtoC (1 / 2)) (msub qt_identity U)) v
  = re (expectation N U v).
Proof.
  unfold branch_weight, norm2, expectation, vdot.
  set (u := matvec N U v).
  transitivity
    (re (Csum N (fun k =>
           (vconj (matvec N (mscale (RtoC (1 / 2)) (madd qt_identity U)) v) k
            * matvec N (mscale (RtoC (1 / 2)) (madd qt_identity U)) v k
            - vconj (matvec N (mscale (RtoC (1 / 2)) (msub qt_identity U)) v) k
              * matvec N (mscale (RtoC (1 / 2)) (msub qt_identity U)) v k)%C))).
  { rewrite Csum_sub. reflexivity. }
  apply re_Csum_ext. intros k Hk. unfold vconj.
  rewrite matvec_half, matvec_half_sub, (matvec_Id N v k Hk).
  fold u. destruct (v k) as [a b], (u k) as [c d]. simpl. field.
Qed.

Lemma expectation_mscale (c : C) (A : Mat) (v : Vec) :
  expectation N (mscale c A) v = (c * expectation N A v)%C.
Proof.
  unfold expectation, vdot, matvec, mscale. rewrite <- Csum_scale_l.
  apply Csum_ext. intros i _.
  rewrite (Csum_ext N (fun k => c * A i k * v k)%C
             (fun k => c * (A i k * v k))%C) by (intros; ring).
  rewrite Csum_scale_l. ring.
Qed.

End PhaseEstimation.

Section PhaseEstimationCircuit.
Variables N batch_size : nat.
Variables K_osc T1_osc : R.
Variable expm : Mat -> Mat.
Hypothesis expm_exact : expm_laws N expm.

Local Abbreviation self := (define_operators N K_osc T1_osc).

(** The two operators of [phase_estimation] on one batch element. *)
Local Abbreviation K_plus theta beta :=
  (mscale (RtoC (1 / 2))
     (madd qt_identity
           (mscale (Cexp (Ci * RtoC theta)) (expm (generator self beta))))).
Local Abbreviation K_minus theta beta :=
  (mscale (RtoC (1 / 2))
     (msub qt_identity
           (mscale (Cexp (Ci * RtoC theta)) (expm (generator self beta))))).

Lemma translate_lookup_Some (amplitude : list C) (i : nat) (z : C) :
  length amplitude = batch_size ->
  amplitude !! i = Some z ->
  translate batch_size self expm amplitude !! i
  = Some (expm (generator self z)).
Proof.
  intros Hlen Hz.
  assert (Hi : (i < length (translate batch_size self expm amplitude))%nat).
  { rewrite translate_length by exact Hlen. rewrite <- Hlen.
    eapply lookup_lt_Some, Hz. }
  apply lookup_lt_is_Some in Hi as (T & HT). rewrite HT.
  apply translate_lookup in HT as (z' & Hz' & ->).
  rewrite Hz in Hz'. injection Hz' as <-. reflexivity.
Qed.

Lemma phase_estimation_Kraus_lookup (beta : list C) (angle : list R)
    (i : nat) (b : C) (theta : R) :
  length beta = batch_size ->
  beta !! i = Some b -> angle !! i = Some theta ->
  (mscale (RtoC (1 / 2)) <$>
     zip_with madd (replicate batch_size (self_I self))
       (zip_with mscale (phase angle)
          (translate batch_size self expm beta))) !! i
  = Some (K_plus theta b)
  /\ (mscale (RtoC (1 / 2)) <$>
        zip_with msub (replicate batch_size (self_I self))
          (zip_with mscale (phase angle)
             (translate batch_size self expm beta))) !! i
     = Some (K_minus theta b).
Proof.
  intros Hlen Hb Ht.
  assert (Hi : (i < batch_size)%nat).
  { rewrite <- Hlen. eapply lookup_lt_Some, Hb. }
  rewrite !list_lookup_fmap, !lookup_zip_with.
  rewrite lookup_replicate_2 by exact Hi.
  unfold phase. rewrite list_lookup_fmap, Ht.
  rewrite (translate_lookup_Some beta i b Hlen Hb). split; reflexivity.
Qed.

Lemma weights_lookup (Ks : list Mat) (psi : list Vec) (i : nat) (K : Mat)
    (v : Vec) :
  Ks !! i = Some K -> psi !! i = Some v ->
  (re <$> batch_dot_vv N (vconj <$> batch_dot_mv N Ks psi)
                         (batch_dot_mv N Ks psi)) !! i
  = Some (branch_weight N K v).
Proof.
  intros HK Hv. unfold batch_dot_vv, batch_dot_mv.
  rewrite list_lookup_fmap, lookup_zip_with, list_lookup_fmap.
  rewrite !lookup_zip_with, HK. cbn. unfold Vec in *. rewrite Hv.
  reflexivity.
Qed.

Lemma phase_estimation_complete (theta : R) (b : C) :
  complete N (K_plus theta b) (K_minus theta b).
Proof using expm_exact.
  apply complete_v1.
  - rewrite Cconj_mul_self, Cnorm2_Cexp_Ci. reflexivity.
  - apply (expm_unitary N expm expm_exact), generator_antihermitian.
Qed.

End PhaseEstimationCircuit.

(** X10: without sampling, [phase_estimation] returns the normalized states
    and, on each batch element, the expectation of the qubit's [sigma_z]:
    the real part of [exp(i angle) <psi| T(beta) |psi>], a number between
    [-1] and [1]; with sampling it returns [+1] with the probability
    [(1 + z)/2] and [-1] with the probability [(1 - z)/2] for this same
    [z]. *)
Theorem phase_estimation_expectation (N batch_size : nat) (K_osc T1_osc : R)
    (expm : Mat -> Mat) (psi : list Vec) (beta : list C) (angle : list R) :
  expm_laws N expm ->
  length psi = batch_size -> length beta = batch_size ->
  length angle = batch_size ->
  Forall (fun v => 0 < norm2 N v) psi ->
  let self := define_operators N K_osc T1_osc in
  exists z : Tensor2,
    phase_estimation N batch_size self expm psi beta angle false
    = dret (normalize N psi, z)
    /\ length z = batch_size
    /\ forall i v b theta,
         normalize N psi !! i = Some v -> beta !! i = Some b ->
         angle !! i = Some theta ->
         exists x,
           z !! i = Some [x]
           /\ x = re (Cexp (Ci * RtoC theta)
                      * expectation N (expm (generator self b)) v)%C
           /\ -1 <= x <= 1
           /\ Pr (phase_estimation N batch_size self expm psi beta angle
                    true)
                 (fun r => bool_decide (r.2 !! i = Some [1]))
              = (1 + x) / 2
           /\ Pr (phase_estimation N batch_size self expm psi beta angle
                    true)
                 (fun r => bool_decide (r.2 !! i = Some [-1]))
              = (1 - x) / 2.
Proof.
  intros Hexp Hpsi Hbeta Hangle Hpos self. subst self.
  unfold phase_estimation. eexists. split; [reflexivity|]. split.
  - unfold batch_dot_vv, batch_dot_mv, phase. cbn [Kraus_0 Kraus_1].
    repeat first
      [ rewrite length_fmap | rewrite length_zip_with
      | rewrite length_replicate | rewrite normalize_length
      | rewrite (translate_length N batch_size K_osc T1_osc expm beta
                   Hbeta) ].
    lia.
  - intros i v b theta Hv Hb Ht.
    destruct (phase_estimation_Kraus_lookup N batch_size K_osc T1_osc expm
                beta angle i b theta Hbeta Hb Ht) as [H0 H1].
    pose proof (weights_lookup N _ _ i _ v H0 Hv) as Hp0.
    pose proof (weights_lookup N _ _ i _ v H1 Hv) as Hp1.
    pose proof (Forall_lookup_1 _ _ _ _ (normalize_norm2 N psi Hpos) Hv)
      as Hn. cbn in Hn.
    pose proof (phase_estimation_complete N K_osc T1_osc expm Hexp theta b)
      as Hc.
    destruct (measurement_complete_probs N (normalize N psi)
                (mkKraus2 _ _) i _ _ v H0 H1 Hv Hc Hn)
      as (E0 & E1 & Hsum).
    pose proof (branch_weights_difference N
                  (mscale (Cexp (Ci * RtoC theta))
                     (expm (generator (define_operators N K_osc T1_osc) b)))
                  v) as Hd.
    rewrite expectation_mscale in Hd.
    pose proof (branch_weight_nonneg N
                  (mscale (RtoC (1 / 2))
                     (madd qt_identity
                        (mscale (Cexp (Ci * RtoC theta))
                           (expm (generator
                                    (define_operators N K_osc T1_osc) b)))))
                  v) as Hn0.
    pose proof (branch_weight_nonneg N
                  (mscale (RtoC (1 / 2))
                     (msub qt_identity
                        (mscale (Cexp (Ci * RtoC theta))
                           (expm (generator
                                    (define_operators N K_osc T1_osc) b)))))
                  v) as Hn1.
    eexists. split.
    { rewrite list_lookup_fmap. cbn [Kraus_0 Kraus_1].
      erewrite (proj2 (lookup_zip_with_Some Rminus _ _ i _));
        [reflexivity|].
      eexists _, _. split; [reflexivity|]. split; [exact Hp0|exact Hp1]. }
    split; [exact Hd|]. split; [lra|].
    cbn [Kraus_0 Kraus_1] in E0, E1. rewrite E0, E1. lra.
Qed.

Lemma phase_estimation_expectation_witness :
  let self := define_operators 1 1 1 in
  exists z : Tensor2,
    phase_estimation 1 1 self expm_1x1 [fun _ => RtoC 2] [Cone] [0] false
    = dret (normalize 1 [fun _ => RtoC 2], z)
    /\ length z = 1%nat
    /\ forall i v b theta,
         normalize 1 [fun _ => RtoC 2] !! i = Some v ->
         [Cone] !! i = Some b -> [0] !! i = Some theta ->
         exists x,
           z !! i = Some [x]
           /\ x = re (Cexp (Ci * RtoC theta)
                      * expectation 1 (expm_1x1 (generator self b)) v)%C
           /\ -1 <= x <= 1
           /\ Pr (phase_estimation 1 1 self expm_1x1 [fun _ => RtoC 2]
                    [Cone] [0] true)
                 (fun r => bool_decide (r.2 !! i = Some [1]))
              = (1 + x) / 2
           /\ Pr (phase_estimation 1 1 self expm_1x1 [fun _ => RtoC 2]
                    [Cone] [0] true)
                 (fun r => bool_decide (r.2 !! i = Some [-1]))
              = (1 - x) / 2.
Proof.
  apply (phase_estimation_expectation 1 1 1 1 expm_1x1 [fun _ => RtoC 2]
           [Cone] [0]); try reflexivity.
  - exact expm_1x1_laws.
  - repeat constructor. unfold norm2, vdot, vconj. simpl. lra.
Defined.

(** ** The Kraus map of one time slice, on the oscillator *)

Section KrausSlice.
Variable N : nat.
Variables K_osc T1_osc dt : R.
Hypothesis T1_pos : 0 < T1_osc.
Hypothesis dt_nonneg : 0 <= dt.

Local Notation "A == B" := (mat_eq N A B) (at level 70, no associativity).
Local Notation "A × B" := (matmul N A B) (at level 40, left associativity).
Local Notation "A †" := (adjoint A) (at level 1, format "A †").
Local Abbreviation self := (define_operators N K_osc T1_osc).

(** A product of two diagonal matrices. *)
Lemma matmul_diagonal (f g : nat -> C) :
  (fun i j => if (i =? j)%nat then f i else Czero)
  × (fun i j => if (i =? j)%nat then g i else Czero)
  == fun i j => if (i =? j)%nat then (f i * g i)%C else Czero.
Proof.
  intros i j Hi Hj. unfold matmul.
  rewrite (Csum_ext _ _
    (fun k => if (k =? i)%nat
              then (f i * (if (k =? j)%nat then g k else Czero))%C
              else Czero)).
  2:{ intros k _. rewrite (Nat.eqb_sym i k).
      destruct (k =? i)%nat; [reflexivity|ring]. }
  rewrite Csum_pick.
  replace (i <? N)%nat with true by (symmetry; apply Nat.ltb_lt; lia).
  destruct (i =? j)%nat; ring.
Qed.

(** The jump operator of photon loss, squared. *)
Lemma loss_squared :
  (mscale (RtoC (sqrt (1 / T1_osc))) qt_destroy)†
  × mscale (RtoC (sqrt (1 / T1_osc))) qt_destroy
  == mscale (RtoC (1 / T1_osc)) qt_num.
Proof using T1_pos.
  assert (Hs : sqrt (1 / T1_osc) * sqrt (1 / T1_osc) = 1 / T1_osc).
  { apply sqrt_sqrt. apply Rlt_le, Rdiv_lt_0_compat; lra. }
  rewrite adjoint_mscale, matmul_mscale_l, matmul_mscale_r, mscale_mscale.
  rewrite Cconj_RtoC, RtoC_mul, Hs.
  intros i j Hi Hj. unfold mscale. f_equal.
  rewrite <- (create_destroy_num N i j Hi Hj). unfold matmul.
  apply Csum_ext. intros k _. rewrite create_adjoint_destroy. reflexivity.
Qed.

(** The entries of the no-jump operator. *)
Lemma no_jump_entries (K0 : Mat) :
  (forall i j,
     K0 i j = K0_spec N (self_I self) (self_Hamiltonian self)
                      (self_c_ops self) dt i j) ->
  K0 == fun i j =>
          if (i =? j)%nat
          then mkC (1 - INR i / T1_osc * dt / 2)
                   (PI * K_osc * (INR i * INR i) * dt)
          else Czero.
Proof using T1_pos.
  intros E i j Hi Hj. rewrite E. unfold K0_spec.
  rewrite (Hamiltonian_entries N K_osc T1_osc i j Hi Hj).
  cbn [define_operators self_I self_c_ops sum_cdag_c foldr].
  unfold madd at 1. rewrite (loss_squared i j Hi Hj).
  unfold mscale, mzero, qt_identity, qt_num.
  destruct (i =? j)%nat; apply C_eq; simpl; field; lra.
Qed.

Lemma slice_defect (K0 K1 : Mat) :
  (forall i j,
     K0 i j = K0_spec N (self_I self) (self_Hamiltonian self)
                      (self_c_ops self) dt i j) ->
  (forall i j,
     K1 i j = Kk_spec (mscale (RtoC (sqrt (1 / T1_osc))) qt_destroy) dt i j) ->
  madd (K0† × K0) (K1† × K1)
  == fun i j =>
       if (i =? j)%nat
       then RtoC (1 + dt * dt
                      * ((PI * K_osc * (INR i * INR i))
                         * (PI * K_osc * (INR i * INR i))
                         + (INR i / (2 * T1_osc))
                           * (INR i / (2 * T1_osc))))
       else Czero.
Proof using T1_pos dt_nonneg.
  intros E0 E1.
  pose proof (no_jump_entries K0 E0) as H0.
  assert (H0' : K0† == fun i j =>
            if (i =? j)%nat
            then Cconj (mkC (1 - INR i / T1_osc * dt / 2)
                            (PI * K_osc * (INR i * INR i) * dt))
            else Czero).
  { intros i j Hi Hj. unfold adjoint. rewrite (H0 j i Hj Hi).
    rewrite (Nat.eqb_sym j i).
    destruct (Nat.eqb_spec i j) as [->|_]; [reflexivity|Ceq]. }
  assert (H1 : K1† × K1 == mscale (RtoC (dt / T1_osc)) qt_num).
  { assert (EK : K1 == mscale (RtoC (sqrt dt))
                         (mscale (RtoC (sqrt (1 / T1_osc))) qt_destroy)).
    { intros i j _ _. rewrite E1. reflexivity. }
    rewrite EK.
    rewrite adjoint_mscale, matmul_mscale_l, matmul_mscale_r, mscale_mscale.
    rewrite loss_squared, mscale_mscale.
    rewrite Cconj_RtoC, !RtoC_mul, sqrt_sqrt by exact dt_nonneg.
    intros i j _ _. unfold mscale. f_equal. f_equal. field. lra. }
  intros i j Hi Hj. unfold madd.
  rewrite (H1 i j Hi Hj).
  assert (E : (K0† × K0) i j
              = ((fun i j => if (i =? j)%nat
                  then Cconj (mkC (1 - INR i / T1_osc * dt / 2)
                                  (PI * K_osc * (INR i * INR i) * dt))
                  else Czero)
                 × (fun i j => if (i =? j)%nat
                    then mkC (1 - INR i / T1_osc * dt / 2)
                             (PI * K_osc * (INR i * INR i) * dt)
                    else Czero)) i j).
  { unfold matmul. apply Csum_ext. intros k Hk.
    rewrite (H0' i k Hi Hk), (H0 k j Hk Hj). reflexivity. }
  rewrite E, (matmul_diagonal _ _ i j Hi Hj).
  unfold mscale, qt_num. destruct (i =? j)%nat;
    apply C_eq; simpl; field; lra.
Qed.

End KrausSlice.

(** X11: the Kraus map of one time slice of the oscillator (Kerr
    Hamiltonian, photon loss) has the two operators [K0] and [K1] and is
    complete up to the second order in the time step:
    [K0† K0 + K1† K1] is diagonal with the entries
    [1 + dt^2 ((pi K_osc i^2)^2 + (i / (2 T1_osc))^2)]. *)
Theorem Kraus_slice_second_order (N batch_size : nat)
    (K_osc T1_osc dt t_gate t_read t_delay : R) :
  0 < T1_osc -> 0 <= dt ->
  let self := define_operators N K_osc T1_osc in
  let Kraus :=
    sim_Kraus (init_monte_carlo_sim N batch_size self dt t_gate t_read
                 t_delay).1 in
  exists K0 K1,
    Kraus !! O = Some (replicate batch_size K0)
    /\ Kraus !! 1%nat = Some (replicate batch_size K1)
    /\ (forall k, (1 < k)%nat -> Kraus !! k = None)
    /\ mat_eq N
         (madd (matmul N (adjoint K0) K0) (matmul N (adjoint K1) K1))
         (fun i j =>
            if (i =? j)%nat
            then RtoC (1 + dt * dt
                           * ((PI * K_osc * (INR i * INR i))
                              * (PI * K_osc * (INR i * INR i))
                              + (INR i / (2 * T1_osc))
                                * (INR i / (2 * T1_osc))))
            else Czero).
Proof.
  intros HT Hdt self Kraus. subst self Kraus.
  unfold init_monte_carlo_sim, Kraus_tf, Kraus_ops. cbn [fst snd sim_Kraus].
  set (self := define_operators N K_osc T1_osc).
  set (Kr := ({[ O := msub (self_I self)
                       (mscale (RtoC dt) (mscale Ci (self_Hamiltonian self))) ]}
              : gmap nat Mat)).
  assert (HKr : Kr !! O = Some (msub (self_I self)
                  (mscale (RtoC dt) (mscale Ci (self_Hamiltonian self)))))
    by apply lookup_singleton_eq.
  destruct (Kraus_loop_foldl N dt (self_c_ops self) O Kr _ HKr)
    as ((A' & HA' & EA') & Hk & Hother).
  unfold Mat in *.
  exists A', (mscale (RtoC (sqrt dt))
                (mscale (RtoC (sqrt (1 / T1_osc))) qt_destroy)).
  split; [rewrite lookup_fmap, HA'; reflexivity|]. split; [|split].
  - specialize (Hk O _ eq_refl). rewrite Nat.add_0_l in Hk.
    rewrite lookup_fmap, Hk. reflexivity.
  - intros k Hlt. rewrite lookup_fmap, Hother by (cbn; lia).
    unfold Kr. rewrite lookup_singleton_ne by lia. reflexivity.
  - apply (slice_defect N K_osc T1_osc dt HT Hdt).
    + intros i j. rewrite EA'. subst self. unfold K0_spec, msub, mscale.
      ring.
    + intros i j. reflexivity.
Qed.

Lemma Kraus_slice_second_order_witness :
  let self := define_operators 2 1 1 in
  let Kraus := sim_Kraus (init_monte_carlo_sim 2 3 self 1 1 1 1).1 in
  exists K0 K1,
    Kraus !! O = Some (replicate 3 K0)
    /\ Kraus !! 1%nat = Some (replicate 3 K1)
    /\ (forall k, (1 < k)%nat -> Kraus !! k = None)
    /\ mat_eq 2
         (madd (matmul 2 (adjoint K0) K0) (matmul 2 (adjoint K1) K1))
         (fun i j =>
            if (i =? j)%nat
            then RtoC (1 + 1 * 1
                           * ((PI * 1 * (INR i * INR i))
                              * (PI * 1 * (INR i * INR i))
                              + (INR i / (2 * 1)) * (INR i / (2 * 1))))
            else Czero).
Proof.
  apply (Kraus_slice_second_order 2 3 1 1 1 1 1 1); lra.
Defined.

(** ** Steps without a reset, and actions without a component *)

Lemma getitem_bind_missing {A B} (d : gmap string A) (k : string)
    (f : A -> M B) (r : res B) :
  d !! k = None ->
  possible (mbind (getitem d k) f) r <-> r = Raise (KeyError k).
Proof.
  intros Hk. rewrite possible_mbind. split.
  - intros [(x & Hx & _)|(e & He & ->)].
    + apply possible_getitem in Hx. rewrite Hk in Hx. discriminate.
    + apply possible_getitem in He. rewrite Hk in He.
      injection He as ->. reflexivity.
  - intros ->. right. exists (KeyError k). split; [|reflexivity].
    apply possible_getitem. rewrite Hk. reflexivity.
Qed.

Lemma getitem_bind_present {A B} (d : gmap string A) (k : string) (x : A)
    (f : A -> M B) (r : res B) :
  d !! k = Some x ->
  possible (mbind (getitem d k) f) r <-> possible (f x) r.
Proof.
  intros Hk. rewrite possible_mbind. split.
  - intros [(y & Hy & Hr)|(e & He & ->)].
    + apply possible_getitem in Hy. rewrite Hk in Hy.
      injection Hy as <-. exact Hr.
    + apply possible_getitem in He. rewrite Hk in He. discriminate.
  - intros Hr. left. exists x. split; [|exact Hr].
    apply possible_getitem. rewrite Hk. reflexivity.
Qed.

Section MissingKey.
Variable expm : nat -> Mat -> Mat.
Variable run : nat -> QuantumTrajectorySim -> list Vec -> dist (list Vec).
Variables K_osc T1_osc discrete_step_duration t_gate t_read t_delay : R.
Variable code_map : gmap string C.

Lemma call_quantum_circuit_missing (self : GKP) (psi : list Vec)
    (action : Action) (k : string) r :
  first_missing (circuit_keys (quantum_circuit self)) action = Some k ->
  possible (call_quantum_circuit expm run K_osc T1_osc
              discrete_step_duration t_gate t_read t_delay self psi action) r
  <-> r = Raise (KeyError k).
Proof.
  unfold call_quantum_circuit.
  destruct (quantum_circuit self); cbn [circuit_keys first_missing];
    unfold quantum_circuit_v1, quantum_circuit_v2, quantum_circuit_v3.
  - destruct (action !! "alpha") as [a|] eqn:Ha.
    2:{ intros [= <-]. apply getitem_bind_missing, Ha. }
    rewrite (getitem_bind_present _ _ a) by exact Ha.
    destruct (action !! "beta") as [b|] eqn:Hb.
    2:{ intros [= <-]. apply getitem_bind_missing, Hb. }
    rewrite (getitem_bind_present _ _ b) by exact Hb.
    destruct (action !! "phi") as [p|] eqn:Hp; [discriminate|].
    intros [= <-]. apply getitem_bind_missing, Hp.
  - destruct (action !! "alpha") as [a|] eqn:Ha.
    2:{ intros [= <-]. apply getitem_bind_missing, Ha. }
    rewrite (getitem_bind_present _ _ a) by exact Ha.
    destruct (action !! "beta") as [b|] eqn:Hb.
    2:{ intros [= <-]. apply getitem_bind_missing, Hb. }
    rewrite (getitem_bind_present _ _ b) by exact Hb.
    destruct (action !! "phi") as [p|] eqn:Hp; [discriminate|].
    intros [= <-]. apply getitem_bind_missing, Hp.
  - destruct (action !! "alpha") as [a|] eqn:Ha.
    2:{ intros [= <-]. apply getitem_bind_missing, Ha. }
    rewrite (getitem_bind_present _ _ a) by exact Ha.
    destruct (action !! "beta") as [b|] eqn:Hb.
    2:{ intros [= <-]. apply getitem_bind_missing, Hb. }
    rewrite (getitem_bind_present _ _ b) by exact Hb.
    destruct (action !! "epsilon") as [e|] eqn:He.
    2:{ intros [= <-]. apply getitem_bind_missing, He. }
    rewrite (getitem_bind_present _ _ e) by exact He.
    destruct (action !! "phi") as [p|] eqn:Hp; [discriminate|].
    intros [= <-]. apply getitem_bind_missing, Hp.
Qed.

End MissingKey.


(** ** Rewards that come with the last step only *)

Lemma phase_estimation_outcomes (N b : nat) (ops : Operators)
    (e : Mat -> Mat) (psi : list Vec) (beta : list C) (angle : list R)
    (r : list Vec * Tensor2) :
  possible (phase_estimation N b ops e psi beta angle true) r ->
  Forall (fun x => x = 1 \/ x = -1) (concat r.2).
Proof.
  unfold phase_estimation. intros Hr.
  apply possible_measurement in Hr as (os & Hos & ->). cbn [snd].
  assert (H01 : Forall (fun o => o = 0%Z \/ o = 1%Z) os).
  { apply (Forall2_Forall_r _ _ _ _ Hos). apply Forall_forall.
    intros q _ o Ho. exact Ho. }
  clear Hos. unfold remap. induction H01 as [|o os Ho _ IH]; [constructor|].
  rewrite fmap_cons. cbn [concat app]. constructor; [|exact IH].
  destruct Ho as [->| ->]; [left|right]; reflexivity.
Qed.

Section SparseReward.
Variable expm : nat -> Mat -> Mat.
Variable run : nat -> QuantumTrajectorySim -> list Vec -> dist (list Vec).
Variables K_osc T1_osc discrete_step_duration t_gate t_read t_delay : R.
Variable code_map : gmap string C.

Local Abbreviation step :=
  (_step expm run K_osc T1_osc discrete_step_duration t_gate t_read t_delay
         code_map).

(** What a step that returns has computed. *)
Lemma step_Ok (self : GKP) (ep : Episode) (action : Action) (env : GKP)
    (ts : TimeStep) :
  episode self = Some ep ->
  possible (step self action) (Ok (env, ts)) ->
  exists psi psi_cached obs,
    let elapsed := (_elapsed_steps ep + 1)%Z in
    let ended := (elapsed =? episode_length self)%Z in
    possible (call_calculate_reward expm K_osc T1_osc code_map self
                (with_step ep psi psi_cached elapsed ended) obs action)
             (Ok (reward ts))
    /\ step_type ts = (if ended then LAST else MID)
    /\ discount ts = (fun _ => if ended then 0 else 1) <$> reward ts
    /\ exists ep',
         env = with_episode self ep'
         /\ _current_time_step_ ep' = ts
         /\ _elapsed_steps ep' = elapsed
         /\ _episode_ended ep' = ended
         /\ _state ep' = psi
         /\ info ep' !! "psi_cached" = Some psi_cached
         /\ _episode_return ep'
            = zip_with Rplus (_episode_return ep) (reward ts).
Proof.
  intros Hep Hr. unfold _step in Hr. rewrite Hep in Hr.
  apply possible_mbind in Hr as [(r1 & _ & Hr)|(e & _ & [=])].
  apply possible_mbind in Hr as [(h1 & _ & Hr)|(e & _ & [=])].
  apply possible_mbind in Hr as [(m1 & _ & Hr)|(e & _ & [=])].
  apply possible_mbind in Hr as [(o1 & _ & Hr)|(e & _ & [=])].
  apply possible_mbind in Hr as [(rw & Hrw & Hr)|(e & _ & [=])].
  apply possible_mret in Hr. injection Hr as -> ->.
  exists r1.1.1, r1.1.2, r1.2. cbn zeta.
  destruct (_elapsed_steps ep + 1 =? episode_length self)%Z eqn:Hend.
  - cbn [reward step_type discount termination].
    split; [exact Hrw|]. split; [reflexivity|]. split; [reflexivity|].
    eexists. split; [reflexivity|]. cbn.
    rewrite lookup_insert_eq. repeat split; reflexivity.
  - cbn [reward step_type discount transition].
    split; [exact Hrw|]. split; [reflexivity|]. split; [reflexivity|].
    eexists. split; [reflexivity|]. cbn.
    rewrite lookup_insert_eq. repeat split; reflexivity.
Qed.

End SparseReward.


Lemma pauli_run_wf_env : wf_env demo_states pauli_code_map pauli_run_env.
Proof.
  split; cbn.
  - lia.
  - apply (bool_decide_unpack _). vm_compute. exact I.
  - intros k Hk. unfold cardinal_modes in Hk.
    repeat (apply elem_of_cons in Hk as [->|Hk];
            [eexists; reflexivity|]).
    apply elem_of_nil in Hk. destruct Hk.
  - exact I.
  - reflexivity.
  - split; [discriminate|]. intros k Hk.
    repeat (apply elem_of_cons in Hk as [->|Hk];
            [eexists; reflexivity|]).
    apply elem_of_nil in Hk. destruct Hk.
  - lia.
Qed.


(** ** What a reset leaves *)

Lemma possible_getitems_Ok {A} (d : gmap string A) (ks : list string)
    (xs : list A) :
  possible (getitems d ks) (Ok xs) ->
  Forall2 (fun x k => d !! k = Some x) xs ks.
Proof.
  revert xs. induction ks as [|k ks IH]; intros xs Hr; cbn [getitems] in Hr.
  - apply possible_mret in Hr. injection Hr as ->. constructor.
  - apply possible_mbind in Hr as [(x & Hx & Hr)|(e & _ & [=])].
    apply possible_mbind in Hr as [(ys & Hys & Hr)|(e & _ & [=])].
    apply possible_mret in Hr. injection Hr as ->.
    constructor; [apply possible_getitem_Ok, Hx|apply IH, Hys].
Qed.

Lemma init_modes_cases (v : string) :
  v ∈ init_modes ->
  (v ∈ cardinal_modes /\ v <> "random")
  \/ (v = "random" /\ v ∉ cardinal_modes).
Proof.
  intros Hin. unfold init_modes in Hin.
  repeat (apply elem_of_cons in Hin as [->|Hin];
          [first [left; split; [apply (bool_decide_unpack _); vm_compute;
                                exact I|discriminate]
                 |right; split; [reflexivity|
                                 apply (bool_decide_unpack _); vm_compute;
                                 exact I]]|]).
  apply elem_of_nil in Hin. destruct Hin.
Qed.

Lemma initial_states_with_episode (states : gmap string Vec) (self : GKP)
    (old : Episode) :
  _init self ∈ init_modes ->
  initial_states states (with_episode self old) = initial_states states self.
Proof.
  intros Hin. unfold initial_states. cbn [_init with_episode].
  destruct (init_modes_cases _ Hin) as [[Hc _]|[Hr Hc]].
  - rewrite (bool_decide_eq_true_2 _ Hc). reflexivity.
  - rewrite (bool_decide_eq_false_2 _ Hc), Hr. reflexivity.
Qed.

Lemma initial_states_Ok (states : gmap string Vec) (self : GKP)
    (psi : list Vec) (original : list string) :
  _init self ∈ init_modes ->
  possible (initial_states states self) (Ok (psi, original)) ->
  length original = batch_size self
  /\ Forall2 (fun p label => states !! label = Some p) psi original
  /\ Forall (fun label =>
               if decide (_init self = "random")
               then label ∈ ["X+"; "Y+"; "Z+"]
               else label = _init self) original.
Proof.
  intros Hin Hr. unfold initial_states in Hr.
  destruct (init_modes_cases _ Hin) as [[Hc Hne]|[Hrand Hc]].
  - rewrite (bool_decide_eq_true_2 _ Hc) in Hr.
    apply possible_mbind in Hr as [(p & Hp & Hr)|(e & _ & [=])].
    apply possible_getitem_Ok in Hp.
    apply possible_mret in Hr. injection Hr as -> ->.
    split; [apply length_replicate|]. split.
    + apply Forall2_replicate. exact Hp.
    + apply Forall_replicate.
      destruct (decide (_init self = "random")); [contradiction|reflexivity].
  - rewrite (bool_decide_eq_false_2 _ Hc), Hrand in Hr.
    cbn [String.eqb Ascii.eqb Bool.eqb] in Hr.
    apply possible_mbind in Hr as [(o & Ho & Hr)|(e & _ & [=])].
    apply possible_sample in Ho as (o' & [= <-] & Ho).
    apply possible_np_random_choice in Ho as [Hlen Hall].
    apply possible_mbind in Hr as [(ps & Hps & Hr)|(e & _ & [=])].
    apply possible_mret in Hr. injection Hr as -> ->.
    split; [exact Hlen|]. split; [apply possible_getitems_Ok, Hps|].
    rewrite Hrand. exact Hall.
Qed.

(** X15: for every supported [init], a reset does not depend on the episode
    that was running: it returns what it returns on the environment as
    constructed. What it leaves is a fresh episode: no step elapsed, a
    return of zero, an empty [info], a time step of type [FIRST] with zero
    reward; one label per batch element, the state of every batch element
    is the entry of [states] for its label, and the labels are all [init],
    or, for [init = 'random'], each one of [X+], [Y+], [Z+]. *)
Theorem reset_starts_afresh (states : gmap string Vec) (self env : GKP)
    (ts : TimeStep) :
  _init self ∈ init_modes ->
  possible (_reset states self) (Ok (env, ts)) ->
  (forall old : Episode,
     _reset states (with_episode self old) = _reset states self)
  /\ exists ep,
       episode env = Some ep
       /\ _current_time_step_ ep = ts
       /\ step_type ts = FIRST
       /\ reward ts = replicate (batch_size self) 0
       /\ _elapsed_steps ep = 0%Z
       /\ _episode_ended ep = false
       /\ _episode_return ep = replicate (batch_size self) 0
       /\ info ep = ∅
       /\ length (_original ep) = batch_size self
       /\ Forall2 (fun psi label => states !! label = Some psi)
                  (_state ep) (_original ep)
       /\ Forall (fun label =>
                    if decide (_init self = "random")
                    then label ∈ ["X+"; "Y+"; "Z+"]
                    else label = _init self) (_original ep).
Proof.
  intros Hin Hr. split.
  - intros old. unfold _reset.
    rewrite (initial_states_with_episode states self old Hin). reflexivity.
  - unfold _reset in Hr.
    apply possible_mbind in Hr as [([psi original] & Hi & Hr)|(e & _ & [=])].
    apply possible_mbind in Hr as [(T & _ & Hr)|(e & _ & [=])].
    apply possible_mbind in Hr as [(o & _ & Hr)|(e & _ & [=])].
    apply possible_mret in Hr. injection Hr as -> ->.
    destruct (initial_states_Ok states self psi original Hin Hi)
      as (Hlen & Hst & Hlab).
    eexists. split; [reflexivity|]. cbn.
    repeat (split; [reflexivity|]). split; [exact Hlen|].
    split; [exact Hst|exact Hlab].
Qed.

Lemma reset_starts_afresh_witness :
  exists env ts,
    possible (_reset demo_states demo_env) (Ok (env, ts))
    /\ (forall old : Episode,
          _reset demo_states (with_episode demo_env old)
          = _reset demo_states demo_env)
    /\ exists ep,
         episode env = Some ep
         /\ _current_time_step_ ep = ts
         /\ step_type ts = FIRST
         /\ reward ts = replicate (batch_size demo_env) 0
         /\ _elapsed_steps ep = 0%Z
         /\ _episode_ended ep = false
         /\ _episode_return ep = replicate (batch_size demo_env) 0
         /\ info ep = ∅
         /\ length (_original ep) = batch_size demo_env
         /\ Forall2 (fun psi label => demo_states !! label = Some psi)
                    (_state ep) (_original ep)
         /\ Forall (fun label =>
                      if decide (_init demo_env = "random")
                      then label ∈ ["X+"; "Y+"; "Z+"]
                      else label = _init demo_env) (_original ep).
Proof.
  destruct (reset_nonempty demo_states demo_env) as [r Hr].
  destruct (reset_spec demo_states ∅ demo_env r demo_wf_env Hr)
    as (T & ep0 & E & _ & _).
  rewrite E in Hr. eexists _, _. split; [exact Hr|].
  apply (reset_starts_afresh demo_states demo_env _ _); [|exact Hr].
  apply (bool_decide_unpack _). vm_compute. exact I.
Defined.
